(** * Armature and bone classification of the NIF importer

    A shallow embedding of [io_scene_nif/modules/armature/armature_import.py]:
    the class [Armature] with its dictionary [dict_armatures], the marking
    pass [mark_armatures_bones] with its helpers [populate_bone_tree] and
    [complete_bone_tree], the queries [is_bone] and [is_armature_root], the
    creation of the edit bones by [import_bone] and the edit-bone pass
    [fix_bone_lengths]; of the collision importer
    [io_scene_nif/modules/collision/collision_import.py]; and of
    [_game_to_enum] of [io_scene_nif/operators/nif_export_op.py].

    Python objects live in a heap: a block of the NIF file is named by its
    identity, and the file is a total map from identities to blocks.  The
    dictionary [dict_armatures] is a finite map from the identity of an
    armature root to the ordered list of its bones.  Exceptions are results
    of type [Result]; the Python recursion limit is the [depth] argument of
    every recursive function, and running out of it is [RecursionError]. *)

From Stdlib Require Import PrimFloat Uint63 ZArith Ascii.
From Stdlib Require SpecFloat FloatOps.
From stdpp Require Import functions gmap strings pretty list fin_maps.

(** ** Exceptions and results *)

Inductive Exc : Type :=
| NifError (msg : string)
| AttributeError
| UnboundLocalError
| IndexError
| KeyError
| AssertionError
| RecursionError.

Inductive Result (A : Type) : Type :=
| Ok (a : A)
| Raise (e : Exc).
Arguments Ok {A} a.
Arguments Raise {A} e.

Definition rbind {A B} (m : Result A) (k : A -> Result B) : Result B :=
  match m with
  | Ok a => k a
  | Raise e => Raise e
  end.

Global Instance Result_bind : MBind Result := fun A B k m => rbind m k.

(** A [for] loop whose body threads a state and may raise. *)
Fixpoint for_each {S A} (body : S -> A -> Result S) (xs : list A) (s : S)
  : Result S :=
  match xs with
  | [] => Ok s
  | x :: rest => s' ← body s x; for_each body rest s'
  end.

(** Collects the results of [f] over a list, stopping at the first raise. *)
Fixpoint collect {A B} (f : A -> Result B) (xs : list A) : Result (list B) :=
  match xs with
  | [] => Ok []
  | x :: rest => y ← f x; ys ← collect f rest; Ok (y :: ys)
  end.

(** ** The node graph of the format library *)

Abbreviation BlockId := nat (only parsing).

(** The classes of [NifFormat] the classifier tests with [isinstance].
    [NiLODNode] derives from [NiNode]; [NiNode] and [NiTriBasedGeom] derive
    from [NiAVObject]; [NiObject] stands for every block without a
    transform (properties, skin instances, data blocks). *)
Inductive BlockType : Type :=
| NiObject
| NiAVObject
| NiNode
| NiLODNode
| NiTriBasedGeom.

Global Instance BlockType_eq_dec : EqDecision BlockType.
Proof. solve_decision. Defined.

Definition isinstance (t cls : BlockType) : bool :=
  match cls, t with
  | NiObject, _ => true
  | NiAVObject, (NiAVObject | NiNode | NiLODNode | NiTriBasedGeom) => true
  | NiNode, (NiNode | NiLODNode) => true
  | NiLODNode, NiLODNode => true
  | NiTriBasedGeom, NiTriBasedGeom => true
  | _, _ => false
  end.

(** [NiSkinInstance]: the skeleton root and the bones; both are pointers
    and may be [None]. *)
Record NiSkinInstance : Type := {
  skeleton_root : option BlockId;
  bones : list (option BlockId)
}.

(** A block as the classifier reads it.  [name] is a [bytes], given by its
    characters; [_parent] is the attribute the importer sets before
    classification; [get_refs] lists the blocks this block refers to, in
    order, without null entries. *)
Record Block : Type := {
  block_type : BlockType;
  name : string;
  _parent : option BlockId;
  skin_instance : option NiSkinInstance;
  get_refs : list BlockId
}.

Abbreviation NifGraph := (BlockId -> Block) (only parsing).

Definition is_a (g : NifGraph) (b : BlockId) (cls : BlockType) : bool :=
  isinstance (block_type (g b)) cls.
Global Arguments is_a : simpl never.

(** [block.tree()] of the format library: the block itself, then the tree
    of each of its references, in order. *)
Fixpoint tree (g : NifGraph) (depth : nat) (b : BlockId)
  : Result (list BlockId) :=
  match depth with
  | 0 => Raise RecursionError
  | S k => subs ← collect (tree g k) (get_refs (g b)); Ok (b :: concat subs)
  end.

(** The first truthy result of [f] over a list. *)
Fixpoint first_found {A B} (f : A -> Result (option B)) (xs : list A)
  : Result (option B) :=
  match xs with
  | [] => Ok None
  | x :: rest =>
      r ← f x;
      match r with
      | Some y => Ok (Some y)
      | None => first_found f rest
      end
  end.

(** A Python string: a [str], as the names of the host and the literals
    of the add-on are, or a [bytes], as the names of the blocks of a file
    are.  A [str] and a [bytes] are never equal. *)
Inductive PyString : Type :=
| PyStr (s : string)
| PyBytes (s : string).

(** [bool(block_name)]: an empty string is falsy. *)
Definition nonempty (block_name : PyString) : bool :=
  match block_name with
  | PyStr EmptyString | PyBytes EmptyString => false
  | _ => true
  end.

(** [block_name == self.name]: the name of a block is a [bytes]. *)
Definition name_eq (block_name : PyString) (blk : Block) : bool :=
  match block_name with
  | PyStr _ => false
  | PyBytes s => bool_decide (s = name blk)
  end.

(** [block.find(block_name, block_type)] of the format library: the first
    block in pre-order whose name equals [block_name] (and which is of
    that class, when given).  An empty name is no criterion. *)
Definition find_matches (blk : Block) (block_name : PyString)
    (cls : option BlockType) : bool :=
  match nonempty block_name, cls with
  | false, None => false
  | false, Some c => isinstance (block_type blk) c
  | true, None => name_eq block_name blk
  | true, Some c => isinstance (block_type blk) c && name_eq block_name blk
  end.

Fixpoint find (g : NifGraph) (depth : nat) (b : BlockId)
    (block_name : PyString) (cls : option BlockType)
  : Result (option BlockId) :=
  match depth with
  | 0 => Raise RecursionError
  | S k =>
      if find_matches (g b) block_name cls then Ok (Some b)
      else first_found (fun c => find g k c block_name cls) (get_refs (g b))
  end.

(** ** The importer's settings and host objects *)

(** [NifOp.props.skeleton]. *)
Inductive SkeletonMode : Type :=
| EVERYTHING
| SKELETON_ONLY
| GEOMETRY_ONLY.

Global Instance SkeletonMode_eq_dec : EqDecision SkeletonMode.
Proof. solve_decision. Defined.

(** The selected armature object of the host scene: its name and the keys
    of [data.bones], which are [str]s. *)
Record B_Object : Type := {
  b_name : string;
  b_bones_keys : list string
}.

(** What the classifier reads from [NifOp.props] and [self.nif_import],
    and the library functions it calls on the path of the file.
    [is_grouping_node] and [get_bone_name_for_nif] are functions of the
    add-on defined outside this module; [os.path.basename] depends on the
    platform (on Windows the backslash separates, too) and [str.lower]
    acts on every cased character.  All four are taken as given. *)
Record NifImport : Type := {
  props_skeleton : SkeletonMode;
  props_filepath : string;
  data_version : Z;
  selected_objects : list B_Object;
  is_grouping_node : BlockId -> bool;
  get_bone_name_for_nif : string -> string;
  os_path_basename : string -> string;
  str_lower : string -> string
}.

(** The file is an Oblivion or Fallout 3 skeleton: the second disjunct of
    the first test of [mark_armatures_bones]. *)
Definition legacy_skeleton_file (ctx : NifImport) : bool :=
  bool_decide (data_version ctx ∈ [0x14000005; 0x14020007]%Z)
  && bool_decide (str_lower ctx (os_path_basename ctx (props_filepath ctx))
                    ∈ ["skeleton.nif"; "skeletonbeast.nif"]).

Definition skeleton_branch (ctx : NifImport) : bool :=
  bool_decide (props_skeleton ctx = SKELETON_ONLY) || legacy_skeleton_file ctx.

(** ** The class [Armature] *)

(** [self.dict_armatures]: armature root to the list of its bones. *)
Abbreviation Dict := (gmap nat (list nat)) (only parsing).

(** [self.dict_armatures[skelroot].append(bone)]. *)
Definition dict_append (skelroot bone : BlockId) (d : Dict) : Result Dict :=
  match d !! skelroot with
  | None => Raise KeyError
  | Some l => Ok (<[skelroot := l ++ [bone]]> d)
  end.

(** [if bone not in self.dict_armatures[skelroot]: ....append(bone)]. *)
Definition dict_add (skelroot bone : BlockId) (d : Dict) : Result Dict :=
  match d !! skelroot with
  | None => Raise KeyError
  | Some l =>
      if decide (bone ∈ l) then Ok d else Ok (<[skelroot := l ++ [bone]]> d)
  end.

(** [complete_bone_tree]: marks the parents of [bone] up to [skelroot].
    A parent that is [None] differs from [skelroot] and is in no list, so
    it is appended and the log line reads its [name], which raises. *)
Fixpoint complete_bone_tree (g : NifGraph) (depth : nat)
    (bone skelroot : BlockId) (d : Dict) : Result Dict :=
  match depth with
  | 0 => Raise RecursionError
  | S k =>
      match d !! skelroot with
      | None => Raise AssertionError
      | Some l =>
          if decide (bone ∈ l) then
            match _parent (g bone) with
            | None => Raise AttributeError
            | Some boneparent =>
                if decide (boneparent = skelroot) then Ok d
                else
                  (d' ← dict_add skelroot boneparent d;
                   complete_bone_tree g k boneparent skelroot d')
            end
          else Raise AssertionError
      end
  end.

(** The body of the loop of [populate_bone_tree]. *)
Definition populate_step (ctx : NifImport) (g : NifGraph)
    (skelroot : BlockId) (d : Dict) (bone : BlockId) : Result Dict :=
  if decide (bone = skelroot) then Ok d
  else if negb (is_a g bone NiNode) then Ok d
  else if is_a g bone NiLODNode then Ok d
  else if is_grouping_node ctx bone then Ok d
  else dict_add skelroot bone d.

Definition populate_bone_tree (ctx : NifImport) (g : NifGraph) (depth : nat)
    (skelroot : BlockId) (d : Dict) : Result Dict :=
  t ← tree g depth skelroot;
  for_each (populate_step ctx g skelroot) t d.

(** The [GEOMETRY_ONLY] branch taken on an empty dictionary: identifies the
    armature and the bones of the selected object.  It returns the
    dictionary and the value bound to the local [b_armature_obj]. *)
Definition identify_armature (ctx : NifImport) (g : NifGraph) (depth : nat)
    (niBlock : BlockId) (d : Dict) : Result (Dict * B_Object) :=
  match selected_objects ctx with
  | [] => Raise IndexError
  | b_armature_obj :: _ =>
      found ← find g depth niBlock (PyStr (b_name b_armature_obj)) None;
      match found with
      | None => Raise (NifError "nif has no armature")
      | Some skelroot =>
          d' ← for_each
                  (fun d bone_name =>
                     bone_block ← find g depth skelroot
                                     (PyStr
                                        (get_bone_name_for_nif ctx bone_name))
                                     None;
                     match bone_block with
                     | None => Ok d
                     | Some bone_block =>
                         d1 ← dict_append skelroot bone_block d;
                         complete_bone_tree g depth bone_block skelroot d1
                     end)
                  (b_bones_keys b_armature_obj)
                  (<[skelroot := []]> d);
          Ok (d', b_armature_obj)
      end
  end.

(** The [raise] of the [GEOMETRY_ONLY] check: its message reads
    [b_armature_obj.name] first and [skelroot.name] last. *)
Definition raise_incompatible {A} (b_armature_obj : option B_Object)
    (skelroot : option BlockId) : Result A :=
  match b_armature_obj with
  | None => Raise UnboundLocalError
  | Some _ =>
      match skelroot with
      | None => Raise AttributeError
      | Some _ => Raise (NifError "nif structure incompatible with armature")
      end
  end.

(** The test on the skeleton root of a skin instance, by import mode. *)
Definition check_skelroot (ctx : NifImport)
    (b_armature_obj : option B_Object) (skelroot : option BlockId)
    (d : Dict) : Result Dict :=
  match props_skeleton ctx with
  | EVERYTHING =>
      match skelroot with
      | None => Raise AttributeError
      | Some r => if decide (is_Some (d !! r)) then Ok d else Ok (<[r := []]> d)
      end
  | GEOMETRY_ONLY =>
      match skelroot with
      | None => raise_incompatible b_armature_obj skelroot
      | Some r =>
          if decide (is_Some (d !! r)) then Ok d
          else raise_incompatible b_armature_obj skelroot
      end
  | SKELETON_ONLY => Ok d
  end.

(** The body of the loop over [skininst.bones]. *)
Definition mark_skin_bone (g : NifGraph) (depth : nat) (skelroot : BlockId)
    (d : Dict) (boneBlock : option BlockId) : Result Dict :=
  match boneBlock with
  | None => Ok d
  | Some b =>
      d1 ← dict_add skelroot b d;
      complete_bone_tree g depth b skelroot d1
  end.

(** The part of [mark_armatures_bones] that looks at the block itself. *)
Definition mark_skin (ctx : NifImport) (g : NifGraph) (depth : nat)
    (niBlock : BlockId) (b_armature_obj : option B_Object) (d : Dict)
  : Result Dict :=
  if is_a g niBlock NiTriBasedGeom then
    match skin_instance (g niBlock) with
    | None => Ok d
    | Some skininst =>
        d1 ← check_skelroot ctx b_armature_obj (skeleton_root skininst) d;
        match skeleton_root skininst with
        | None =>
            if existsb (fun b => bool_decide (is_Some b)) (bones skininst)
            then Raise KeyError
            else Raise AttributeError
        | Some skelroot =>
            d2 ← for_each (mark_skin_bone g depth skelroot)
                    (bones skininst) d1;
            populate_bone_tree ctx g depth skelroot d2
        end
    end
  else Ok d.

(** The skeleton branch of [mark_armatures_bones]. *)
Definition mark_skeleton (ctx : NifImport) (g : NifGraph) (depth : nat)
    (niBlock : BlockId) (d : Dict) : Result Dict :=
  if negb (is_a g niBlock NiNode) then
    Raise (NifError "cannot import skeleton: root is not a NiNode")
  else
    skelroot ←
      (if bool_decide (data_version ctx = 0x04000002%Z) then
         found ← find g depth niBlock (PyStr "Bip01") (Some NiNode);
         Ok (default niBlock found)
       else Ok niBlock);
    let d1 := if decide (is_Some (d !! skelroot)) then d
              else <[skelroot := []]> d in
    populate_bone_tree ctx g depth skelroot d1.

Fixpoint mark_armatures_bones (ctx : NifImport) (g : NifGraph) (depth : nat)
    (niBlock : BlockId) (d : Dict) : Result Dict :=
  match depth with
  | 0 => Raise RecursionError
  | S k =>
      if skeleton_branch ctx then mark_skeleton ctx g k niBlock d
      else
        st ←
          (if bool_decide (props_skeleton ctx = GEOMETRY_ONLY)
              && bool_decide (d = ∅)
           then
             r ← identify_armature ctx g k niBlock d;
             Ok (r.1, Some r.2)
           else Ok (d, None));
        d1 ← mark_skin ctx g k niBlock st.2 st.1;
        for_each
          (fun d child =>
             if negb (is_a g child NiAVObject) then Ok d
             else mark_armatures_bones ctx g k child d)
          (get_refs (g niBlock)) d1
  end.

(** The value returned by [is_bone]: a Python [bool], or [None] when the
    function falls off its end. *)
Inductive PyValue : Type :=
| PyBool (b : bool)
| PyNone.

Definition truthy (v : PyValue) : bool :=
  match v with
  | PyBool b => b
  | PyNone => false
  end.

Fixpoint is_bone_loop (values : list (list BlockId)) (niBlock : BlockId)
  : PyValue :=
  match values with
  | [] => PyNone
  | bones :: rest =>
      if decide (niBlock ∈ bones) then PyBool true
      else is_bone_loop rest niBlock
  end.

Definition is_bone (d : Dict) (niBlock : option BlockId) : PyValue :=
  match niBlock with
  | None => PyBool false
  | Some b => is_bone_loop ((map_to_list d).*2) b
  end.

Definition is_armature_root (g : NifGraph) (d : Dict) (niBlock : BlockId)
  : PyValue :=
  if is_a g niBlock NiNode then PyBool (bool_decide (is_Some (d !! niBlock)))
  else PyNone.

(** ** Parent chains *)

(** [ancestor g a b]: [a] is reached from [b] by one or more [_parent]
    links. *)
Inductive ancestor (g : NifGraph) : BlockId -> BlockId -> Prop :=
| ancestor_parent b p :
    _parent (g b) = Some p -> ancestor g p b
| ancestor_step b p a :
    _parent (g b) = Some p -> ancestor g a p -> ancestor g a b.

(** [between g r b a]: going up from [b], [a] is met before [r] is. *)
Inductive between (g : NifGraph) (r : BlockId) : BlockId -> BlockId -> Prop :=
| between_parent b p :
    _parent (g b) = Some p -> p ≠ r -> between g r b p
| between_step b p a :
    _parent (g b) = Some p -> p ≠ r -> between g r p a -> between g r b a.

(** [a] lies strictly between the bone [b] and the root [r]. *)
Definition strictly_between (g : NifGraph) (r b a : BlockId) : Prop :=
  between g r b a ∧ ancestor g r a.

(** A node [populate_bone_tree] accepts as a bone. *)
Definition eligible (ctx : NifImport) (g : NifGraph) (a : BlockId) : Prop :=
  is_a g a NiNode = true ∧ is_a g a NiLODNode = false
  ∧ is_grouping_node ctx a = false.

(** The importer sets [_parent] on the children of every [NiNode]: a
    reference to a [NiNode] comes from a [NiNode] and is mirrored by the
    parent link. *)
Definition parents_set (g : NifGraph) : Prop :=
  ∀ q x, x ∈ get_refs (g q) -> is_a g x NiNode = true ->
         _parent (g x) = Some q ∧ is_a g q NiNode = true.

(** The reference graph has no cycle: references go down a rank. *)
Definition ranked (g : NifGraph) (rank : BlockId -> nat) : Prop :=
  ∀ q x, x ∈ get_refs (g q) -> rank x < rank q.

(** ** Properties of an armature dictionary *)

(** [b] is registered as a bone under the root [r]. *)
Definition registered (d : Dict) (r b : BlockId) : Prop :=
  ∃ l, d !! r = Some l ∧ b ∈ l.

(** [d'] keeps the roots and bones of [d]. *)
Definition extends (d d' : Dict) : Prop :=
  ∀ r l, d !! r = Some l -> ∃ l', d' !! r = Some l' ∧ l ⊆ l'.

(** Above every registered bone, what is met before its root and is
    eligible as a bone is registered under that root. *)
Definition complete_eligible (ctx : NifImport) (g : NifGraph) (d : Dict)
  : Prop :=
  ∀ r b a, registered d r b -> between g r b a -> eligible ctx g a ->
           registered d r a.

(** Every registered bone has its root among its ancestors. *)
Definition below_root (g : NifGraph) (d : Dict) : Prop :=
  ∀ r b, registered d r b -> ancestor g r b.

(** No list of bones holds a bone twice. *)
Definition no_duplicates (d : Dict) : Prop :=
  ∀ r l, d !! r = Some l -> NoDup l.

(** An operation on the dictionary that only adds to it and, once it has
    returned, changes nothing on a dictionary that keeps its result. *)
Definition absorbed (op : Dict -> Result Dict) : Prop :=
  ∀ d d', op d = Ok d' ->
          extends d d' ∧ ∀ d'', extends d' d'' -> op d'' = Ok d''.

(** [grown r Q d d']: [d'] is [d] with bones satisfying [Q] appended to the
    list of the root [r]. *)
Definition grown (r : BlockId) (Q : BlockId -> Prop) (d d' : Dict) : Prop :=
  ∃ l ext, d !! r = Some l ∧ d' = <[r := l ++ ext]> d ∧ Forall Q ext.

Global Instance registered_dec (d : Dict) r b : Decision (registered d r b).
Proof.
  unfold registered. destruct (d !! r) as [l|].
  - destruct (decide (b ∈ l)) as [Hin|Hout].
    + left. by exists l.
    + right. by intros (? & [= <-] & ?).
  - right. by intros (? & ? & _).
Defined.

(** The tree-completion property as the specification words it: every
    node strictly between a registered bone and its root is registered
    under that root. *)
Definition tree_complete (g : NifGraph) (d : Dict) : Prop :=
  ∀ r b a, registered d r b -> strictly_between g r b a -> registered d r a.

(** The partition property as the specification words it. *)
Definition partitioned (d : Dict) : Prop :=
  ∀ r1 r2 b, registered d r1 b -> registered d r2 b -> r1 = r2.

(** A node of the plain-transform type: a NiNode that is not a LOD
    node. *)
Definition plain_transform (g : NifGraph) (x : BlockId) : Prop :=
  is_a g x NiNode = true ∧ is_a g x NiLODNode = false.

(** Two files with the same classes and the same references. *)
Definition same_shape (g g' : NifGraph) : Prop :=
  ∀ i, block_type (g' i) = block_type (g i)
       ∧ get_refs (g' i) = get_refs (g i).

(** * Edit bones and their lengths *)

(** ** The host's vectors and edit bones *)

(** What [fix_bone_lengths] and the host's property [length] use of
    [mathutils.Vector]: the zero vector [Vector()], [+], [-], the product
    with a [float], the division by an [int], [.length], which is a Python
    [float], and [.normalized()]. *)
Class Mathutils (Vector : Type) : Type := {
  Vector_new : Vector;
  vec_add : Vector -> Vector -> Vector;
  vec_sub : Vector -> Vector -> Vector;
  vec_mul : Vector -> float -> Vector;
  vec_div : Vector -> nat -> Vector;
  vec_length : Vector -> float;
  vec_normalized : Vector -> Vector
}.

Abbreviation BoneId := nat (only parsing).

(** An edit bone of the host: what it stores is its head, its tail and its
    roll, and the links to its parent and its children.  Its length is not
    stored: it is a property computed from the head and the tail. *)
Record EditBone (Vector : Type) : Type := {
  eb_head : Vector;
  eb_tail : Vector;
  eb_roll : float;
  eb_parent : option BoneId;
  eb_children : list BoneId
}.
Arguments eb_head {Vector} _.
Arguments eb_tail {Vector} _.
Arguments eb_roll {Vector} _.
Arguments eb_parent {Vector} _.
Arguments eb_children {Vector} _.

Set Warnings "-inexact-float".

Section FixBoneLengths.
Context {Vector : Type} `{Mathutils Vector}.

(** The bones of the host, by identity. *)
Abbreviation Bones := (BoneId -> EditBone Vector) (only parsing).

(** The getter of the host's property [length] of a bone:
    [(self.tail - self.head).length]. *)
Definition eb_length (b : EditBone Vector) : float :=
  vec_length (vec_sub (eb_tail b) (eb_head b)).

(** The tail that gives a bone the length [x] along its own direction:
    [self.head + ((self.tail - self.head).normalized() * value)]. *)
Definition rescaled_tail (b : EditBone Vector) (x : float) : Vector :=
  vec_add (eb_head b)
    (vec_mul (vec_normalized (vec_sub (eb_tail b) (eb_head b))) x).

(** [b.length = x]: the setter of the host's property moves the tail. *)
Definition set_length (b : EditBone Vector) (x : float) : EditBone Vector :=
  {| eb_head := eb_head b; eb_tail := rescaled_tail b x;
     eb_roll := eb_roll b; eb_parent := eb_parent b;
     eb_children := eb_children b |}.

(** The body of the loop of [fix_bone_lengths]. *)
Definition fix_bone_length (σ : Bones) (i : BoneId) : Bones :=
  let b_edit_bone := σ i in
  match eb_parent b_edit_bone with
  | None => σ
  | Some p =>
      let bone_length :=
        match eb_children b_edit_bone with
        | [] => eb_length (σ p)
        | children =>
            let childheads :=
              foldl (fun acc b_child => vec_add acc (eb_head (σ b_child)))
                Vector_new children in
            let bone_length :=
              vec_length
                (vec_sub (eb_head b_edit_bone)
                   (vec_div childheads (length children))) in
            if PrimFloat.ltb bone_length 0.01 then 0.25%float
            else bone_length
        end in
      <[i := set_length b_edit_bone bone_length]> σ
  end.

Definition fix_bone_lengths (edit_bones : list BoneId) (σ : Bones)
  : Bones :=
  foldl fix_bone_length σ edit_bones.

(** The mean of the heads of the children of a bone. *)
Definition mean_child_head (σ : Bones) (i : BoneId) : Vector :=
  vec_div
    (foldl (fun acc c => vec_add acc (eb_head (σ c))) Vector_new
       (eb_children (σ i)))
    (length (eb_children (σ i))).

(** The distance from the head of a bone to the mean of the heads of its
    children. *)
Definition distance_to_mean_child_head (σ : Bones) (i : BoneId) : float :=
  vec_length (vec_sub (eb_head (σ i)) (mean_child_head σ i)).

Definition float_of_nat (n : nat) : float :=
  PrimFloat.of_uint63 (Uint63.of_Z (Z.of_nat n)).

(** The mean of the distances from the head of a bone to the heads of
    its children: the length of an internal bone in the words of the
    specification. *)
Definition mean_child_distance (σ : Bones) (i : BoneId) : float :=
  (foldl (fun acc c =>
            acc + vec_length (vec_sub (eb_head (σ i)) (eb_head (σ c))))
     0 (eb_children (σ i))
   / float_of_nat (length (eb_children (σ i))))%float.

(** The fallback for degenerate lengths. *)
Definition with_fallback (x : float) : float :=
  if PrimFloat.ltb x 0.01 then 0.25%float else x.

(** Two states whose bones differ at most in their tails. *)
Definition same_geometry (σ σ' : Bones) : Prop :=
  ∀ j, eb_head (σ' j) = eb_head (σ j)
       ∧ eb_roll (σ' j) = eb_roll (σ j)
       ∧ eb_parent (σ' j) = eb_parent (σ j)
       ∧ eb_children (σ' j) = eb_children (σ j).
End FixBoneLengths.

(** ** Sample files *)

(** A block the sample files do not refer to. *)
Definition no_block : Block :=
  {| block_type := NiObject; name := EmptyString; _parent := None;
     skin_instance := None; get_refs := [] |}.

Definition node (n : string) (p : option BlockId) (refs : list BlockId)
  : Block :=
  {| block_type := NiNode; name := n; _parent := p;
     skin_instance := None; get_refs := refs |}.

Definition lod_node (n : string) (p : option BlockId) (refs : list BlockId)
  : Block :=
  {| block_type := NiLODNode; name := n; _parent := p;
     skin_instance := None; get_refs := refs |}.

Definition skinned_geom (n : string) (p : option BlockId)
    (root : option BlockId) (bs : list (option BlockId)) : Block :=
  {| block_type := NiTriBasedGeom; name := n; _parent := p;
     skin_instance := Some {| skeleton_root := root; bones := bs |};
     get_refs := [] |}.

(** [str.lower] on a path of ASCII characters. *)
Definition lower_ascii (c : ascii) : ascii :=
  let n := nat_of_ascii c in
  if (65 <=? n)%nat && (n <=? 90)%nat then ascii_of_nat (n + 32) else c.

Fixpoint ascii_lower (s : string) : string :=
  match s with
  | EmptyString => EmptyString
  | String c rest => String (lower_ascii c) (ascii_lower rest)
  end.

Fixpoint has_sep (is_sep : ascii -> bool) (s : string) : bool :=
  match s with
  | EmptyString => false
  | String c rest => is_sep c || has_sep is_sep rest
  end.

(** What follows the last separator of a path. *)
Fixpoint after_last_sep (is_sep : ascii -> bool) (p : string) : string :=
  match p with
  | EmptyString => EmptyString
  | String c rest =>
      if has_sep is_sep rest then after_last_sep is_sep rest
      else if is_sep c then rest else p
  end.

(** [posixpath.basename]: the slash is the only separator. *)
Definition posixpath_basename (p : string) : string :=
  after_last_sep (fun c => bool_decide (c = "/"%char)) p.

(** [ntpath.basename] on a path without drive or with a drive letter: the
    slash and the backslash separate, and a drive letter with its colon is
    no part of the name. *)
Definition ntpath_basename (p : string) : string :=
  let is_sep c :=
    bool_decide (c = "/"%char) || bool_decide (c = "092"%char) in
  match p with
  | String _ (String ":" rest) => after_last_sep is_sep rest
  | _ => after_last_sep is_sep p
  end.

(** The settings of an import on a POSIX platform. *)
Definition import_settings (mode : SkeletonMode) (path : string)
    (version : Z) (selected : list B_Object) (grouping : BlockId -> bool)
  : NifImport :=
  {| props_skeleton := mode; props_filepath := path;
     data_version := version; selected_objects := selected;
     is_grouping_node := grouping; get_bone_name_for_nif := fun s => s;
     os_path_basename := posixpath_basename; str_lower := ascii_lower |}.

Definition no_grouping : BlockId -> bool := fun _ => false.

(** A skeleton with a LOD node between the root and a bone. *)
Definition lod_skeleton : NifGraph := fun i =>
  match i with
  | 0 => node "Scene Root" None [1]
  | 1 => lod_node "LOD" (Some 0) [2]
  | 2 => node "Bip01 Head" (Some 1) []
  | _ => no_block
  end.

(** The same skeleton with a skinned shape whose skin refers to the bone
    below the LOD node. *)
Definition lod_skinned : NifGraph := fun i =>
  match i with
  | 0 => node "Scene Root" None [1; 3]
  | 1 => lod_node "LOD" (Some 0) [2]
  | 2 => node "Bip01 Head" (Some 1) []
  | 3 => skinned_geom "Body" (Some 0) (Some 0) [Some 2]
  | _ => no_block
  end.

(** Two skinned shapes, the skeleton root of the second below the
    skeleton root of the first. *)
Definition nested_armatures : NifGraph := fun i =>
  match i with
  | 0 => node "Outer" None [1; 3]
  | 1 => node "Inner" (Some 0) [2; 4]
  | 2 => node "Bone" (Some 1) []
  | 3 => skinned_geom "Body" (Some 0) (Some 0) [Some 1]
  | 4 => skinned_geom "Hand" (Some 1) (Some 1) [Some 2]
  | _ => no_block
  end.

(** A skin that names two bones, the parent of the second not named
    (scenario B of the specification). *)
Definition gap_skeleton : NifGraph := fun i =>
  match i with
  | 0 => node "S" None [1; 2; 4]
  | 1 => node "B1" (Some 0) []
  | 2 => node "P" (Some 0) [3]
  | 3 => node "B2" (Some 2) []
  | 4 => skinned_geom "G" (Some 0) (Some 0) [Some 1; Some 3]
  | _ => no_block
  end.


(** A shape skinned to another node, itself the block the pass starts
    from and carrying the name of the selected armature. *)
Definition foreign_skin_root : NifGraph := fun i =>
  match i with
  | 0 => skinned_geom "Armature" None (Some 1) []
  | _ => no_block
  end.

(** A chain of two bones under the armature. *)
Definition bone_chain : NifGraph := fun i =>
  match i with
  | 0 => node "Armature" None [1]
  | 1 => node "Parent" (Some 0) [2]
  | 2 => node "Child" (Some 1) []
  | _ => no_block
  end.

(** A skin whose list of bones has a null entry (scenario D of the
    specification). *)
Definition null_bone_skin : NifGraph := fun i =>
  match i with
  | 0 => node "S" None [1; 2]
  | 1 => node "B1" (Some 0) []
  | 2 => skinned_geom "G" (Some 0) (Some 0) [None; Some 1]
  | _ => no_block
  end.

(** A skeleton file with a node that groups a shape. *)
Definition grouped_skeleton : NifGraph := fun i =>
  match i with
  | 0 => node "Scene Root" None [1]
  | 1 => node "Body" (Some 0) [2]
  | 2 => {| block_type := NiTriBasedGeom; name := "Body 0";
            _parent := Some 1; skin_instance := None; get_refs := [] |}
  | _ => no_block
  end.

Definition import_everything : NifImport :=
  import_settings EVERYTHING "meshes/creature.nif" 0x14000005 [] no_grouping.

Definition import_skeleton_only : NifImport :=
  import_settings SKELETON_ONLY "meshes/creature.nif" 0x14000005 []
    no_grouping.

Definition import_geometry (keys : list string) : NifImport :=
  import_settings GEOMETRY_ONLY "meshes/creature.nif" 0x14000005
    [{| b_name := "Armature"; b_bones_keys := keys |}] no_grouping.

Definition import_legacy_skeleton : NifImport :=
  import_settings EVERYTHING "Meshes/Characters/_Male/Skeleton.NIF"
    0x14000005 [] (fun i => bool_decide (i = 1)).

(** A Morrowind skeleton with a node named Bip01 below the root. *)
Definition morrowind_skeleton : NifGraph := fun i =>
  match i with
  | 0 => node "Scene Root" None [1]
  | 1 => node "Bip01" (Some 0) [2]
  | 2 => node "Bip01 Pelvis" (Some 1) []
  | _ => no_block
  end.

Definition import_morrowind : NifImport :=
  import_settings SKELETON_ONLY "meshes/base_anim.nif" 0x04000002 []
    no_grouping.


(** The same import on Windows, the path written with backslashes. *)
Definition import_legacy_skeleton_windows : NifImport :=
  {| props_skeleton := EVERYTHING;
     props_filepath := "C:\Oblivion\Data\Meshes\Characters\_Male\Skeleton.NIF";
     data_version := 0x14000005; selected_objects := [];
     is_grouping_node := fun i => bool_decide (i = 1);
     get_bone_name_for_nif := fun s => s;
     os_path_basename := ntpath_basename; str_lower := ascii_lower |}.

(** ** Sample armatures *)

(** The nearest single precision value of a Python [float], as a
    [float]: the conversion of C from [double] to [float]. *)
Definition to_single (x : float) : float :=
  FloatOps.SF2Prim
    match FloatOps.Prim2SF x with
    | SpecFloat.S754_finite s m e => SpecFloat.binary_round 24 128 s m e
    | f => f
    end.

(** Vectors of three coordinates.  The host keeps the coordinates in
    single precision: every coordinate below is a single precision value,
    and every operation rounds its results to single precision. *)
Record Vec3 : Type := { vx : float; vy : float; vz : float }.

(** The product with a single precision factor, coordinate by
    coordinate. *)
Definition mul_v3_fl (u : Vec3) (f : float) : Vec3 :=
  {| vx := to_single (vx u * f); vy := to_single (vy u * f);
     vz := to_single (vz u * f) |}.

(** The dot product of a vector with itself: the products are single
    precision, their sum, from the last coordinate to the first, is double
    precision. *)
Definition dot_v3 (u : Vec3) : float :=
  (0 + to_single (vz u * vz u) + to_single (vy u * vy u)
   + to_single (vx u * vx u))%float.

(** [mathutils.Vector] on three coordinates.  A division multiplies by
    the single precision reciprocal; [.length] is the double precision
    root of the dot product; [.normalized()] gives the zero vector for a
    vector whose dot product is not above 1e-35. *)
Global Instance Vec3_mathutils : Mathutils Vec3 := {|
  Vector_new := {| vx := 0; vy := 0; vz := 0 |};
  vec_add u v :=
    {| vx := to_single (vx u + vx v); vy := to_single (vy u + vy v);
       vz := to_single (vz u + vz v) |};
  vec_sub u v :=
    {| vx := to_single (vx u - vx v); vy := to_single (vy u - vy v);
       vz := to_single (vz u - vz v) |};
  vec_mul u x := mul_v3_fl u (to_single x);
  vec_div u n := mul_v3_fl u (to_single (1 / to_single (float_of_nat n)));
  vec_length u := PrimFloat.sqrt (dot_v3 u);
  vec_normalized u :=
    if PrimFloat.ltb 1e-35 (dot_v3 u) then
      mul_v3_fl u (to_single (1 / to_single (PrimFloat.sqrt (dot_v3 u))))
    else {| vx := 0; vy := 0; vz := 0 |}
|}%float.

(** A bone with its head at [(x, y, z)] that points along the second axis
    and has the length [len]. *)
Definition edit_bone (x y z : float) (len : float) (p : option BoneId)
    (cs : list BoneId) : EditBone Vec3 :=
  {| eb_head := {| vx := x; vy := y; vz := z |};
     eb_tail := {| vx := x; vy := (y + len)%float; vz := z |};
     eb_roll := 0%float; eb_parent := p; eb_children := cs |}.

(** A root bone, a bone below it and two children of that bone on
    opposite sides of its head. *)
Definition fork_armature : BoneId -> EditBone Vec3 := fun i =>
  match i with
  | 0 => edit_bone 0 (-1) 0 1 None [1]
  | 1 => edit_bone 0 0 0 1 (Some 0) [2; 3]
  | 2 => edit_bone 1 0 0 1 (Some 1) []
  | 3 => edit_bone (-1) 0 0 1 (Some 1) []
  | _ => edit_bone 0 0 0 1 None []
  end.

(** A root bone, a bone below it and two children of that bone at the
    distances 3 and 4 from its head, in directions at a right angle: the
    mean of their heads is at the distance 2.5. *)
Definition spread_armature : BoneId -> EditBone Vec3 := fun i =>
  match i with
  | 0 => edit_bone 0 (-1) 0 1 None [1]
  | 1 => edit_bone 0 0 0 1 (Some 0) [2; 3]
  | 2 => edit_bone 3 0 0 1 (Some 1) []
  | 3 => edit_bone 0 4 0 1 (Some 1) []
  | _ => edit_bone 0 0 0 1 None []
  end.

(** A chain of three bones along one axis. *)
Definition chain_armature : BoneId -> EditBone Vec3 := fun i =>
  match i with
  | 0 => edit_bone 0 0 0 1 None [1]
  | 1 => edit_bone 0 1 0 1 (Some 0) [2]
  | 2 => edit_bone 0 3 0 1 (Some 1) []
  | _ => edit_bone 0 0 0 1 None []
  end.

(** A root bone of length 2 and, below it, a bone whose tail is at its
    head. *)
Definition flat_leaf_armature : BoneId -> EditBone Vec3 := fun i =>
  match i with
  | 0 => edit_bone 0 0 0 2 None [1]
  | 1 => edit_bone 0 2 0 0 (Some 0) []
  | _ => edit_bone 0 0 0 1 None []
  end.

(** * The rest of the importer *)

(** ** Blocks the marking pass calls itself on *)

(** [visited g n x]: started on [n], [mark_armatures_bones] calls itself
    on [x]: [x] is [n], or is reached from [n] through references to
    blocks with a transform. *)
Inductive visited (g : NifGraph) : BlockId -> BlockId -> Prop :=
| visited_here n : visited g n n
| visited_ref n c x :
    c ∈ get_refs (g n) -> is_a g c NiAVObject = true ->
    visited g c x -> visited g n x.

(** The lists of [d'] are the lists of [d] with bones appended. *)
Definition appended (d d' : Dict) : Prop :=
  ∀ r l, d !! r = Some l -> ∃ ext, d' !! r = Some (l ++ ext).

(** [climbs g r b n]: going up from [b], [r] is met first after [n + 1]
    parent links. *)
Inductive climbs (g : NifGraph) (r : BlockId) : BlockId -> nat -> Prop :=
| climbs_parent b :
    _parent (g b) = Some r -> climbs g r b 0
| climbs_step b p n :
    _parent (g b) = Some p -> p ≠ r -> climbs g r p n -> climbs g r b (S n).

(** [orphan g r b n]: going up from [b], a block without parent is met
    after [n] parent links, and [r] is not met. *)
Inductive orphan (g : NifGraph) (r : BlockId) : BlockId -> nat -> Prop :=
| orphan_top b :
    _parent (g b) = None -> orphan g r b 0
| orphan_step b p n :
    _parent (g b) = Some p -> p ≠ r -> orphan g r p n -> orphan g r b (S n).

(** [skin_marked ctx g d s]: the skin instance [s] is marked in [d]: its
    skeleton root is a root of [d]; each of its bones is registered under
    that root, below it, with every block between the two; and the
    eligible blocks of the tree of the root are registered. *)
Definition skin_marked (ctx : NifImport) (g : NifGraph) (d : Dict)
    (s : NiSkinInstance) : Prop :=
  ∃ r, skeleton_root s = Some r
       ∧ is_Some (d !! r)
       ∧ (∀ b, Some b ∈ bones s ->
               registered d r b ∧ ancestor g r b
               ∧ ∀ a, between g r b a -> registered d r a)
       ∧ ∃ depth t, tree g depth r = Ok t
                    ∧ ∀ y, y ∈ t -> y ≠ r -> eligible ctx g y ->
                           registered d r y.

(** ** [import_bone] and the loop of [import_armature] *)

(** [n_block.children]: the children array of a [NiNode], null entries
    included.  The array is a field of [NiNode]; a block of another class
    has no such attribute. *)
Definition n_children (g : NifGraph)
    (children : BlockId -> list (option BlockId)) (n_block : BlockId)
  : Result (list (option BlockId)) :=
  if is_a g n_block NiNode then Ok (children n_block)
  else Raise AttributeError.

(** An edit bone as [import_bone] makes it: the block it stands for and
    the edit bone it is parented to, by its place in [edit_bones].  Its
    name and its head, tail and roll come from functions of the add-on
    defined outside this module ([import_name], [import_matrix],
    [nif_bind_to_blender_bind], [mat3_to_vec_roll]); they are not part of
    this record. *)
Record NewBone : Type := {
  nb_block : BlockId;
  nb_parent : option nat
}.

(** [import_bone]: the state is [b_armature_data.edit_bones], in order of
    creation.  A block that is no bone ends the descent. *)
Fixpoint import_bone (g : NifGraph)
    (children : BlockId -> list (option BlockId)) (d : Dict) (depth : nat)
    (n_block : option BlockId) (b_parent_bone : option nat)
    (edit_bones : list NewBone) : Result (list NewBone) :=
  match depth with
  | 0 => Raise RecursionError
  | S k =>
      if negb (truthy (is_bone d n_block)) then Ok edit_bones
      else
        match n_block with
        | None => Ok edit_bones
        | Some b =>
            let b_edit_bone := length edit_bones in
            let edit_bones1 :=
              edit_bones ++ [{| nb_block := b; nb_parent := b_parent_bone |}]
            in
            n_block_children ← n_children g children b;
            for_each
              (fun bones n_child =>
                 import_bone g children d k n_child (Some b_edit_bone) bones)
              n_block_children edit_bones1
        end
  end.

(** The loop of [import_armature] over the children of the armature
    block, on a new armature. *)
Definition import_armature_bones (g : NifGraph)
    (children : BlockId -> list (option BlockId)) (d : Dict) (depth : nat)
    (n_armature : BlockId) : Result (list NewBone) :=
  n_armature_children ← n_children g children n_armature;
  for_each
    (fun bones n_child => import_bone g children d depth n_child None bones)
    n_armature_children [].

(** [bone_path children d a x]: [x] is reached from [a] through children
    arrays, by blocks that [is_bone] accepts, [x] included. *)
Inductive bone_path (children : BlockId -> list (option BlockId)) (d : Dict)
    (a : BlockId) : BlockId -> Prop :=
| bone_path_child x :
    Some x ∈ children a -> is_bone d (Some x) = PyBool true ->
    bone_path children d a x
| bone_path_step y x :
    bone_path children d a y -> Some x ∈ children y ->
    is_bone d (Some x) = PyBool true -> bone_path children d a x.

(** The children arrays of a sample file: its references. *)
Definition refs_as_children (g : NifGraph) : BlockId -> list (option BlockId) :=
  fun b => Some <$> get_refs (g b).

(** The edit bone [e] at the place [i] of [bones] stands for a bone that
    is a [NiNode], and it is either a bone the call was made for or
    parented to an edit bone made before it, for a block that has its
    block as a child. *)
Definition well_placed (g : NifGraph)
    (children : BlockId -> list (option BlockId)) (d : Dict)
    (top : NewBone -> Prop) (bones : list NewBone)
    (i : nat) (e : NewBone) : Prop :=
  is_bone d (Some (nb_block e)) = PyBool true
  ∧ is_a g (nb_block e) NiNode = true
  ∧ (top e
     ∨ ∃ j e', nb_parent e = Some j ∧ j < i ∧ bones !! j = Some e'
               ∧ Some (nb_block e) ∈ children (nb_block e')).

(** The children of [e] that are bones have an edit bone. *)
Definition children_made (children : BlockId -> list (option BlockId))
    (d : Dict) (bones : list NewBone) (e : NewBone) : Prop :=
  ∀ y, Some y ∈ children (nb_block e) -> is_bone d (Some y) = PyBool true ->
       y ∈ nb_block <$> bones.

(** * The game identifiers of the export operator *)

(** ** [_game_to_enum] *)

(** The characters of a string, in order. *)
Fixpoint chars (s : string) : list ascii :=
  match s with
  | EmptyString => []
  | String c rest => c :: chars rest
  end.

(** [str.upper] on ASCII letters; the names of the games are ASCII. *)
Definition upper_ascii (c : ascii) : ascii :=
  let n := nat_of_ascii c in
  if (97 <=? n)%nat && (n <=? 122)%nat then ascii_of_nat (n - 32) else c.

Fixpoint upper (s : string) : string :=
  match s with
  | EmptyString => EmptyString
  | String c rest => String (upper_ascii c) (upper rest)
  end.

(** The string [symbols] of [_game_to_enum]; its fourth character is the
    double quote. *)
Definition symbols : string :=
  String ":" (String "," (String "'" (String "034" " +-*!?;./="))).

(** ["_" * n]. *)
Fixpoint string_repeat (c : ascii) (n : nat) : string :=
  match n with
  | 0 => EmptyString
  | S n => String c (string_repeat c n)
  end.

(** [str.maketrans(x, y)] for two strings of the same length: the pairs
    of their characters. *)
Fixpoint maketrans (x y : string) : list (ascii * ascii) :=
  match x, y with
  | String a x', String b y' => (a, b) :: maketrans x' y'
  | _, _ => []
  end.

Fixpoint table_get (table : list (ascii * ascii)) (c : ascii)
  : option ascii :=
  match table with
  | [] => None
  | (a, b) :: rest => if bool_decide (a = c) then Some b else table_get rest c
  end.

(** [s.translate(table)]: a character of the table is replaced, any other
    is kept. *)
Fixpoint translate (table : list (ascii * ascii)) (s : string) : string :=
  match s with
  | EmptyString => EmptyString
  | String c rest =>
      String (default c (table_get table c)) (translate table rest)
  end.

Definition is_underscore (c : ascii) : bool := bool_decide (c = "_"%char).

(** [s.replace("__", "_")]: one pass from the left over the occurrences
    that do not overlap. *)
Fixpoint replace_double_underscore (s : string) : string :=
  match s with
  | EmptyString => EmptyString
  | String c rest =>
      match rest with
      | EmptyString => String c EmptyString
      | String c' rest' =>
          if is_underscore c && is_underscore c'
          then String "_" (replace_double_underscore rest')
          else String c (replace_double_underscore rest)
      end
  end.

Definition _game_to_enum (game : string) : string :=
  let table :=
    maketrans symbols (string_repeat "_" (String.length symbols)) in
  replace_double_underscore (translate table (upper game)).

(** A character of [symbols]. *)
Definition is_symbol (c : ascii) : bool := bool_decide (c ∈ chars symbols).

(** A character that ends up as an underscore. *)
Definition is_separator (c : ascii) : bool := is_symbol c || is_underscore c.

(** The length of the longest run of characters that satisfy [P], the run
    that ends where the string starts, of length [cur], included. *)
Fixpoint longest_run (P : ascii -> bool) (s : string) (cur : nat) : nat :=
  match s with
  | EmptyString => cur
  | String c rest =>
      if P c then longest_run P rest (S cur)
      else Nat.max cur (longest_run P rest 0)
  end.

(** * Collision shapes

    A shallow embedding of
    [io_scene_nif/modules/collision/collision_import.py]. *)

(** ** Exceptions and results *)

(** The exceptions of the collision importer: three built-in ones and
    those of the armature importer. *)
Inductive CollisionExc : Type :=
| TypeError (msg : string)
| ValueError (msg : string)
| NameError (name : string)
| Builtin (e : Exc).

Inductive Outcome (A : Type) : Type :=
| Return (a : A)
| Throw (e : CollisionExc).
Arguments Return {A} a.
Arguments Throw {A} e.

Definition obind {A B} (m : Outcome A) (k : A -> Outcome B) : Outcome B :=
  match m with
  | Return a => k a
  | Throw e => Throw e
  end.

Global Instance Outcome_bind : MBind Outcome := fun A B k m => obind m k.

(** A [for] loop whose body threads a state and may raise. *)
Fixpoint for_each_outcome {S A} (body : S -> A -> Outcome S) (xs : list A)
    (s : S) : Outcome S :=
  match xs with
  | [] => Return s
  | x :: rest => s' ← body s x; for_each_outcome body rest s'
  end.

(** A list built by a loop whose body may raise. *)
Fixpoint collect_outcome {A B} (f : A -> Outcome B) (xs : list A)
  : Outcome (list B) :=
  match xs with
  | [] => Return []
  | x :: rest => y ← f x; ys ← collect_outcome f rest; Return (y :: ys)
  end.

(** ** Meshes and objects of the host *)

Abbreviation Vert := (float * float * float)%type (only parsing).

(** A mesh made by [from_pydata], and an object of the host scene with
    its mesh, as the collision importer sets it up.  An attribute the importer has not set is [None]; the
    transform [matrix_local] and the settings of the rigid body other than
    its mass are not part of this record. *)
Record B_Mesh : Type := {
  me_name : string;
  me_verts : list Vert;
  me_faces : list (list Z)
}.

Record B_CollisionObject : Type := {
  ob_name : string;
  ob_data : B_Mesh;
  ob_draw_type : option string;
  ob_draw_bounds_type : option string;
  ob_use_collision_bounds : bool;
  ob_collision_bounds_type : option string;
  ob_radius : option float;
  ob_havok_material : option nat;
  ob_location_y : option float;
  ob_mass : option float
}.

(** The importer [bhkshape_import] and what it reaches: its attributes
    [HAVOK_SCALE] and [havok_mat] (unset until a strips shape is met), the
    objects of the scene in the order of their creation, and
    [nif_import.dict_havok_objects], keyed by the block of a rigid
    body.  An object is named by its place in [scene_objects]. *)
Record BhkImport : Type := {
  HAVOK_SCALE : float;
  havok_mat : option nat;
  scene_objects : list B_CollisionObject;
  dict_havok_objects : gmap nat (list nat)
}.

(** What the importer reads from [nif_import] and from the libraries:
    [norm] is [Vector3.norm] of the format library and [qhull3d] its
    convex hull. *)
Record NifData : Type := {
  nif_HAVOK_SCALE : float;
  user_version : Z;
  user_version_2 : Z;
  norm : Vec3 -> float;
  qhull3d : list Vert -> list Vert * list (list Z)
}.

(** ** The blocks of a collision tree *)

Record SubShape : Type := {
  num_vertices : nat;
  sub_material : nat
}.

Record hkPackedNiTriStripsData : Type := {
  data_sub_shapes : list SubShape;
  data_vertices : list Vec3;
  data_triangles : list (Z * Z * Z)
}.

Set Warnings "-register-all".

(** The classes [import_bhk_shape] tells apart, each with the attributes
    the importer reads.  A class stands for its subclasses; [OtherObject]
    is any other object, [None] included. *)
Inductive BhkShape : Type :=
| bhkTransformShape (shape : BhkShape)
| bhkRigidBody (block : BlockId) (shape : BhkShape) (mass : float)
| bhkBoxShape (dimensions : Vec3) (radius : float) (material : nat)
| bhkSphereShape (radius : float) (material : nat)
| bhkCapsuleShape (first_point second_point : Vec3) (radius : float)
    (material : nat)
| bhkConvexVerticesShape (vertices : list Vec3) (radius : float)
    (material : nat)
| bhkPackedNiTriStripsShape (sub_shapes : list SubShape)
    (data : option hkPackedNiTriStripsData)
| bhkNiTriStripsShape (material : nat) (strips_data : list BhkShape)
| NiTriStripsData (vertices : list Vec3) (triangles : list (Z * Z * Z))
    (radius : float)
| bhkMoppBvTreeShape (shape : BhkShape)
| bhkListShape (sub_shapes : list BhkShape)
| OtherObject.

(** ** Module functions *)

(** [create_ob]: the new object is the last of the scene. *)
Definition create_ob (ob_name : string) (ob_data : B_Mesh)
    (self : BhkImport) : nat * BhkImport :=
  let ob :=
    {| ob_name := ob_name; ob_data := ob_data;
       ob_draw_type := None; ob_draw_bounds_type := None;
       ob_use_collision_bounds := false; ob_collision_bounds_type := None;
       ob_radius := None; ob_havok_material := None;
       ob_location_y := None; ob_mass := None |} in
  (length (scene_objects self),
   {| HAVOK_SCALE := HAVOK_SCALE self; havok_mat := havok_mat self;
      scene_objects := scene_objects self ++ [ob];
      dict_havok_objects := dict_havok_objects self |}).

(** An assignment to attributes of the object [b_obj]. *)
Definition update_ob (f : B_CollisionObject -> B_CollisionObject)
    (b_obj : nat) (self : BhkImport) : BhkImport :=
  {| HAVOK_SCALE := HAVOK_SCALE self; havok_mat := havok_mat self;
     scene_objects := alter f b_obj (scene_objects self);
     dict_havok_objects := dict_havok_objects self |}.

Definition set_draw_type (draw_type : string) (ob : B_CollisionObject)
  : B_CollisionObject :=
  {| ob_name := ob_name ob; ob_data := ob_data ob;
     ob_draw_type := Some draw_type;
     ob_draw_bounds_type := ob_draw_bounds_type ob;
     ob_use_collision_bounds := ob_use_collision_bounds ob;
     ob_collision_bounds_type := ob_collision_bounds_type ob;
     ob_radius := ob_radius ob; ob_havok_material := ob_havok_material ob;
     ob_location_y := ob_location_y ob; ob_mass := ob_mass ob |}.

Definition mesh_from_data (name : string) (verts : list Vert)
    (faces : list (list Z)) (wireframe : bool) (self : BhkImport)
  : nat * BhkImport :=
  let me := {| me_name := name; me_verts := verts; me_faces := faces |} in
  let (ob, self) := create_ob name me self in
  (ob, if wireframe then update_ob (set_draw_type "WIRE") ob self else self).

Definition box_verts (minx maxx miny maxy minz maxz : float) : list Vert :=
  x ← [minx; maxx]; y ← [miny; maxy]; z ← [minz; maxz]; [(x, y, z)].

Definition box_faces : list (list Z) :=
  [[0; 1; 3; 2]; [6; 7; 5; 4]; [0; 2; 6; 4]; [3; 1; 5; 7]; [4; 5; 1; 0];
   [7; 6; 2; 3]]%Z.

Definition box_from_extents (b_name : string)
    (minx maxx miny maxy minz maxz : float) (self : BhkImport)
  : nat * BhkImport :=
  mesh_from_data b_name (box_verts minx maxx miny maxy minz maxz) box_faces
    true self.

(** ** The class [bhkshape_import] *)

(** The assignments under [# set bounds type] of a shape importer, up to
    the radius. *)
Definition set_bounds (draw_type draw_bounds_type collision_bounds_type
    : string) (radius : float) (ob : B_CollisionObject)
  : B_CollisionObject :=
  {| ob_name := ob_name ob; ob_data := ob_data ob;
     ob_draw_type := Some draw_type;
     ob_draw_bounds_type := Some draw_bounds_type;
     ob_use_collision_bounds := true;
     ob_collision_bounds_type := Some collision_bounds_type;
     ob_radius := Some radius; ob_havok_material := ob_havok_material ob;
     ob_location_y := ob_location_y ob; ob_mass := ob_mass ob |}.

(** [b_obj.nifcollision.havok_material = ..._enumkeys[material]]; the
    material is kept as its number. *)
Definition set_havok_material (material : nat) (ob : B_CollisionObject)
  : B_CollisionObject :=
  {| ob_name := ob_name ob; ob_data := ob_data ob;
     ob_draw_type := ob_draw_type ob;
     ob_draw_bounds_type := ob_draw_bounds_type ob;
     ob_use_collision_bounds := ob_use_collision_bounds ob;
     ob_collision_bounds_type := ob_collision_bounds_type ob;
     ob_radius := ob_radius ob; ob_havok_material := Some material;
     ob_location_y := ob_location_y ob; ob_mass := ob_mass ob |}.

Definition set_location_y (y : float) (ob : B_CollisionObject)
  : B_CollisionObject :=
  {| ob_name := ob_name ob; ob_data := ob_data ob;
     ob_draw_type := ob_draw_type ob;
     ob_draw_bounds_type := ob_draw_bounds_type ob;
     ob_use_collision_bounds := ob_use_collision_bounds ob;
     ob_collision_bounds_type := ob_collision_bounds_type ob;
     ob_radius := ob_radius ob; ob_havok_material := ob_havok_material ob;
     ob_location_y := Some y; ob_mass := ob_mass ob |}.

(** [b_col_obj.rigid_body.mass = x]. *)
Definition set_mass (x : float) (ob : B_CollisionObject)
  : B_CollisionObject :=
  {| ob_name := ob_name ob; ob_data := ob_data ob;
     ob_draw_type := ob_draw_type ob;
     ob_draw_bounds_type := ob_draw_bounds_type ob;
     ob_use_collision_bounds := ob_use_collision_bounds ob;
     ob_collision_bounds_type := ob_collision_bounds_type ob;
     ob_radius := ob_radius ob; ob_havok_material := ob_havok_material ob;
     ob_location_y := ob_location_y ob; ob_mass := Some x |}.

Definition set_HAVOK_SCALE (x : float) (self : BhkImport) : BhkImport :=
  {| HAVOK_SCALE := x; havok_mat := havok_mat self;
     scene_objects := scene_objects self;
     dict_havok_objects := dict_havok_objects self |}.

Definition set_havok_mat (material : nat) (self : BhkImport) : BhkImport :=
  {| HAVOK_SCALE := HAVOK_SCALE self; havok_mat := Some material;
     scene_objects := scene_objects self;
     dict_havok_objects := dict_havok_objects self |}.

(** [self.nif_import.dict_havok_objects[bhkshape] = collision_objs]. *)
Definition set_havok_objects (block : BlockId) (collision_objs : list nat)
    (self : BhkImport) : BhkImport :=
  {| HAVOK_SCALE := HAVOK_SCALE self; havok_mat := havok_mat self;
     scene_objects := scene_objects self;
     dict_havok_objects := <[block := collision_objs]>
                             (dict_havok_objects self) |}.

Definition import_bhkbox_shape (dimensions : Vec3) (radius : float)
    (material : nat) (self : BhkImport) : list nat * BhkImport :=
  let minx := (- vx dimensions * HAVOK_SCALE self)%float in
  let maxx := (vx dimensions * HAVOK_SCALE self)%float in
  let miny := (- vy dimensions * HAVOK_SCALE self)%float in
  let maxy := (vy dimensions * HAVOK_SCALE self)%float in
  let minz := (- vz dimensions * HAVOK_SCALE self)%float in
  let maxz := (vz dimensions * HAVOK_SCALE self)%float in
  let (b_obj, self) :=
    box_from_extents "box" minx maxx miny maxy minz maxz self in
  let self := update_ob (set_bounds "WIRE" "BOX" "BOX" radius) b_obj self in
  let self := update_ob (set_havok_material material) b_obj self in
  ([b_obj], self).

Definition import_bhksphere_shape (radius : float) (material : nat)
    (self : BhkImport) : list nat * BhkImport :=
  let b_radius := (radius * HAVOK_SCALE self)%float in
  let (b_obj, self) :=
    box_from_extents "sphere" (- b_radius) b_radius (- b_radius) b_radius
      (- b_radius) b_radius self in
  let self :=
    update_ob (set_bounds "WIRE" "SPHERE" "SPHERE" radius) b_obj self in
  let self := update_ob (set_havok_material material) b_obj self in
  ([b_obj], self).

(** [Vector3.__sub__] of the format library. *)
Definition vector3_sub (a b : Vec3) : Vec3 :=
  {| vx := vx a - vx b; vy := vy a - vy b; vz := vz a - vz b |}%float.

Definition import_bhkcapsule_shape (ctx : NifData)
    (first_point second_point : Vec3) (radius : float) (material : nat)
    (self : BhkImport) : list nat * BhkImport :=
  let b_radius := radius in
  let len := norm ctx (vector3_sub first_point second_point) in
  let minx := (- b_radius * HAVOK_SCALE self)%float in
  let miny := minx in
  let maxx := (b_radius * HAVOK_SCALE self)%float in
  let maxy := maxx in
  let minz := (- (len + 2 * b_radius) * (HAVOK_SCALE self / 2))%float in
  let maxz := ((len + 2 * b_radius) * (HAVOK_SCALE self / 2))%float in
  let (b_obj, self) :=
    box_from_extents "capsule" minx maxx miny maxy minz maxz self in
  let self :=
    update_ob
      (set_bounds "BOUNDS" "CAPSULE" "CAPSULE" (radius * HAVOK_SCALE self))
      b_obj self in
  let self := update_ob (set_havok_material material) b_obj self in
  let self :=
    update_ob (set_location_y (len / 2 * HAVOK_SCALE self)) b_obj self in
  ([b_obj], self).

Definition import_bhkconvex_vertices_shape (ctx : NifData)
    (vertices : list Vec3) (radius : float) (material : nat)
    (self : BhkImport) : list nat * BhkImport :=
  let (verts, faces) :=
    qhull3d ctx
      ((fun n_vert =>
          (HAVOK_SCALE self * vx n_vert, HAVOK_SCALE self * vy n_vert,
           HAVOK_SCALE self * vz n_vert)%float) <$> vertices) in
  let (b_obj, self) := mesh_from_data "convexpoly" verts faces true self in
  let self :=
    update_ob (set_bounds "WIRE" "BOX" "CONVEX_HULL" radius) b_obj self in
  let self := update_ob (set_havok_material material) b_obj self in
  ([b_obj], self).

Definition triangle (t : Z * Z * Z) : list Z := [t.1.1; t.1.2; t.2].

(** [import_nitristrips]: the material is read from [self.havok_mat],
    which no [__init__] sets. *)
Definition import_nitristrips (vertices : list Vec3)
    (triangles : list (Z * Z * Z)) (radius : float) (self : BhkImport)
  : Outcome (list nat * BhkImport) :=
  let verts := (fun v => (vx v, vy v, vz v)) <$> vertices in
  let faces := triangle <$> triangles in
  let (b_obj, self) := mesh_from_data "poly" verts faces true self in
  let self :=
    update_ob (set_bounds "WIRE" "BOX" "TRIANGLE_MESH" radius) b_obj self in
  match havok_mat self with
  | None => Throw (Builtin AttributeError)
  | Some material =>
      Return ([b_obj], update_ob (set_havok_material material) b_obj self)
  end.

(** The body of the loop of [import_bhkpackednitristrips_shape] over the
    sub-shapes; the state is [vertex_offset], [hk_objects] and the
    importer.  The radius is computed from [b_mesh], a name that nothing
    binds. *)
Definition import_sub_shape (data : option hkPackedNiTriStripsData)
    (st : nat * list nat * BhkImport) (item : nat * SubShape)
  : Outcome (nat * list nat * BhkImport) :=
  let '(vertex_offset, hk_objects, self) := st in
  let (subshape_num, subshape) := item in
  verts ← collect_outcome
             (fun vert_index =>
                match data with
                | None => Throw (Builtin AttributeError)
                | Some data =>
                    match data_vertices data !! vert_index with
                    | None => Throw (Builtin IndexError)
                    | Some n_vert =>
                        Return (vx n_vert * HAVOK_SCALE self,
                                vy n_vert * HAVOK_SCALE self,
                                vz n_vert * HAVOK_SCALE self)%float
                    end
                end)
             (seq vertex_offset (num_vertices subshape));
  triangles ← match data with
              | None => Throw (Builtin AttributeError)
              | Some data => Return (data_triangles data)
              end;
  let faces :=
    (fun t : Z * Z * Z =>
       [t.1.1 - Z.of_nat vertex_offset; t.1.2 - Z.of_nat vertex_offset;
        t.2 - Z.of_nat vertex_offset]%Z)
    <$> filter (fun t : Z * Z * Z =>
                  (Z.of_nat vertex_offset ≤ t.1.1
                   ∧ t.1.1 < Z.of_nat vertex_offset
                             + Z.of_nat (num_vertices subshape))%Z)
          triangles in
  let (b_obj, self) :=
    mesh_from_data ("poly" +:+ pretty subshape_num) verts faces true self in
  radius ← (Throw (NameError "b_mesh") : Outcome float);
  let self :=
    update_ob (set_bounds "WIRE" "BOX" "TRIANGLE_MESH" radius) b_obj self in
  let self :=
    update_ob (set_havok_material (sub_material subshape)) b_obj self in
  Return (vertex_offset + num_vertices subshape, hk_objects ++ [b_obj], self).

Definition import_bhkpackednitristrips_shape (sub_shapes : list SubShape)
    (data : option hkPackedNiTriStripsData) (self : BhkImport)
  : Outcome (list nat * BhkImport) :=
  subshapes ← match sub_shapes with
              | [] =>
                  match data with
                  | None => Throw (Builtin AttributeError)
                  | Some data => Return (data_sub_shapes data)
                  end
              | _ => Return sub_shapes
              end;
  st ← for_each_outcome (import_sub_shape data)
         (imap (fun subshape_num subshape => (subshape_num, subshape))
            subshapes)
         (0, [], self);
  Return (st.1.2, st.2).

(** [reduce(operator.add, (f(x) for x in xs))]: the lists of the calls,
    joined; on an empty sequence [reduce] raises. *)
Definition reduce_add
    (f : BhkShape -> BhkImport -> Outcome (list nat * BhkImport))
    (xs : list BhkShape) (self : BhkImport)
  : Outcome (list nat * BhkImport) :=
  match xs with
  | [] => Throw (TypeError "reduce() of empty sequence with no initial value")
  | x :: rest =>
      first ← f x self;
      for_each_outcome
        (fun (acc : list nat * BhkImport) y =>
           r ← f y acc.2; Return (acc.1 ++ r.1, r.2))
        rest first
  end.

(** [import_bhktransform]; the transform it applies to each object is not
    part of the model. *)
Definition import_bhktransform
    (import_bhk_shape : BhkShape -> BhkImport -> Outcome (list nat * BhkImport))
    (shape : BhkShape) (self : BhkImport) : Outcome (list nat * BhkImport) :=
  import_bhk_shape shape self.

(** The body of the loop of [import_bhkridgidbody] that sets the physics
    flags and the mass. *)
Definition set_rigid_body (mass : float) (collision_objs : list nat)
    (self : BhkImport) (b_col_obj : nat) : BhkImport :=
  let self :=
    if PrimFloat.ltb 0.0001 mass then
      update_ob
        (set_mass (mass / float_of_nat (length collision_objs))) b_col_obj
        self
    else self in
  update_ob (set_mass (mass / float_of_nat (length collision_objs)))
    b_col_obj self.

Definition import_bhkridgidbody
    (import_bhk_shape : BhkShape -> BhkImport -> Outcome (list nat * BhkImport))
    (block : BlockId) (shape : BhkShape) (mass : float) (self : BhkImport)
  : Outcome (list nat * BhkImport) :=
  r ← import_bhk_shape shape self;
  let collision_objs := r.1 in
  let self := foldl (set_rigid_body mass collision_objs) r.2 collision_objs in
  let self := set_havok_objects block collision_objs self in
  Return (collision_objs, self).

Fixpoint import_bhk_shape (ctx : NifData) (depth : nat) (bhkshape : BhkShape)
    (self : BhkImport) : Outcome (list nat * BhkImport) :=
  match depth with
  | 0 => Throw (Builtin RecursionError)
  | S k =>
      let self :=
        if bool_decide (user_version ctx = 12%Z) then
          if bool_decide (user_version_2 ctx = 83%Z)
          then set_HAVOK_SCALE (nif_HAVOK_SCALE ctx * 10) self
          else set_HAVOK_SCALE (nif_HAVOK_SCALE ctx) self
        else self in
      match bhkshape with
      | bhkTransformShape shape =>
          import_bhktransform (import_bhk_shape ctx k) shape self
      | bhkRigidBody block shape mass =>
          import_bhkridgidbody (import_bhk_shape ctx k) block shape mass self
      | bhkBoxShape dimensions radius material =>
          Return (import_bhkbox_shape dimensions radius material self)
      | bhkSphereShape radius material =>
          Return (import_bhksphere_shape radius material self)
      | bhkCapsuleShape first_point second_point radius material =>
          Return (import_bhkcapsule_shape ctx first_point second_point radius
                    material self)
      | bhkConvexVerticesShape vertices radius material =>
          Return (import_bhkconvex_vertices_shape ctx vertices radius material
                    self)
      | bhkPackedNiTriStripsShape sub_shapes data =>
          import_bhkpackednitristrips_shape sub_shapes data self
      | bhkNiTriStripsShape material strips_data =>
          reduce_add (import_bhk_shape ctx k) strips_data
            (set_havok_mat material self)
      | NiTriStripsData vertices triangles radius =>
          import_nitristrips vertices triangles radius self
      | bhkMoppBvTreeShape shape => import_bhk_shape ctx k shape self
      | bhkListShape sub_shapes =>
          reduce_add (import_bhk_shape ctx k) sub_shapes self
      | OtherObject => Return ([], self)
      end
  end.

(** [created objs self self']: the scene of [self'] is the scene of [self]
    with new objects at its end, and [objs] names the new objects, each
    once, in the order of their creation. *)
Definition created (objs : list nat) (self self' : BhkImport) : Prop :=
  ∃ new, scene_objects self' = scene_objects self ++ new
         ∧ objs = seq (length (scene_objects self)) (length new).

(** ** A sample collision tree *)

(** [bhkshape_import.__init__]: the scale of the importer is the scale of
    [nif_import]; [havok_mat] is not set. *)
Definition bhkshape_import_init (ctx : NifData) : BhkImport :=
  {| HAVOK_SCALE := nif_HAVOK_SCALE ctx; havok_mat := None;
     scene_objects := []; dict_havok_objects := ∅ |}.

Definition sample_nif : NifData :=
  {| nif_HAVOK_SCALE := 7; user_version := 11; user_version_2 := 34;
     norm := fun v => PrimFloat.sqrt (vx v * vx v + vy v * vy v + vz v * vz v);
     qhull3d := fun verts => (verts, []) |}%float.

(** A list of a box and a transformed sphere, and a rigid body of mass 10
    over it. *)
Definition sample_shapes : BhkShape :=
  bhkListShape
    [bhkBoxShape {| vx := 1; vy := 2; vz := 3 |} 0.1 0;
     bhkTransformShape (bhkSphereShape 0.5 2)].

Definition sample_body : BhkShape := bhkRigidBody 5 sample_shapes 10.

(** The scene after the import of [sample_body]. *)
Definition sample_scene : BhkImport :=
  match import_bhk_shape sample_nif 5 sample_body
          (bhkshape_import_init sample_nif) with
  | Return r => r.2
  | Throw _ => bhkshape_import_init sample_nif
  end.

(** A packed shape with one sub-shape of three vertices and a
    triangle. *)
Definition sample_sub_shape : SubShape :=
  {| num_vertices := 3; sub_material := 0 |}.

Definition sample_packed_data : hkPackedNiTriStripsData :=
  {| data_sub_shapes := [];
     data_vertices := [{| vx := 0; vy := 0; vz := 0 |};
                       {| vx := 1; vy := 0; vz := 0 |};
                       {| vx := 0; vy := 1; vz := 0 |}];
     data_triangles := [(0, 1, 2)%Z] |}.

Definition sample_packed : BhkShape :=
  bhkPackedNiTriStripsShape [sample_sub_shape] (Some sample_packed_data).

(** The coordinate of a vertex along an axis. *)
Definition coordinate (axis : nat) (v : Vert) : float :=
  match axis with
  | 0 => v.1.1
  | 1 => v.1.2
  | _ => v.2
  end.


(** ** Trees that can be imported *)

(** The height of a collision tree: the depth of calls its import
    needs. *)
Fixpoint height (bhkshape : BhkShape) : nat :=
  match bhkshape with
  | bhkTransformShape shape => S (height shape)
  | bhkRigidBody _ shape _ => S (height shape)
  | bhkMoppBvTreeShape shape => S (height shape)
  | bhkNiTriStripsShape _ strips_data =>
      S (foldr (fun x n => Nat.max (height x) n) 0 strips_data)
  | bhkListShape sub_shapes =>
      S (foldr (fun x n => Nat.max (height x) n) 0 sub_shapes)
  | _ => 1
  end.

(** [importable_all f xs mat]: every shape of [xs] passes [f], from left
    to right; the flag says whether [havok_mat] is set. *)
Definition importable_all (f : BhkShape -> bool -> option bool)
  : list BhkShape -> bool -> option bool :=
  fix go xs mat :=
    match xs with
    | [] => Some mat
    | x :: rest =>
        match f x mat with
        | Some mat' => go rest mat'
        | None => None
        end
    end.

(** [importable bhkshape mat]: the tree has no list without shapes and no
    strips shape without strips, its packed shapes have no sub-shape, and
    strips data come only once [havok_mat] is set, which a strips shape
    does.  The result says whether [havok_mat] is set afterwards. *)
Fixpoint importable (bhkshape : BhkShape) (mat : bool) : option bool :=
  match bhkshape with
  | bhkTransformShape shape => importable shape mat
  | bhkRigidBody _ shape _ => importable shape mat
  | bhkMoppBvTreeShape shape => importable shape mat
  | bhkPackedNiTriStripsShape sub_shapes data =>
      match sub_shapes, data with
      | [], Some d =>
          match data_sub_shapes d with
          | [] => Some mat
          | _ => None
          end
      | _, _ => None
      end
  | bhkNiTriStripsShape _ strips_data =>
      match strips_data with
      | [] => None
      | _ => importable_all importable strips_data true
      end
  | NiTriStripsData _ _ _ => if mat then Some true else None
  | bhkListShape sub_shapes =>
      match sub_shapes with
      | [] => None
      | _ => importable_all importable sub_shapes mat
      end
  | _ => Some mat
  end.

(** Whether [havok_mat] is set. *)
Definition has_havok_mat (self : BhkImport) : bool :=
  bool_decide (is_Some (havok_mat self)).

(** A strips shape with its strips data, and strips data on their own. *)
Definition sample_strips : BhkShape :=
  bhkNiTriStripsShape 3
    [NiTriStripsData [{| vx := 0; vy := 0; vz := 0 |};
                      {| vx := 1; vy := 0; vz := 0 |};
                      {| vx := 0; vy := 1; vz := 0 |}] [(0, 1, 2)%Z] 1].

Definition sample_strips_data : BhkShape :=
  NiTriStripsData [] [] 1.

(** What a call of the importer does on a shape agrees with
    [importable]. *)
Definition agrees
    (f : BhkShape -> BhkImport -> Outcome (list nat * BhkImport))
    (x : BhkShape) : Prop :=
  ∀ self,
    match importable x (has_havok_mat self) with
    | Some mat' =>
        ∃ objs self', f x self = Return (objs, self')
                      ∧ has_havok_mat self' = mat'
    | None => ∃ e, f x self = Throw e
    end.

(** ** Files on which the pass returns *)

(** The parent links go up a rank. *)
Definition parents_ranked (g : NifGraph) (rank : BlockId -> nat) : Prop :=
  ∀ x p, _parent (g x) = Some p -> rank x < rank p.

(** The skin of every shape names its skeleton root, and its bones are
    below that root. *)
Definition skins_below_root (g : NifGraph) : Prop :=
  ∀ x s, is_a g x NiTriBasedGeom = true -> skin_instance (g x) = Some s ->
         ∃ r, skeleton_root s = Some r
              ∧ ∀ b, Some b ∈ bones s -> ancestor g r b.

(** The rank of a block of the sample files: the height of the tree below
    it, at most 3. *)
Definition sample_rank (g : NifGraph) : BlockId -> nat :=
  fun b =>
    let step (h : BlockId -> nat) :=
      fun x => foldr (fun c n => Nat.max (S (h c)) n) 0 (get_refs (g x)) in
    step (step (step (fun _ => 0))) b.

(** * Properties *)

(** ** Results and loops *)

Lemma rbind_ok {A B} (m : Result A) (k : A -> Result B) (b : B) :
  (x ← m; k x) = Ok b -> ∃ a, m = Ok a ∧ k a = Ok b.
Proof. destruct m as [a|e]; simpl; [eauto | discriminate]. Qed.

Tactic Notation "inv_bind" hyp(H) "as" ident(a) ident(Ha) :=
  apply rbind_ok in H; destruct H as (a & Ha & H).

Tactic Notation "inv_bind" hyp(H) :=
  let a := fresh "v" in
  let Ha := fresh "Hv" in
  apply rbind_ok in H; destruct H as (a & Ha & H).

Lemma for_each_preserves {S A} (P : S -> Prop) (body : S -> A -> Result S)
    (xs : list A) :
  (∀ s x s', x ∈ xs -> P s -> body s x = Ok s' -> P s') ->
  ∀ s s', P s -> for_each body xs s = Ok s' -> P s'.
Proof.
  induction xs as [|x xs IH]; intros Hbody s s' HP Hrun; simpl in Hrun.
  - by (inversion Hrun; subst).
  - inv_bind Hrun. eapply IH; [| |exact Hrun].
    + intros ? y ? Hy. apply Hbody. by right.
    + eapply Hbody; [left | exact HP | exact Hv].
Qed.

Lemma for_each_total {S A} (P : S -> Prop) (body : S -> A -> Result S)
    (xs : list A) :
  (∀ s x, x ∈ xs -> P s -> ∃ s', body s x = Ok s' ∧ P s') ->
  ∀ s, P s -> ∃ s', for_each body xs s = Ok s' ∧ P s'.
Proof.
  induction xs as [|x xs IH]; intros Hbody s HP; simpl.
  - eauto.
  - destruct (Hbody s x) as (s1 & Hs1 & HP1); [left | done |].
    rewrite Hs1. simpl. apply IH; [|done].
    intros ? y Hy. apply Hbody. by right.
Qed.

Lemma collect_Forall2 {A B} (f : A -> Result B) xs ys :
  collect f xs = Ok ys -> Forall2 (fun x y => f x = Ok y) xs ys.
Proof.
  revert ys. induction xs as [|x xs IH]; intros ys H; simpl in H.
  - inversion H. constructor.
  - inv_bind H. inv_bind H. inversion H; subst. constructor; auto.
Qed.

Lemma collect_total {A B} (f : A -> Result B) xs :
  (∀ x, x ∈ xs -> ∃ y, f x = Ok y) -> ∃ ys, collect f xs = Ok ys.
Proof.
  induction xs as [|x xs IH]; intros H; simpl; [eauto|].
  destruct (H x) as [y Hy]; [left|]. rewrite Hy. simpl.
  destruct IH as [ys Hys]; [intros; apply H; by right|].
  rewrite Hys. simpl. eauto.
Qed.

Lemma elem_of_concat {A} (x : A) (ls : list (list A)) :
  x ∈ concat ls ↔ ∃ l, x ∈ l ∧ l ∈ ls.
Proof.
  induction ls as [|l ls IH]; simpl.
  - split; [by intros ?%elem_of_nil | by intros (? & _ & ?%elem_of_nil)].
  - rewrite elem_of_app, IH. split.
    + intros [?|(l' & ? & ?)]; [exists l | exists l']; split; auto;
        [left | by right].
    + intros (l' & Hx & [->|?]%elem_of_cons); eauto.
Qed.

(** ** The traversal [tree] *)

Lemma tree_unfold g k b t :
  tree g (S k) b = Ok t ->
  ∃ subs, Forall2 (fun c s => tree g k c = Ok s) (get_refs (g b)) subs
          ∧ t = b :: concat subs.
Proof.
  simpl. intros H. inv_bind H. inversion H; subst.
  eauto using collect_Forall2.
Qed.

Lemma tree_elem_inv g k b t x :
  tree g (S k) b = Ok t -> x ∈ t ->
  x = b ∨ ∃ c s, c ∈ get_refs (g b) ∧ tree g k c = Ok s ∧ x ∈ s.
Proof.
  intros Ht Hx. apply tree_unfold in Ht as (subs & Hall & ->).
  apply elem_of_cons in Hx as [->|Hx]; [by left|right].
  apply elem_of_concat in Hx as (s & Hxs & Hs).
  apply list_elem_of_lookup in Hs as [i Hi].
  destruct (Forall2_lookup_r _ _ _ _ _ Hall Hi) as (c & Hc & Hcs).
  exists c, s. split_and!; [|done..].
  apply list_elem_of_lookup. eauto.
Qed.

Lemma tree_root g k b t : tree g k b = Ok t -> b ∈ t.
Proof.
  destruct k; [discriminate|]. intros H.
  apply tree_unfold in H as (? & _ & ->). left.
Qed.

(** With parents set, the [NiNode]s of a tree other than its root have the
    root among their ancestors. *)
Lemma tree_ancestor g k r t x :
  parents_set g -> tree g k r = Ok t -> x ∈ t -> is_a g x NiNode = true ->
  x = r ∨ (ancestor g r x ∧ is_a g r NiNode = true).
Proof.
  intros Hwf. revert r t. induction k as [|k IH]; intros r t Ht Hx Hnode.
  - discriminate.
  - destruct (tree_elem_inv _ _ _ _ _ Ht Hx) as [->|(c & s & Hc & Hs & Hxs)];
      [by left|right].
    destruct (IH _ _ Hs Hxs Hnode) as [->|[Hanc Hcn]].
    + destruct (Hwf _ _ Hc Hnode) as [Hp Hr]. split; [|done].
      by apply ancestor_parent.
    + destruct (Hwf _ _ Hc Hcn) as [Hp Hr]. split; [|done].
      clear -Hanc Hp. induction Hanc.
      * eapply ancestor_step; [eassumption|]. by apply ancestor_parent.
      * eapply ancestor_step; eauto.
Qed.

(** With parents set, the parent of a [NiNode] of a tree other than the
    root is in the tree. *)
Lemma tree_parent_closed g k r t x :
  parents_set g -> tree g k r = Ok t -> x ∈ t -> is_a g x NiNode = true ->
  x ≠ r ->
  ∃ p, _parent (g x) = Some p ∧ p ∈ t ∧ is_a g p NiNode = true.
Proof.
  intros Hwf. revert r t. induction k as [|k IH]; intros r t Ht Hx Hnode Hne.
  - discriminate.
  - destruct (tree_elem_inv _ _ _ _ _ Ht Hx) as [->|(c & s & Hc & Hs & Hxs)];
      [done|].
    assert (Hsub : ∀ y, y ∈ s -> y ∈ t).
    { intros y Hy. apply tree_unfold in Ht as (subs & Hall & ->).
      right. apply elem_of_concat. exists s. split; [done|].
      apply list_elem_of_lookup in Hc as [i Hi].
      destruct (Forall2_lookup_l _ _ _ _ _ Hall Hi) as (s' & Hs' & Hts).
      rewrite Hs in Hts. inversion Hts; subst.
      apply list_elem_of_lookup. eauto. }
    destruct (decide (x = c)) as [->|Hxc].
    + destruct (Hwf _ _ Hc Hnode) as [Hp Hr]. exists r. split_and!; [done| |done].
      eapply tree_root; eauto.
    + destruct (IH _ _ Hs Hxs Hnode Hxc) as (p & Hp & Hps & Hpn).
      exists p. split_and!; auto.
Qed.

Lemma tree_between_closed g k r t x a :
  parents_set g -> tree g k r = Ok t -> x ∈ t -> is_a g x NiNode = true ->
  x ≠ r -> between g r x a -> a ∈ t ∧ a ≠ r.
Proof.
  intros Hwf Ht Hx Hnode Hne Hb. induction Hb as [b p Hp Hpr|b p a Hp Hpr Hb IH].
  - destruct (tree_parent_closed _ _ _ _ _ Hwf Ht Hx Hnode Hne)
      as (p' & Hp' & Hin & _).
    rewrite Hp in Hp'. by inversion Hp'; subst.
  - destruct (tree_parent_closed _ _ _ _ _ Hwf Ht Hx Hnode Hne)
      as (p' & Hp' & Hin & Hpn).
    rewrite Hp in Hp'. inversion Hp'; subst. by apply IH.
Qed.

(** On a ranked graph the traversal returns within [rank] levels. *)
Lemma tree_total g rank k r :
  ranked g rank -> rank r < k -> ∃ t, tree g k r = Ok t.
Proof.
  intros Hrk. revert r. induction k as [|k IH]; intros r Hlt; [lia|].
  simpl. destruct (collect_total (tree g k) (get_refs (g r))) as [subs Hs].
  { intros c Hc. apply IH. specialize (Hrk _ _ Hc). lia. }
  rewrite Hs. simpl. eauto.
Qed.

(** ** Growth of one bone list *)

Lemma grown_refl r Q (d : Dict) l : d !! r = Some l -> grown r Q d d.
Proof.
  intros H. exists l, []. split_and!; [done| |constructor].
  rewrite app_nil_r. by rewrite insert_id.
Qed.

Lemma grown_trans r Q (d1 d2 d3 : Dict) :
  grown r Q d1 d2 -> grown r Q d2 d3 -> grown r Q d1 d3.
Proof.
  intros (l & e1 & H1 & -> & Q1) (l' & e2 & H2 & -> & Q2).
  rewrite lookup_insert_eq in H2. inversion H2; subst.
  exists l, (e1 ++ e2). split_and!; [done| |by apply Forall_app].
  by rewrite insert_insert_eq, app_assoc.
Qed.

Lemma grown_weaken r (Q Q' : BlockId -> Prop) (d d' : Dict) :
  (∀ x, Q x -> Q' x) -> grown r Q d d' -> grown r Q' d d'.
Proof.
  intros HQ (l & e & H & -> & He). exists l, e. split_and!; [done..|].
  eapply Forall_impl; eauto.
Qed.

Lemma grown_registered r Q (d d' : Dict) r' x :
  grown r Q d d' ->
  registered d' r' x ↔ registered d r' x ∨ (r' = r ∧ Q x ∧ registered d' r x).
Proof.
  intros (l & e & H & -> & He). unfold registered. split.
  - intros (l' & Hl' & Hx). destruct (decide (r' = r)) as [->|Hne].
    + rewrite lookup_insert_eq in Hl'. inversion Hl'; subst.
      apply elem_of_app in Hx as [Hx|Hx]; [left; eauto|right].
      split_and!; [done| |].
      * rewrite Forall_forall in He. auto.
      * exists (l ++ e). rewrite lookup_insert_eq. split; [done|].
        apply elem_of_app. by right.
    + rewrite lookup_insert_ne in Hl' by done. left; eauto.
  - intros [(l' & Hl' & Hx)|(-> & _ & ?)]; [|done].
    destruct (decide (r' = r)) as [->|Hne].
    + rewrite H in Hl'. inversion Hl'; subst. exists (l' ++ e).
      rewrite lookup_insert_eq. split; [done|]. apply elem_of_app. by left.
    + exists l'. by rewrite lookup_insert_ne.
Qed.

Lemma grown_keeps r Q (d d' : Dict) r' x :
  grown r Q d d' -> registered d r' x -> registered d' r' x.
Proof. intros Hg Hr. apply (grown_registered _ _ _ _ r' x Hg). by left. Qed.

Lemma grown_is_Some r Q (d d' : Dict) r' :
  grown r Q d d' -> is_Some (d' !! r') ↔ is_Some (d !! r').
Proof.
  intros (l & e & H & -> & _). destruct (decide (r' = r)) as [->|Hne].
  - rewrite lookup_insert_eq, H. split; eauto.
  - by rewrite lookup_insert_ne.
Qed.

Lemma dict_add_grown r b (d d' : Dict) :
  dict_add r b d = Ok d' -> grown r (eq b) d d' ∧ registered d' r b.
Proof.
  unfold dict_add. destruct (d !! r) as [l|] eqn:Hl; [|discriminate].
  destruct (decide (b ∈ l)) as [Hin|Hin]; intros H; inversion H; subst.
  - split; [by eapply grown_refl | by exists l].
  - split.
    + exists l, [b]. split_and!; [done..|]. by constructor.
    + exists (l ++ [b]). rewrite lookup_insert_eq. split; [done|].
      apply elem_of_app. right. left.
Qed.

Lemma dict_append_grown r b (d d' : Dict) :
  dict_append r b d = Ok d' -> grown r (eq b) d d' ∧ registered d' r b.
Proof.
  unfold dict_append. destruct (d !! r) as [l|] eqn:Hl; [|discriminate].
  intros H; inversion H; subst. split.
  - exists l, [b]. split_and!; [done..|]. by constructor.
  - exists (l ++ [b]). rewrite lookup_insert_eq. split; [done|].
    apply elem_of_app. right. left.
Qed.

(** ** Parent chains, continued *)

Lemma between_trans g r b x a :
  between g r b x -> between g r x a -> between g r b a.
Proof.
  induction 1; intros Hxa.
  - eapply between_step; eauto.
  - eapply between_step; eauto.
Qed.

Lemma between_ancestor g r b a : between g r b a -> ancestor g a b.
Proof.
  induction 1.
  - by apply ancestor_parent.
  - eapply ancestor_step; eauto.
Qed.

Lemma between_ne g r b a : between g r b a -> a ≠ r.
Proof. induction 1; auto. Qed.

Lemma ancestor_trans g a b c :
  ancestor g a b -> ancestor g b c -> ancestor g a c.
Proof.
  intros Hab Hbc. induction Hbc.
  - eapply ancestor_step; eauto.
  - eapply ancestor_step; eauto.
Qed.

(** Above a bone below [r], what is met before [r] is below [r] too. *)
Lemma between_below g r b a :
  between g r b a -> ancestor g r b -> ancestor g r a.
Proof.
  induction 1 as [b p Hp Hne|b p a Hp Hne Hb IH]; intros Hanc.
  - inversion Hanc as [b' p' Hp'|b' p' a' Hp' Ha']; subst;
      rewrite Hp in Hp'; inversion Hp'; subst; [done|assumption].
  - apply IH. inversion Hanc as [b' p' Hp'|b' p' a' Hp' Ha']; subst;
      rewrite Hp in Hp'; inversion Hp'; subst; [done|assumption].
Qed.

(** Two ancestors of one node lie on one chain. *)
Lemma ancestor_comparable g a c b :
  ancestor g a b -> ancestor g c b -> a = c ∨ ancestor g a c ∨ ancestor g c a.
Proof.
  intros Ha. revert c. induction Ha as [b p Hp|b p a Hp Ha IH]; intros c Hc.
  - inversion Hc as [b' p' Hp'|b' p' a' Hp' Ha']; subst;
      rewrite Hp in Hp'; inversion Hp'; subst; auto.
  - inversion Hc as [b' p' Hp'|b' p' a' Hp' Ha']; subst;
      rewrite Hp in Hp'; inversion Hp'; subst; auto.
Qed.

(** ** [complete_bone_tree] *)

Lemma complete_bone_tree_spec g k b r (d d' : Dict) :
  complete_bone_tree g k b r d = Ok d' ->
  grown r (between g r b) d d'
  ∧ registered d r b
  ∧ ancestor g r b
  ∧ (∀ a, between g r b a -> registered d' r a).
Proof.
  revert b d. induction k as [|k IH]; intros b d H; simpl in H;
    [discriminate|].
  destruct (d !! r) as [l|] eqn:Hl; [|discriminate].
  destruct (decide (b ∈ l)) as [Hin|]; [|discriminate].
  destruct (_parent (g b)) as [p|] eqn:Hp; [|discriminate].
  destruct (decide (p = r)) as [->|Hne].
  - inversion H; subst. split_and!.
    + by eapply grown_refl.
    + by exists l.
    + by apply ancestor_parent.
    + intros a Ha. inversion Ha as [b' p' Hp'|b' p' a' Hp']; subst;
        rewrite Hp in Hp'; inversion Hp'; by subst.
  - inv_bind H. apply dict_add_grown in Hv as [Hg1 Hreg1].
    destruct (IH _ _ H) as (Hg2 & _ & Hanc & Hall).
    split_and!.
    + eapply grown_trans.
      * eapply grown_weaken; [|exact Hg1]. intros x <-.
        by apply between_parent.
      * eapply grown_weaken; [|exact Hg2]. intros x Hx.
        eapply between_step; eauto.
    + by exists l.
    + eapply ancestor_step; eauto.
    + intros a Ha. inversion Ha as [b' p' Hp'|b' p' a' Hp' Hne' Hpa]; subst;
        rewrite Hp in Hp'; inversion Hp'; subst.
      * eapply grown_keeps; eauto.
      * by apply Hall.
Qed.

(** ** [populate_bone_tree] *)

Lemma populate_step_spec ctx g r (d d' : Dict) x :
  populate_step ctx g r d x = Ok d' -> is_Some (d !! r) ->
  grown r (fun y => y = x ∧ y ≠ r ∧ eligible ctx g y) d d'
  ∧ (x ≠ r -> eligible ctx g x -> registered d' r x).
Proof.
  unfold populate_step, eligible. intros H [l Hl].
  destruct (decide (x = r)) as [->|Hne].
  { inversion H; subst. split; [by eapply grown_refl|done]. }
  destruct (is_a g x NiNode) eqn:Hn; cbn [negb] in H.
  2:{ inversion H; subst. split; [by eapply grown_refl|].
      by intros _ (? & _). }
  destruct (is_a g x NiLODNode) eqn:Hlod.
  { inversion H; subst. split; [by eapply grown_refl|].
    by intros _ (_ & ? & _). }
  destruct (is_grouping_node ctx x) eqn:Hgrp.
  { inversion H; subst. split; [by eapply grown_refl|].
    by intros _ (_ & _ & ?). }
  apply dict_add_grown in H as [Hg Hreg]. split; [|done].
  eapply grown_weaken; [|exact Hg]. by intros y <-.
Qed.

Lemma populate_bone_tree_spec ctx g k r (d d' : Dict) :
  populate_bone_tree ctx g k r d = Ok d' -> is_Some (d !! r) ->
  ∃ t, tree g k r = Ok t
       ∧ grown r (fun y => y ∈ t ∧ y ≠ r ∧ eligible ctx g y) d d'
       ∧ (∀ x, x ∈ t -> x ≠ r -> eligible ctx g x -> registered d' r x).
Proof.
  unfold populate_bone_tree. intros H Hsome. inv_bind H.
  rename v into t. exists t. split; [done|]. clear Hv.
  assert (Hgen : ∀ xs (d d' : Dict),
    for_each (populate_step ctx g r) xs d = Ok d' -> is_Some (d !! r) ->
    grown r (fun y => y ∈ xs ∧ y ≠ r ∧ eligible ctx g y) d d'
    ∧ (∀ x, x ∈ xs -> x ≠ r -> eligible ctx g x -> registered d' r x)).
  { clear. induction xs as [|x xs IH]; intros d d' H [l Hl]; simpl in H.
    - inversion H; subst. split; [by eapply grown_refl|].
      by intros ? ?%elem_of_nil.
    - inv_bind H. rename v into d1.
      destruct (populate_step_spec _ _ _ _ _ _ Hv) as [Hg1 Hr1]; [eauto|].
      destruct (IH _ _ H) as [Hg2 Hr2].
      { apply (grown_is_Some _ _ _ _ r Hg1). eauto. }
      split.
      + eapply grown_trans.
        * eapply grown_weaken; [|exact Hg1]. intros y (-> & ? & ?).
          split_and!; [left|done..].
        * eapply grown_weaken; [|exact Hg2]. intros y (? & ? & ?).
          split_and!; [by right|done..].
      + intros y [->|Hy]%elem_of_cons Hne He.
        * eapply grown_keeps; eauto.
        * by apply Hr2. }
  by apply Hgen.
Qed.

(** ** [find] *)

Lemma first_found_sound {A B} (f : A -> Result (option B)) xs y :
  first_found f xs = Ok (Some y) -> ∃ x, x ∈ xs ∧ f x = Ok (Some y).
Proof.
  induction xs as [|x xs IH]; simpl; [discriminate|]. intros H.
  inv_bind H as r Hr. destruct r as [y'|].
  - inversion H; subst. exists x. split; [left|done].
  - destruct (IH H) as (x' & ? & ?). exists x'. split; [by right|done].
Qed.

Lemma find_sound g k b block_name cls r :
  find g k b block_name cls = Ok (Some r) ->
  find_matches (g r) block_name cls = true.
Proof.
  revert b. induction k as [|k IH]; intros b H; simpl in H; [discriminate|].
  destruct (find_matches (g b) block_name cls) eqn:Hm.
  - by inversion H; subst.
  - apply first_found_sound in H as (c & _ & Hc). eauto.
Qed.

Lemma first_found_total {A B} (Q : option B -> Prop)
    (f : A -> Result (option B)) xs :
  Q None -> (∀ x, x ∈ xs -> ∃ r, f x = Ok r ∧ Q r) ->
  ∃ r, first_found f xs = Ok r ∧ Q r.
Proof.
  intros HQ. induction xs as [|x xs IH]; intros Hf; simpl; [eauto|].
  destruct (Hf x) as (r & -> & Hr); [left|]. simpl.
  destruct r as [y|]; [eauto|]. apply IH. intros ? ?. apply Hf. by right.
Qed.

Lemma find_total g rank k b block_name cls :
  ranked g rank -> rank b < k ->
  ∃ r, find g k b block_name cls = Ok r
       ∧ ∀ x, r = Some x -> rank x ≤ rank b.
Proof.
  intros Hrk. revert b. induction k as [|k IH]; intros b Hlt; [lia|].
  simpl. destruct (find_matches (g b) block_name cls).
  { eexists. split; [done|]. by intros x [= ->]. }
  apply (first_found_total (fun r => ∀ x, r = Some x -> rank x ≤ rank b));
    [done|].
  intros c Hc. specialize (Hrk _ _ Hc).
  destruct (IH c) as (r & Hr & Hle); [lia|].
  exists r. split; [done|]. intros x Hx. specialize (Hle x Hx). lia.
Qed.

(** No block matches a [str]: the names of the blocks are [bytes].  So
    [find] returns [None] for a [str], unless the [str] is empty and a
    class is given. *)
Lemma find_str_not_found g k b s cls r :
  cls = None ∨ s ≠ EmptyString ->
  find g k b (PyStr s) cls ≠ Ok (Some r).
Proof.
  intros Hc Hf. apply find_sound in Hf. unfold find_matches in Hf.
  destruct s as [|c s], cls as [cl|]; simpl in Hf;
    rewrite ?andb_false_r in Hf; try discriminate Hf.
  by destruct Hc.
Qed.


(** The armature of the selected object is looked up under its name, a
    [str]: the lookup finds nothing, and the branch never returns. *)
Lemma identify_armature_raises ctx g k n (d : Dict) x :
  identify_armature ctx g k n d ≠ Ok x.
Proof.
  unfold identify_armature. intros H.
  destruct (selected_objects ctx) as [|obj objs]; [discriminate|].
  inv_bind H as found Hfound. destruct found as [r|]; [|discriminate].
  apply find_str_not_found in Hfound; [done|by left].
Qed.


(** ** Invariants of the marking pass *)

(** A property of the dictionary kept by the three ways the pass changes
    it (a new root with no bone; a bone attached and its parents
    completed; a root populated) is kept by the pass.  The unguarded
    [append] of the mode [GEOMETRY_ONLY] is not among them: the lookup
    before it never finds the armature. *)
Section Preservation.
Context (ctx : NifImport) (g : NifGraph) (P : Dict -> Prop).

Hypothesis P_new_root :
  ∀ (d : Dict) r, P d -> d !! r = None -> P (<[r := []]> d).
Hypothesis P_attach :
  ∀ k (d d1 d' : Dict) r b,
    P d -> dict_add r b d = Ok d1 ->
    complete_bone_tree g k b r d1 = Ok d' -> P d'.
Hypothesis P_populate :
  ∀ k (d d' : Dict) r,
    P d -> is_Some (d !! r) ->
    populate_bone_tree ctx g k r d = Ok d' -> P d'.

Lemma complete_keeps_root k b r (d d' : Dict) r' :
  complete_bone_tree g k b r d = Ok d' ->
  is_Some (d !! r') -> is_Some (d' !! r').
Proof.
  intros H Hs. apply complete_bone_tree_spec in H as (Hg & _).
  by apply (grown_is_Some _ _ _ _ r' Hg).
Qed.

Lemma mark_skeleton_preserves k n (d d' : Dict) :
  P d -> mark_skeleton ctx g k n d = Ok d' -> P d'.
Proof.
  unfold mark_skeleton. intros HP H.
  destruct (negb (is_a g n NiNode)); [discriminate|].
  inv_bind H. rename v into skelroot.
  destruct (decide (is_Some (d !! skelroot))) as [Hs|Hs].
  - eapply P_populate; eauto.
  - eapply P_populate; [| |exact H].
    + apply P_new_root; [done|]. by apply eq_None_not_Some.
    + rewrite lookup_insert_eq. eauto.
Qed.

Lemma mark_skin_bones_preserves k skelroot bs (d d' : Dict) :
  P d -> for_each (mark_skin_bone g k skelroot) bs d = Ok d' -> P d'.
Proof.
  apply for_each_preserves. intros d0 [b|] d1 _ HPd Hbody; simpl in Hbody.
  - inv_bind Hbody. eapply P_attach; [exact HPd|exact Hv|exact Hbody].
  - by (inversion Hbody; subst).
Qed.

Lemma mark_skin_bones_keeps_root k skelroot bs (d d' : Dict) r' :
  for_each (mark_skin_bone g k skelroot) bs d = Ok d' ->
  is_Some (d !! r') -> is_Some (d' !! r').
Proof.
  intros H Hs.
  apply (for_each_preserves (fun d : Dict => is_Some (d !! r'))
           (mark_skin_bone g k skelroot) bs) with (s := d); [|done..].
  intros d0 [b|] d1 _ Hd0 Hbody; simpl in Hbody.
  - inv_bind Hbody. apply dict_add_grown in Hv as [Hg _].
    eapply complete_keeps_root; [exact Hbody|].
    by apply (grown_is_Some _ _ _ _ r' Hg).
  - by (inversion Hbody; subst).
Qed.

Lemma check_skelroot_spec obj skelroot (d d1 : Dict) :
  props_skeleton ctx ≠ SKELETON_ONLY ->
  P d -> check_skelroot ctx obj skelroot d = Ok d1 ->
  P d1 ∧ ∃ r, skelroot = Some r ∧ is_Some (d1 !! r).
Proof.
  unfold check_skelroot. intros Hmode HP H.
  destruct (props_skeleton ctx); [| done |].
  - destruct skelroot as [r|]; [|discriminate].
    destruct (decide (is_Some (d !! r))) as [Hs|Hs];
      inversion H; subst.
    + eauto.
    + split; [|exists r; rewrite lookup_insert_eq; eauto].
      apply P_new_root; [done|]. by apply eq_None_not_Some.
  - destruct skelroot as [r|].
    + destruct (decide (is_Some (d !! r))) as [Hs|Hs].
      * inversion H; subst. eauto.
      * unfold raise_incompatible in H. by destruct obj.
    + unfold raise_incompatible in H. by destruct obj.
Qed.

Lemma mark_skin_preserves k n obj (d d' : Dict) :
  props_skeleton ctx ≠ SKELETON_ONLY ->
  P d -> mark_skin ctx g k n obj d = Ok d' -> P d'.
Proof.
  unfold mark_skin. intros Hmode HP H.
  destruct (is_a g n NiTriBasedGeom); [|by (inversion H; subst)].
  destruct (skin_instance (g n)) as [skininst|]; [|by (inversion H; subst)].
  inv_bind H. rename v into d1.
  destruct (check_skelroot_spec _ _ _ _ Hmode HP Hv) as (HP1 & r & Hr & Hs).
  rewrite Hr in H. inv_bind H. rename v into d2.
  eapply P_populate; [| |exact H].
  - eapply mark_skin_bones_preserves; eauto.
  - eapply mark_skin_bones_keeps_root; eauto.
Qed.

Lemma skeleton_branch_false :
  skeleton_branch ctx = false -> props_skeleton ctx ≠ SKELETON_ONLY.
Proof.
  unfold skeleton_branch. intros H Hm.
  rewrite bool_decide_eq_true_2 in H by done. discriminate.
Qed.

Theorem mark_armatures_bones_preserves k n (d d' : Dict) :
  P d -> mark_armatures_bones ctx g k n d = Ok d' -> P d'.
Proof.
  revert n d d'. induction k as [|k IH]; intros n d d' HP H; simpl in H;
    [discriminate|].
  destruct (skeleton_branch ctx) eqn:Hbr.
  { eapply mark_skeleton_preserves; eauto. }
  apply skeleton_branch_false in Hbr.
  inv_bind H. destruct v as [d0 obj]. simpl in H.
  inv_bind H. rename v into d1.
  assert (HP0 : P d0).
  { destruct (bool_decide (props_skeleton ctx = GEOMETRY_ONLY)
              && bool_decide (d = ∅)) eqn:Hgeo.
    - inv_bind Hv as r0 Hid. by apply identify_armature_raises in Hid.
    - by (inversion Hv; subst). }
  assert (HP1 : P d1) by (eapply mark_skin_preserves; eauto).
  revert H. apply for_each_preserves; [|done].
  intros d2 child d3 _ HP2 Hbody. cbv beta in Hbody.
  destruct (negb (is_a g child NiAVObject)); [by (inversion Hbody; subst)|].
  eapply IH; eauto.
Qed.
End Preservation.

(** ** The two invariants *)

Lemma registered_new_root (d : Dict) r r' b :
  d !! r = None ->
  registered (<[r := []]> d) r' b -> r' ≠ r ∧ registered d r' b.
Proof.
  intros Hnone (l & Hl & Hb). destruct (decide (r' = r)) as [->|Hne].
  - rewrite lookup_insert_eq in Hl. inversion Hl; subst.
    by apply elem_of_nil in Hb.
  - rewrite lookup_insert_ne in Hl by done. split; [done|]. by exists l.
Qed.

Lemma registered_new_root_keeps (d : Dict) r r' b :
  d !! r = None -> registered d r' b -> registered (<[r := []]> d) r' b.
Proof.
  intros Hnone (l & Hl & Hb). exists l. split; [|done].
  rewrite lookup_insert_ne; [done|]. intros ->. congruence.
Qed.

(** What a bone attached to [r] and completed adds: the bone and what lies
    between it and the root. *)
Lemma attach_registered g k (d d1 d' : Dict) r b r' x :
  grown r (eq b) d d1 -> complete_bone_tree g k b r d1 = Ok d' ->
  registered d' r' x ->
  registered d r' x ∨ (r' = r ∧ (x = b ∨ between g r b x)).
Proof.
  intros Hg1 Hc Hx. apply complete_bone_tree_spec in Hc as (Hg2 & _).
  apply (grown_registered _ _ _ _ r' x Hg2) in Hx as [Hx|(-> & Hb & _)];
    [|by right; split; [|right]].
  apply (grown_registered _ _ _ _ r' x Hg1) in Hx as [Hx|(-> & <- & _)];
    [by left|by right; split; [|left]].
Qed.

Lemma attach_keeps g k (d d1 d' : Dict) r b r' x :
  grown r (eq b) d d1 -> complete_bone_tree g k b r d1 = Ok d' ->
  registered d r' x -> registered d' r' x.
Proof.
  intros Hg1 Hc Hx. apply complete_bone_tree_spec in Hc as (Hg2 & _).
  eapply grown_keeps; [exact Hg2|]. eapply grown_keeps; eauto.
Qed.

Section Invariants.
Context (ctx : NifImport) (g : NifGraph).
Hypothesis parents : parents_set g.

Lemma complete_eligible_empty : complete_eligible ctx g ∅.
Proof. intros r b a (l & Hl & _). by rewrite lookup_empty in Hl. Qed.

Lemma below_root_empty : below_root g ∅.
Proof. intros r b (l & Hl & _). by rewrite lookup_empty in Hl. Qed.

(** The pass keeps every registered bone's eligible ancestors
    registered. *)
Lemma mark_keeps_complete_eligible k n (d d' : Dict) :
  complete_eligible ctx g d ->
  mark_armatures_bones ctx g k n d = Ok d' ->
  complete_eligible ctx g d'.
Proof.
  apply mark_armatures_bones_preserves; clear k n d d'.
  - intros d r HP Hnone r' b a Hb Hba Ha.
    apply registered_new_root in Hb as [Hne Hb]; [|done].
    apply registered_new_root_keeps; [done|]. eapply HP; eauto.
  - intros k d d1 d' r b HP [Hg1 _]%dict_add_grown Hc r' x a Hx Hxa Ha.
    pose proof (complete_bone_tree_spec _ _ _ _ _ _ Hc)
      as (_ & _ & _ & Hall).
    destruct (attach_registered _ _ _ _ _ _ _ _ _ Hg1 Hc Hx)
      as [Hold|(Hr & [Hb|Hbx])]; subst.
    + eapply attach_keeps; eauto.
    + by apply Hall.
    + apply Hall. eapply between_trans; eauto.
  - intros k d d' r HP Hs Hpop r' x a Hx Hxa Ha.
    destruct (populate_bone_tree_spec _ _ _ _ _ _ Hpop Hs)
      as (t & Ht & Hg & Hall).
    destruct (proj1 (grown_registered _ _ _ _ r' x Hg) Hx)
      as [Hold|(Hr & (Hxt & Hxr & Hxe) & _)].
    + eapply grown_keeps; [exact Hg|]. eapply HP; eauto.
    + subst r'. destruct Hxe as (Hnode & _).
      destruct (tree_between_closed _ _ _ _ _ _ parents Ht Hxt Hnode
                  Hxr Hxa) as [Hat Har].
      by apply Hall.
Qed.

(** The pass keeps every registered bone below its root. *)
Lemma mark_keeps_below_root k n (d d' : Dict) :
  below_root g d ->
  mark_armatures_bones ctx g k n d = Ok d' ->
  below_root g d'.
Proof.
  apply mark_armatures_bones_preserves; clear k n d d'.
  - intros d r HP Hnone r' b Hb.
    apply registered_new_root in Hb as [Hne Hb]; auto.
  - intros k d d1 d' r b HP [Hg1 _]%dict_add_grown Hc r' x Hx.
    pose proof (complete_bone_tree_spec _ _ _ _ _ _ Hc)
      as (_ & _ & Hanc & _).
    destruct (attach_registered _ _ _ _ _ _ _ _ _ Hg1 Hc Hx)
      as [Hold|(Hr & [Hb|Hbx])]; subst; [by apply HP|done|].
    eapply between_below; eauto.
  - intros k d d' r HP Hs Hpop r' x Hx.
    destruct (populate_bone_tree_spec _ _ _ _ _ _ Hpop Hs)
      as (t & Ht & Hg & _).
    destruct (proj1 (grown_registered _ _ _ _ r' x Hg) Hx)
      as [Hold|(Hr & (Hxt & Hxr & Hxe) & _)]; [by apply HP|].
    subst r'. destruct Hxe as (Hnode & _).
    by destruct (tree_ancestor _ _ _ _ _ parents Ht Hxt Hnode) as [?|[? _]].
Qed.
End Invariants.

(** ** No duplicates *)

Lemma dict_add_no_duplicates r b (d d' : Dict) :
  no_duplicates d -> dict_add r b d = Ok d' -> no_duplicates d'.
Proof.
  unfold dict_add. intros Hnd H.
  destruct (d !! r) as [l|] eqn:Hl; [|discriminate].
  destruct (decide (b ∈ l)) as [Hin|Hout]; inversion H; subst; [done|].
  intros r' l' Hl'. destruct (decide (r' = r)) as [->|Hne].
  - rewrite lookup_insert_eq in Hl'. inversion Hl'; subst.
    apply NoDup_app. split_and!.
    + by eapply Hnd.
    + intros x Hx [->|?%elem_of_nil]%elem_of_cons; done.
    + apply NoDup_singleton.
  - rewrite lookup_insert_ne in Hl' by done. by eapply Hnd.
Qed.

Lemma complete_bone_tree_no_duplicates g k b r (d d' : Dict) :
  no_duplicates d -> complete_bone_tree g k b r d = Ok d' ->
  no_duplicates d'.
Proof.
  revert b d. induction k as [|k IH]; intros b d Hnd H; simpl in H;
    [discriminate|].
  destruct (d !! r) as [l|]; [|discriminate].
  destruct (decide (b ∈ l)); [|discriminate].
  destruct (_parent (g b)) as [p|]; [|discriminate].
  destruct (decide (p = r)); [by (inversion H; subst)|].
  inv_bind H. eapply IH; [|exact H]. eapply dict_add_no_duplicates; eauto.
Qed.

Lemma populate_bone_tree_no_duplicates ctx g k r (d d' : Dict) :
  no_duplicates d -> populate_bone_tree ctx g k r d = Ok d' ->
  no_duplicates d'.
Proof.
  unfold populate_bone_tree. intros Hnd H. inv_bind H. revert H.
  apply for_each_preserves; [|done].
  intros d1 x d2 _ Hnd1 Hstep. unfold populate_step in Hstep.
  repeat case_match; try by (inversion Hstep; subst).
  eapply dict_add_no_duplicates; eauto.
Qed.

(** The pass never puts a bone twice in a list. *)
Theorem mark_keeps_no_duplicates ctx g k n (d d' : Dict) :
  no_duplicates d ->
  mark_armatures_bones ctx g k n d = Ok d' ->
  no_duplicates d'.
Proof.
  apply mark_armatures_bones_preserves; clear k n d d'.
  - intros d r Hnd Hnone r' l Hl. destruct (decide (r' = r)) as [->|Hne].
    + rewrite lookup_insert_eq in Hl. inversion Hl; subst. apply NoDup_nil_2.
    + rewrite lookup_insert_ne in Hl by done. by eapply Hnd.
  - intros k d d1 d' r b Hnd Hadd Hc.
    eapply complete_bone_tree_no_duplicates; [|exact Hc].
    eapply dict_add_no_duplicates; eauto.
  - intros k d d' r Hnd _ Hpop.
    eapply populate_bone_tree_no_duplicates; eauto.
Qed.

(** ** Running the pass again *)

Lemma extends_refl (d : Dict) : extends d d.
Proof. intros r l Hl. by exists l. Qed.

Lemma extends_trans (d1 d2 d3 : Dict) :
  extends d1 d2 -> extends d2 d3 -> extends d1 d3.
Proof.
  intros H12 H23 r l Hl. destruct (H12 _ _ Hl) as (l2 & Hl2 & Hsub2).
  destruct (H23 _ _ Hl2) as (l3 & Hl3 & Hsub3). exists l3.
  split; [done|]. by etrans.
Qed.

Lemma grown_extends r Q (d d' : Dict) : grown r Q d d' -> extends d d'.
Proof.
  intros (l & e & Hl & -> & _) r' l' Hl'.
  destruct (decide (r' = r)) as [->|Hne].
  - rewrite Hl in Hl'. inversion Hl'; subst. exists (l' ++ e).
    rewrite lookup_insert_eq. split; [done|].
    intros x Hx. apply elem_of_app. by left.
  - exists l'. by rewrite lookup_insert_ne.
Qed.

Lemma extends_new_root (d : Dict) r :
  d !! r = None -> extends d (<[r := []]> d).
Proof.
  intros Hnone r' l Hl. exists l. split; [|done].
  rewrite lookup_insert_ne; [done|]. intros ->. congruence.
Qed.

Lemma extends_is_Some (d d' : Dict) r :
  extends d d' -> is_Some (d !! r) -> is_Some (d' !! r).
Proof. intros He [l Hl]. destruct (He _ _ Hl) as (l' & Hl' & _). eauto. Qed.

Lemma extends_registered (d d' : Dict) r b :
  extends d d' -> registered d r b -> registered d' r b.
Proof.
  intros He (l & Hl & Hb). destruct (He _ _ Hl) as (l' & Hl' & Hsub).
  exists l'. split; [done|]. by apply Hsub.
Qed.

Lemma absorbed_ok : absorbed (fun d : Dict => Ok d).
Proof.
  intros d d' H. inversion H; subst. split; [apply extends_refl|done].
Qed.

Lemma absorbed_seq (op1 op2 : Dict -> Result Dict) :
  absorbed op1 -> absorbed op2 -> absorbed (fun d => d1 ← op1 d; op2 d1).
Proof.
  intros H1 H2 d d' H. inv_bind H. rename v into d1.
  destruct (H1 _ _ Hv) as [He1 Ha1]. destruct (H2 _ _ H) as [He2 Ha2].
  split; [by eapply extends_trans|].
  intros d'' He. rewrite Ha1 by (by eapply extends_trans). simpl.
  by apply Ha2.
Qed.

Lemma absorbed_for_each {A} (body : Dict -> A -> Result Dict) xs :
  (∀ x, x ∈ xs -> absorbed (fun d => body d x)) ->
  absorbed (for_each body xs).
Proof.
  induction xs as [|x xs IH]; intros Hbody; simpl.
  - apply absorbed_ok.
  - apply (absorbed_seq (fun d => body d x) (for_each body xs)).
    + apply Hbody. left.
    + apply IH. intros y Hy. apply Hbody. by right.
Qed.

Lemma absorbed_dict_add r b : absorbed (dict_add r b).
Proof.
  intros d d' H. pose proof (dict_add_grown _ _ _ _ H) as [Hg Hreg].
  split; [by eapply grown_extends|].
  intros d'' He. destruct (extends_registered _ _ _ _ He Hreg)
    as (l'' & Hl'' & Hb).
  unfold dict_add. rewrite Hl''. by rewrite decide_True.
Qed.

Lemma absorbed_new_root r :
  absorbed (fun d : Dict =>
              Ok (if decide (is_Some (d !! r)) then d else <[r := []]> d)).
Proof.
  intros d d' H. inversion H; subst. clear H.
  assert (Hs : is_Some ((if decide (is_Some (d !! r)) then d
                         else <[r := []]> d) !! r)).
  { destruct (decide (is_Some (d !! r))); [done|].
    rewrite lookup_insert_eq. eauto. }
  split.
  - destruct (decide (is_Some (d !! r))) as [|Hnone];
      [apply extends_refl|].
    apply extends_new_root. by apply eq_None_not_Some.
  - intros d'' He. f_equal. rewrite decide_True; [done|].
    eapply extends_is_Some; eauto.
Qed.

Lemma absorbed_complete_bone_tree g k b r :
  absorbed (complete_bone_tree g k b r).
Proof.
  revert b. induction k as [|k IH]; intros b d d' H; simpl in H;
    [discriminate|].
  destruct (d !! r) as [l|] eqn:Hl; [|discriminate].
  destruct (decide (b ∈ l)) as [Hin|]; [|discriminate].
  destruct (_parent (g b)) as [p|] eqn:Hp; [|discriminate].
  assert (Hreg : registered d r b) by (by exists l).
  destruct (decide (p = r)) as [->|Hne].
  - inversion H; subst. split; [apply extends_refl|].
    intros d'' He. destruct (extends_registered _ _ _ _ He Hreg)
      as (l'' & Hl'' & Hb).
    simpl. rewrite Hl'', decide_True, Hp by done. by rewrite decide_True.
  - destruct (absorbed_seq _ _ (absorbed_dict_add r p) (IH p) _ _ H)
      as [He Ha].
    split; [done|]. intros d'' He''.
    destruct (extends_registered _ _ _ _ (extends_trans _ _ _ He He'') Hreg)
      as (l'' & Hl'' & Hb).
    simpl. rewrite Hl'', decide_True, Hp by done.
    rewrite decide_False by done. by apply Ha.
Qed.

Lemma absorbed_populate_bone_tree ctx g k r :
  absorbed (populate_bone_tree ctx g k r).
Proof.
  unfold populate_bone_tree. destruct (tree g k r) as [t|e]; simpl.
  - apply absorbed_for_each. intros x _. unfold populate_step.
    repeat case_match; try apply absorbed_ok. apply absorbed_dict_add.
  - by intros d d' H.
Qed.

Lemma absorbed_mark_skin_bone g k r boneBlock :
  absorbed (fun d => mark_skin_bone g k r d boneBlock).
Proof.
  destruct boneBlock as [b|]; simpl; [|apply absorbed_ok].
  apply (absorbed_seq (dict_add r b) (complete_bone_tree g k b r)).
  - apply absorbed_dict_add.
  - apply absorbed_complete_bone_tree.
Qed.

(** The test on the skeleton root passes again on a larger dictionary,
    whatever the local [b_armature_obj] is bound to. *)
Lemma check_skelroot_again ctx obj skelroot (d d' : Dict) :
  check_skelroot ctx obj skelroot d = Ok d' ->
  extends d d'
  ∧ ∀ obj' d'', extends d' d'' ->
                check_skelroot ctx obj' skelroot d'' = Ok d''.
Proof.
  unfold check_skelroot. intros H. destruct (props_skeleton ctx).
  - destruct skelroot as [r|]; [|discriminate].
    assert (H' : Ok (if decide (is_Some (d !! r)) then d
                     else <[r := []]> d) = Ok d')
      by (by destruct (decide (is_Some (d !! r)))).
    destruct (absorbed_new_root r _ _ H') as [He Ha]. split; [done|].
    intros _ d'' He''. specialize (Ha d'' He'').
    by destruct (decide (is_Some (d'' !! r))).
  - inversion H; subst. split; [apply extends_refl|done].
  - destruct skelroot as [r|]; [|by destruct obj].
    destruct (decide (is_Some (d !! r))) as [Hs|]; [|by destruct obj].
    inversion H; subst. split; [apply extends_refl|].
    intros obj' d'' He. rewrite decide_True; [done|].
    eapply extends_is_Some; eauto.
Qed.

Lemma mark_skin_again ctx g k n obj (d d' : Dict) :
  mark_skin ctx g k n obj d = Ok d' ->
  extends d d'
  ∧ ∀ obj' d'', extends d' d'' -> mark_skin ctx g k n obj' d'' = Ok d''.
Proof.
  unfold mark_skin. intros H.
  destruct (is_a g n NiTriBasedGeom);
    [|inversion H; subst; split; [apply extends_refl|done]].
  destruct (skin_instance (g n)) as [skininst|];
    [|inversion H; subst; split; [apply extends_refl|done]].
  inv_bind H. rename v into d1.
  destruct (check_skelroot_again _ _ _ _ _ Hv) as [He1 Ha1].
  destruct (skeleton_root skininst) as [r|]; [|by case_match].
  destruct (absorbed_seq _ _
              (absorbed_for_each _ (bones skininst)
                 (fun b _ => absorbed_mark_skin_bone g k r b))
              (absorbed_populate_bone_tree ctx g k r) _ _ H) as [He2 Ha2].
  split; [by eapply extends_trans|].
  intros obj' d'' He''.
  rewrite (Ha1 obj' d'') by (by eapply extends_trans). simpl.
  by apply Ha2.
Qed.

Lemma absorbed_mark_skeleton ctx g k n : absorbed (mark_skeleton ctx g k n).
Proof.
  unfold mark_skeleton. destruct (negb (is_a g n NiNode)); [by intros d d' H|].
  destruct (if bool_decide (data_version ctx = 1024 * 65536 + 2)%Z
            then found ← find g k n (PyStr "Bip01") (Some NiNode);
                 Ok (default n found)
            else Ok n) as [skelroot|e] eqn:Hroot.
  - change (0x04000002%Z) with (1024 * 65536 + 2)%Z. rewrite Hroot. simpl.
    apply (absorbed_seq
             (fun d : Dict =>
                Ok (if decide (is_Some (d !! skelroot)) then d
                    else <[skelroot := []]> d))
             (populate_bone_tree ctx g k skelroot)).
    + apply absorbed_new_root.
    + apply absorbed_populate_bone_tree.
  - change (0x04000002%Z) with (1024 * 65536 + 2)%Z. rewrite Hroot.
    by intros d d' H.
Qed.

Lemma extends_nonempty (d d' : Dict) : extends d d' -> d ≠ ∅ -> d' ≠ ∅.
Proof.
  intros He Hne ->. apply Hne. apply map_empty. intros r.
  destruct (d !! r) as [l|] eqn:Hl; [|done].
  destruct (He _ _ Hl) as (l' & Hl' & _). by rewrite lookup_empty in Hl'.
Qed.

(** The pass only adds to the dictionary, and on any dictionary that
    holds its result it changes nothing. *)
Theorem absorbed_mark_armatures_bones ctx g k n :
  absorbed (mark_armatures_bones ctx g k n).
Proof.
  revert n. induction k as [|k IH]; intros n d d' H; [discriminate|].
  simpl in H |- *. destruct (skeleton_branch ctx).
  { by apply absorbed_mark_skeleton. }
  inv_bind H. destruct v as [d0 obj]. simpl in H. inv_bind H.
  rename v into d1.
  assert (Hloop : absorbed
            (for_each (fun d child =>
                         if negb (is_a g child NiAVObject) then Ok d
                         else mark_armatures_bones ctx g k child d)
               (get_refs (g n)))).
  { apply absorbed_for_each. intros child _.
    destruct (negb (is_a g child NiAVObject)); [apply absorbed_ok|apply IH]. }
  destruct (mark_skin_again _ _ _ _ _ _ _ Hv0) as [He1 Ha1].
  destruct (Hloop _ _ H) as [He2 Ha2].
  assert (He0 : extends d d0 ∧ (props_skeleton ctx = GEOMETRY_ONLY ->
                                d0 ≠ ∅)).
  { destruct (bool_decide (props_skeleton ctx = GEOMETRY_ONLY)
              && bool_decide (d = ∅)) eqn:Hgeo.
    - inv_bind Hv as r0 Hid. by apply identify_armature_raises in Hid.
    - inversion Hv; subst. split; [apply extends_refl|].
      intros Hmode. rewrite bool_decide_eq_true_2 in Hgeo by done.
      simpl in Hgeo. by apply bool_decide_eq_false_1 in Hgeo. }
  destruct He0 as [He0 Hne0].
  split; [eauto using extends_trans|].
  intros d'' He''.
  assert (Hskip : bool_decide (props_skeleton ctx = GEOMETRY_ONLY)
                  && bool_decide (d'' = ∅) = false).
  { destruct (decide (props_skeleton ctx = GEOMETRY_ONLY)) as [Hmode|Hmode].
    - rewrite (bool_decide_eq_false_2 (d'' = ∅)); [apply andb_false_r|].
      eapply extends_nonempty; [|by apply Hne0].
      eauto using extends_trans.
    - by rewrite bool_decide_eq_false_2. }
  rewrite Hskip. simpl.
  rewrite (Ha1 None d'') by eauto using extends_trans. simpl.
  by apply Ha2.
Qed.

(** Running the pass on its own result returns that result. *)
Corollary mark_armatures_bones_idempotent ctx g k n (d d' : Dict) :
  mark_armatures_bones ctx g k n d = Ok d' ->
  mark_armatures_bones ctx g k n d' = Ok d'.
Proof.
  intros H. apply (absorbed_mark_armatures_bones _ _ _ _ _ _ H).
  apply extends_refl.
Qed.

(** ** The sample files are well formed *)

Ltac each_ref H :=
  repeat (apply elem_of_cons in H as [->|H]);
  try solve [exfalso; eapply not_elem_of_nil; eassumption].

Lemma lod_skeleton_parents : parents_set lod_skeleton.
Proof.
  intros q x Hx Hn. destruct q as [|[|[|q]]]; simpl in Hx; each_ref Hx;
    try discriminate; by split.
Qed.

Lemma lod_skinned_parents : parents_set lod_skinned.
Proof.
  intros q x Hx Hn. destruct q as [|[|[|[|q]]]]; simpl in Hx; each_ref Hx;
    try discriminate; by split.
Qed.

Lemma nested_armatures_parents : parents_set nested_armatures.
Proof.
  intros q x Hx Hn. destruct q as [|[|[|[|[|q]]]]]; simpl in Hx; each_ref Hx;
    try discriminate; by split.
Qed.

Lemma gap_skeleton_parents : parents_set gap_skeleton.
Proof.
  intros q x Hx Hn. destruct q as [|[|[|[|[|q]]]]]; simpl in Hx; each_ref Hx;
    try discriminate; by split.
Qed.

Lemma grouped_skeleton_ranked :
  ranked grouped_skeleton (fun i => 3 - i).
Proof.
  intros q x Hx. destruct q as [|[|[|q]]]; simpl in Hx; each_ref Hx;
    simpl; lia.
Qed.

(** ** The scenarios of the specification *)

(** Scenario A: a root without skinned shapes, imported as a skeleton. *)
Example scenario_skeleton_only :
  mark_armatures_bones import_skeleton_only bone_chain 10 0 ∅
    = Ok {[0 := [1; 2]]}.
Proof. by vm_compute. Qed.

(** Scenario B: tree completion registers the parent left out by the
    skin. *)
Example scenario_tree_completion :
  mark_armatures_bones import_everything gap_skeleton 10 0 ∅
    = Ok {[0 := [1; 3; 2]]}.
Proof. by vm_compute. Qed.

(** Scenario C: the selected armature is not in the file. *)
Example scenario_no_armature :
  mark_armatures_bones (import_geometry []) gap_skeleton 10 0 ∅
    = Raise (NifError "nif has no armature").
Proof. by vm_compute. Qed.

(** Scenario D: a null entry in the list of bones is skipped. *)
Example scenario_null_bone :
  mark_armatures_bones import_everything null_bone_skin 10 0 ∅
    = Ok {[0 := [1]]}.
Proof. by vm_compute. Qed.

(** ** Tree completion (C1) *)

(** C1, as stated, fails: importing the skeleton [lod_skeleton], whose
    parent links are set, registers the bone 2 under the root 0 and leaves
    out the LOD node 1 that lies between them, because
    [populate_bone_tree] skips LOD nodes and still registers what is below
    them. *)
Lemma tree_complete_fails_below_lod_node :
  parents_set lod_skeleton
  ∧ mark_armatures_bones import_skeleton_only lod_skeleton 10 0 ∅
    = Ok {[0 := [2]]}
  ∧ ¬ tree_complete lod_skeleton {[0 := [2]]}.
Proof.
  split; [exact lod_skeleton_parents|].
  split; [by vm_compute|]. intros H.
  assert (Hreg : registered ({[0 := [2]]} : Dict) 0 1).
  { apply (H 0 2 1).
    - by apply (bool_decide_unpack _).
    - split.
      + by apply between_parent.
      + by apply ancestor_parent. }
  revert Hreg. by apply (bool_decide_eq_false_1 _).
Qed.

(** C1, amended: after a pass that starts from a dictionary with the
    property (the empty one has it) on a file whose parent links are set,
    every node strictly between a registered bone and its root that is
    itself eligible as a bone (a NiNode that is neither a LOD node nor a
    grouping node) is registered under the same root. *)
Theorem tree_complete_for_eligible_ancestors
    (ctx : NifImport) (g : NifGraph) (k : nat) (n : BlockId) (d0 d : Dict) :
  parents_set g ->
  complete_eligible ctx g d0 ->
  mark_armatures_bones ctx g k n d0 = Ok d ->
  ∀ r b a, registered d r b -> strictly_between g r b a ->
           eligible ctx g a -> registered d r a.
Proof.
  intros Hwf H0 Hrun r b a Hb [Hba _] Ha.
  eapply mark_keeps_complete_eligible; eauto.
Qed.

(** In [gap_skeleton] the node 2 lies between the bone 3 and the root 0
    and is registered. *)
Lemma tree_complete_for_eligible_ancestors_witness :
  registered ({[0 := [1; 3; 2]]} : Dict) 0 2.
Proof.
  refine (tree_complete_for_eligible_ancestors import_everything gap_skeleton
            10 0 ∅ ({[0 := [1; 3; 2]]} : Dict) gap_skeleton_parents
            (complete_eligible_empty import_everything gap_skeleton)
            _ 0 3 2 _ _ _).
  - vm_compute. reflexivity.
  - apply (bool_decide_unpack _). vm_compute. reflexivity.
  - split.
    + apply between_parent; [reflexivity | lia].
    + apply ancestor_parent. reflexivity.
  - repeat split.
Defined.

(** ** Partition (C2) *)

(** C2, as stated, fails: in [nested_armatures] one skin names the root 0
    and another the root 1 below it; the bone 2 is registered under
    both. *)
Lemma partition_fails_for_nested_roots :
  mark_armatures_bones import_everything nested_armatures 10 0 ∅
    = Ok {[0 := [1; 2]; 1 := [2]]}
  ∧ registered ({[0 := [1; 2]; 1 := [2]]} : Dict) 0 2
  ∧ registered ({[0 := [1; 2]; 1 := [2]]} : Dict) 1 2
  ∧ ¬ partitioned {[0 := [1; 2]; 1 := [2]]}.
Proof.
  split; [by vm_compute|].
  split; [by apply (bool_decide_unpack _)|].
  split; [by apply (bool_decide_unpack _)|]. intros H.
  assert (Heq : 0 = 1); [|discriminate].
  apply (H 0 1 2); by apply (bool_decide_unpack _).
Qed.

(** C2, amended: after a pass that starts from a dictionary whose bones
    are below their roots (the empty one is such) on a file whose parent
    links are set, two roots that share a bone are the same root or one of
    them is an ancestor of the other. *)
Theorem roots_sharing_a_bone_are_nested
    (ctx : NifImport) (g : NifGraph) (k : nat) (n : BlockId) (d0 d : Dict) :
  parents_set g ->
  below_root g d0 ->
  mark_armatures_bones ctx g k n d0 = Ok d ->
  ∀ r1 r2 b, registered d r1 b -> registered d r2 b ->
             r1 = r2 ∨ ancestor g r1 r2 ∨ ancestor g r2 r1.
Proof.
  intros Hwf H0 Hrun r1 r2 b H1 H2.
  assert (Hbelow : below_root g d)
    by (eapply mark_keeps_below_root; eauto).
  eapply ancestor_comparable; eauto.
Qed.

(** In [nested_armatures] the roots 0 and 1 share the bone 2. *)
Lemma roots_sharing_a_bone_are_nested_witness :
  0 = 1 ∨ ancestor nested_armatures 0 1 ∨ ancestor nested_armatures 1 0.
Proof.
  refine (roots_sharing_a_bone_are_nested import_everything nested_armatures
            10 0 ∅ ({[0 := [1; 2]; 1 := [2]]} : Dict)
            nested_armatures_parents (below_root_empty nested_armatures)
            _ 0 1 2 _ _).
  - vm_compute. reflexivity.
  - apply (bool_decide_unpack _). vm_compute. reflexivity.
  - apply (bool_decide_unpack _). vm_compute. reflexivity.
Defined.

(** ** Idempotence (C3) *)

(** After a loop of steps that only add and change nothing once they have
    returned, each step returns the result of the loop on that result. *)
Lemma for_each_absorbed_again {A} (body : Dict -> A -> Result Dict) xs
    (d1 d : Dict) :
  (∀ x, x ∈ xs -> absorbed (fun d => body d x)) ->
  for_each body xs d1 = Ok d ->
  ∀ x, x ∈ xs -> body d x = Ok d.
Proof.
  revert d1. induction xs as [|a xs IH]; intros d1 Habs Hrun x Hx.
  - by apply elem_of_nil in Hx.
  - simpl in Hrun. inv_bind Hrun as d2 H2.
    assert (Hrest : ∀ y, y ∈ xs -> absorbed (fun d => body d y))
      by (intros y Hy; apply Habs; by right).
    apply elem_of_cons in Hx as [->|Hx].
    + assert (Ha : absorbed (fun d => body d a)) by (apply Habs; left).
      destruct (Ha _ _ H2) as [_ Hagain]. apply Hagain.
      by destruct (absorbed_for_each body xs Hrest _ _ Hrun).
    + by apply (IH d2).
Qed.

(** C3, as stated, fails: with the mode [SKELETON_ONLY] the pass on
    [bone_chain] registers the blocks 1 and 2 under the root 0; run again
    on the subtree of the block 1, which the first run has processed, it
    makes that block a second root, and the dictionary is not the one of
    the first run. *)
Lemma skeleton_rerun_on_subtree_adds_a_root :
  mark_armatures_bones import_skeleton_only bone_chain 10 0 ∅
    = Ok {[0 := [1; 2]]}
  ∧ 1 ∈ get_refs (bone_chain 0)
  ∧ mark_armatures_bones import_skeleton_only bone_chain 9 1
      {[0 := [1; 2]]} = Ok {[0 := [1; 2]; 1 := [2]]}
  ∧ ({[0 := [1; 2]; 1 := [2]]} : Dict) ≠ {[0 := [1; 2]]}.
Proof.
  split_and!; [by vm_compute|left|by vm_compute|].
  intros Heq. apply (f_equal (fun d : Dict => d !! 1)) in Heq.
  vm_compute in Heq. discriminate Heq.
Qed.

(** C3, amended: in every import mode, running the pass again on the
    dictionary it returned, or on any dictionary that keeps the roots and
    bones of that dictionary, returns that dictionary as it is; outside
    the skeleton branch, so does running it on the subtree of a block the
    pass has called itself on from its start block; and if no list held a
    bone twice before the pass, none does after it. *)
Theorem classification_is_idempotent
    (ctx : NifImport) (g : NifGraph) (k : nat) (n : BlockId) (d0 d : Dict) :
  mark_armatures_bones ctx g k n d0 = Ok d ->
  mark_armatures_bones ctx g k n d = Ok d
  ∧ (∀ d', extends d d' -> mark_armatures_bones ctx g k n d' = Ok d')
  ∧ (skeleton_branch ctx = false ->
     ∀ c, c ∈ get_refs (g n) -> is_a g c NiAVObject = true ->
          mark_armatures_bones ctx g (pred k) c d = Ok d)
  ∧ (no_duplicates d0 -> no_duplicates d).
Proof.
  intros Hrun.
  destruct (absorbed_mark_armatures_bones _ _ _ _ _ _ Hrun) as [_ Hagain].
  split_and!.
  - apply Hagain, extends_refl.
  - exact Hagain.
  - intros Hbr c Hc Hav. destruct k as [|k]; [discriminate|].
    simpl in Hrun |- *. rewrite Hbr in Hrun.
    inv_bind Hrun as st Hst. inv_bind Hrun as d1 Hskin.
    pose proof (for_each_absorbed_again
                  (fun d child =>
                     if negb (is_a g child NiAVObject) then Ok d
                     else mark_armatures_bones ctx g k child d)
                  (get_refs (g n)) d1 d) as Heach.
    cbv beta in Heach. specialize (Heach ltac:(
      intros x _; destruct (negb (is_a g x NiAVObject));
      [apply absorbed_ok|apply absorbed_mark_armatures_bones]) Hrun c Hc).
    by rewrite Hav in Heach.
  - intros Hnd. by eapply mark_keeps_no_duplicates.
Qed.

(** The file [gap_skeleton] imported with the mode [EVERYTHING]: the
    second run, the run on the subtree of the skinned shape 4, and the one
    list of the result. *)
Lemma classification_is_idempotent_witness :
  mark_armatures_bones import_everything gap_skeleton 10 0
    {[0 := [1; 3; 2]]} = Ok {[0 := [1; 3; 2]]}
  ∧ mark_armatures_bones import_everything gap_skeleton 9 4
      {[0 := [1; 3; 2]]} = Ok {[0 := [1; 3; 2]]}
  ∧ no_duplicates ({[0 := [1; 3; 2]]} : Dict).
Proof.
  destruct (classification_is_idempotent import_everything gap_skeleton
              10 0 ∅ ({[0 := [1; 3; 2]]} : Dict))
    as (Hsame & _ & Hsub & Hnd).
  - vm_compute. reflexivity.
  - split_and!.
    + exact Hsame.
    + apply (Hsub eq_refl 4).
      * apply (bool_decide_unpack _). vm_compute. reflexivity.
      * reflexivity.
    + apply Hnd. intros r l Hl. rewrite lookup_empty in Hl. discriminate.
Defined.

(** ** LOD nodes (C5) *)

(** C5, at the failing input: the skin of [lod_skinned] refers to the
    bone 2 whose parent is the LOD node 1; [complete_bone_tree] registers
    the LOD node as a bone of the root 0. *)
Lemma lod_node_registered_by_completion :
  mark_armatures_bones import_everything lod_skinned 10 0 ∅
    = Ok {[0 := [2; 1]]}
  ∧ is_a lod_skinned 1 NiLODNode = true
  ∧ registered ({[0 := [2; 1]]} : Dict) 0 1.
Proof.
  split_and!; [by vm_compute|done|]. by apply (bool_decide_unpack _).
Qed.

(** ** Incompatible skeleton (C7) *)



(** In the mode [GEOMETRY_ONLY] a skin whose skeleton root is not in the
    dictionary always stops the pass; the exception is the [NifError] only
    where the local [b_armature_obj] is bound. *)
Lemma geometry_only_foreign_skin ctx g k n obj s r (d : Dict) :
  props_skeleton ctx = GEOMETRY_ONLY ->
  is_a g n NiTriBasedGeom = true ->
  skin_instance (g n) = Some s ->
  skeleton_root s = Some r ->
  d !! r = None ->
  mark_skin ctx g k n obj d =
    match obj with
    | None => Raise UnboundLocalError
    | Some _ => Raise (NifError "nif structure incompatible with armature")
    end.
Proof.
  intros Hmode Hgeom Hskin Hroot Hnone. unfold mark_skin, check_skelroot.
  rewrite Hgeom, Hskin, Hmode, Hroot.
  rewrite decide_False by (rewrite Hnone; by intros [? ?]).
  by destruct obj.
Qed.



(** ** [is_bone] (C10) *)

Lemma is_bone_loop_true values b :
  is_bone_loop values b = PyBool true ↔ ∃ l, l ∈ values ∧ b ∈ l.
Proof.
  induction values as [|l values IH]; simpl.
  - split; [discriminate | by intros (? & ?%elem_of_nil & _)].
  - destruct (decide (b ∈ l)) as [Hin|Hin].
    + split; [|done]. intros _. exists l. split; [left|done].
    + rewrite IH. split.
      * intros (l' & ? & ?). exists l'. split; [by right|done].
      * intros (l' & [->|?]%elem_of_cons & ?); [done|eauto].
Qed.

Lemma is_bone_loop_cases values b :
  is_bone_loop values b = PyBool true ∨ is_bone_loop values b = PyNone.
Proof.
  induction values as [|l values IH]; simpl; [by right|].
  destruct (decide (b ∈ l)); [by left|done].
Qed.

(** C10: [is_bone] returns [False] on [None] and raises nothing; on a
    block it returns [True] exactly when the block is in the list of some
    root, and otherwise it returns [None], which is falsy. *)
Theorem is_bone_total_and_exact (d : Dict) :
  is_bone d None = PyBool false
  ∧ (∀ b, is_bone d (Some b) = PyBool true ↔ ∃ r, registered d r b)
  ∧ (∀ b, is_bone d (Some b) = PyBool true
          ∨ (is_bone d (Some b) = PyNone
             ∧ truthy (is_bone d (Some b)) = false)).
Proof.
  split_and!; [done| |].
  - intros b. unfold is_bone, registered. rewrite is_bone_loop_true. split.
    + intros (l & Hl & Hb).
      apply list_elem_of_fmap in Hl as ([r l'] & -> & Hrl).
      apply elem_of_map_to_list in Hrl. by exists r, l'.
    + intros (r & l & Hl & Hb). exists l. split; [|done].
      apply list_elem_of_fmap. exists (r, l). split; [done|].
      by apply elem_of_map_to_list.
  - intros b. unfold is_bone.
    destruct (is_bone_loop_cases ((map_to_list d).*2) b) as [H|H];
      [by left|right]. by rewrite H.
Qed.

(** The query on the result of [lod_skinned]. *)
Lemma is_bone_total_and_exact_witness :
  is_bone ({[0 := [2; 1]]} : Dict) None = PyBool false
  ∧ is_bone ({[0 := [2; 1]]} : Dict) (Some 1) = PyBool true.
Proof.
  destruct (is_bone_total_and_exact ({[0 := [2; 1]]} : Dict))
    as (Hnone & Hiff & _).
  split; [exact Hnone|].
  apply Hiff. exists 0. apply (bool_decide_unpack _). vm_compute.
  reflexivity.
Defined.

(** ** The skeleton branch (C9) *)

Lemma legacy_skeleton_file_true ctx :
  legacy_skeleton_file ctx = true ↔
  (data_version ctx = 0x14000005%Z ∨ data_version ctx = 0x14020007%Z)
  ∧ (str_lower ctx (os_path_basename ctx (props_filepath ctx))
     = "skeleton.nif"
     ∨ str_lower ctx (os_path_basename ctx (props_filepath ctx))
       = "skeletonbeast.nif").
Proof.
  unfold legacy_skeleton_file.
  rewrite andb_true_iff, !bool_decide_eq_true, !elem_of_cons, !elem_of_nil.
  tauto.
Qed.

Lemma collect_ext {A B} (f f' : A -> Result B) xs :
  (∀ x, f x = f' x) -> collect f xs = collect f' xs.
Proof.
  intros H. induction xs as [|x xs IH]; simpl; [done|].
  by rewrite H, IH.
Qed.

Lemma for_each_ext {S A} (f f' : S -> A -> Result S) xs s :
  (∀ s x, f s x = f' s x) -> for_each f xs s = for_each f' xs s.
Proof.
  intros H. revert s. induction xs as [|x xs IH]; intros s; simpl; [done|].
  rewrite H. destruct (f' s x); simpl; [apply IH|done].
Qed.

Lemma tree_same_shape g g' k b :
  same_shape g g' -> tree g' k b = tree g k b.
Proof.
  intros Hs. revert b. induction k as [|k IH]; intros b; simpl; [done|].
  destruct (Hs b) as [_ ->]. by rewrite (collect_ext _ _ _ IH).
Qed.

Lemma populate_same_shape ctx g g' k r (d : Dict) :
  same_shape g g' ->
  populate_bone_tree ctx g' k r d = populate_bone_tree ctx g k r d.
Proof.
  intros Hs. unfold populate_bone_tree.
  rewrite (tree_same_shape _ _ _ _ Hs).
  destruct (tree g k r) as [t|]; simpl; [|done].
  apply for_each_ext. intros s x. unfold populate_step, is_a.
  by destruct (Hs x) as [-> _].
Qed.

(** Populating a root that is in the dictionary raises only if the
    traversal does. *)
Lemma populate_bone_tree_total ctx g k r t (d : Dict) :
  tree g k r = Ok t -> is_Some (d !! r) ->
  ∃ d', populate_bone_tree ctx g k r d = Ok d'.
Proof.
  intros Ht Hs. unfold populate_bone_tree. rewrite Ht. simpl.
  destruct (for_each_total (fun d : Dict => is_Some (d !! r))
              (populate_step ctx g r) t) with (s := d)
    as (d' & Hd' & _); [|done|eauto].
  intros s x _ [l Hl]. unfold populate_step, dict_add. rewrite Hl.
  repeat case_match; (eexists; split; [reflexivity|]);
    rewrite ?lookup_insert_eq; eauto.
Qed.

(** On a legacy skeleton file the pass is the skeleton branch, with the
    block itself as the skeleton root. *)
Lemma mark_legacy_skeleton ctx g k n (d : Dict) :
  legacy_skeleton_file ctx = true ->
  mark_armatures_bones ctx g (S k) n d =
    if negb (is_a g n NiNode) then
      Raise (NifError "cannot import skeleton: root is not a NiNode")
    else
      populate_bone_tree ctx g k n
        (if decide (is_Some (d !! n)) then d else <[n := []]> d).
Proof.
  intros Hleg. simpl. unfold skeleton_branch. rewrite Hleg, orb_true_r.
  unfold mark_skeleton. destruct (negb (is_a g n NiNode)); [done|].
  apply legacy_skeleton_file_true in Hleg as [Hv _].
  rewrite bool_decide_eq_false_2; [done|].
  intros Heq. rewrite Heq in Hv. by destruct Hv.
Qed.

(** C9, as stated, fails: in the legacy skeleton file [grouped_skeleton]
    imported with the mode [EVERYTHING], the node 1 is reachable and of
    the plain-transform type, and it is not registered, because the host
    classifies it as a grouping node. *)
Lemma legacy_skeleton_skips_grouping_node :
  props_skeleton import_legacy_skeleton = EVERYTHING
  ∧ legacy_skeleton_file import_legacy_skeleton = true
  ∧ tree grouped_skeleton 9 0 = Ok [0; 1; 2]
  ∧ plain_transform grouped_skeleton 1
  ∧ mark_armatures_bones import_legacy_skeleton grouped_skeleton 10 0 ∅
      = Ok {[0 := []]}
  ∧ ¬ registered ({[0 := []]} : Dict) 0 1.
Proof.
  split_and!; [done|by vm_compute|by vm_compute|done|by vm_compute|].
  by apply (bool_decide_eq_false_1 _).
Qed.

(** C9, amended: whatever the import mode, when the version of the file is
    0x14000005 or 0x14020007 and the lowercased basename of its path, as
    the platform's [os.path.basename] and [str.lower] give it, is
    skeleton.nif or skeletonbeast.nif, the pass on a file without cycle
    (the recursion limit allowing) fails with a [NifError] when the block
    it starts from is not a NiNode; when it is one, the pass returns; it
    registers under that block every other block of its tree that is a
    NiNode and neither a LOD node nor a grouping node, and nothing else; on
    an empty dictionary the block is the only root; and the outcome is the
    same on any file with the same classes and references, whatever its
    skin instances and parent links. *)
Theorem legacy_skeleton_file_takes_skeleton_branch
    (ctx : NifImport) (g : NifGraph) (rank : BlockId -> nat) (k : nat)
    (n : BlockId) (d0 : Dict) :
  (data_version ctx = 0x14000005%Z ∨ data_version ctx = 0x14020007%Z) ->
  (str_lower ctx (os_path_basename ctx (props_filepath ctx))
   = "skeleton.nif"
   ∨ str_lower ctx (os_path_basename ctx (props_filepath ctx))
     = "skeletonbeast.nif") ->
  ranked g rank -> rank n < k ->
  if is_a g n NiNode then
    ∃ t d,
      tree g k n = Ok t
      ∧ mark_armatures_bones ctx g (S k) n d0 = Ok d
      ∧ (∀ x, x ∈ t -> x ≠ n -> eligible ctx g x -> registered d n x)
      ∧ (∀ r x, registered d r x ->
                registered d0 r x
                ∨ (r = n ∧ x ∈ t ∧ x ≠ n ∧ eligible ctx g x))
      ∧ (d0 = ∅ -> dom d = {[n]})
      ∧ (∀ g', same_shape g g' ->
               mark_armatures_bones ctx g' (S k) n d0 = Ok d)
  else
    ∀ g', same_shape g g' ->
          mark_armatures_bones ctx g' (S k) n d0
          = Raise (NifError "cannot import skeleton: root is not a NiNode").
Proof.
  intros Hv Hp Hrk Hlt.
  assert (Hleg : legacy_skeleton_file ctx = true)
    by (by apply legacy_skeleton_file_true).
  destruct (is_a g n NiNode) eqn:Hnode.
  2:{ intros g' Hs. rewrite mark_legacy_skeleton by done.
      unfold is_a. destruct (Hs n) as [-> _]. fold (is_a g n NiNode).
      by rewrite Hnode. }
  destruct (tree_total _ _ _ _ Hrk Hlt) as [t Ht].
  set (d1 := if decide (is_Some (d0 !! n)) then d0 else <[n := []]> d0).
  assert (Hs1 : is_Some (d1 !! n)).
  { unfold d1. destruct (decide (is_Some (d0 !! n))); [done|].
    rewrite lookup_insert_eq. eauto. }
  destruct (populate_bone_tree_total ctx _ _ _ _ d1 Ht Hs1) as [d Hd].
  assert (Hrun : ∀ g', same_shape g g' ->
                       mark_armatures_bones ctx g' (S k) n d0 = Ok d).
  { intros g' Hs. rewrite mark_legacy_skeleton by done.
    unfold is_a. destruct (Hs n) as [-> _]. fold (is_a g n NiNode).
    rewrite Hnode. simpl. by rewrite (populate_same_shape _ _ _ _ _ _ Hs). }
  exists t, d. split; [done|]. split; [by apply Hrun|].
  destruct (populate_bone_tree_spec _ _ _ _ _ _ Hd Hs1)
    as (t' & Ht' & Hg & Hall).
  assert (t' = t) by congruence. subst t'. split_and!.
  - exact Hall.
  - intros r x Hx.
    destruct (proj1 (grown_registered _ _ _ _ r x Hg) Hx)
      as [Hold|(-> & Hnew & _)]; [|by right].
    left. unfold d1 in Hold.
    destruct (decide (is_Some (d0 !! n))) as [|Hnone]; [done|].
    apply registered_new_root in Hold as [_ ?]; [done|].
    by apply eq_None_not_Some.
  - intros ->. destruct Hg as (l & ext & Hl & -> & _).
    unfold d1. rewrite decide_False
      by (rewrite lookup_empty; by intros [? ?]).
    rewrite insert_insert_eq, dom_insert_L, dom_empty_L.
    apply (right_id_L _ _).
  - exact Hrun.
Qed.

Lemma gap_skeleton_ranked : ranked gap_skeleton (fun i => 5 - i).
Proof.
  intros q x Hx. destruct q as [|[|[|[|[|q]]]]]; simpl in Hx; each_ref Hx;
    simpl; lia.
Qed.

(** The file [gap_skeleton] as the skeleton file of an import on Windows,
    with the mode [EVERYTHING] and the node 1 a grouping node: the pass
    registers the nodes 2 and 3 under the block 0 and leaves out the node
    1, which the skin of the shape 4 names as a bone.  Started on the
    shape 4, it fails. *)
Lemma legacy_skeleton_file_takes_skeleton_branch_witness :
  str_lower import_legacy_skeleton_windows
    (os_path_basename import_legacy_skeleton_windows
       (props_filepath import_legacy_skeleton_windows)) = "skeleton.nif"
  ∧ (∃ t d,
      tree gap_skeleton 9 0 = Ok t
      ∧ mark_armatures_bones import_legacy_skeleton_windows gap_skeleton
          10 0 ∅ = Ok d
      ∧ registered d 0 2 ∧ registered d 0 3
      ∧ ¬ registered d 0 1
      ∧ dom d = {[0]})
  ∧ mark_armatures_bones import_legacy_skeleton_windows gap_skeleton 10 4 ∅
    = Raise (NifError "cannot import skeleton: root is not a NiNode").
Proof.
  assert (Hname : str_lower import_legacy_skeleton_windows
            (os_path_basename import_legacy_skeleton_windows
               (props_filepath import_legacy_skeleton_windows))
          = "skeleton.nif") by (vm_compute; reflexivity).
  split; [exact Hname|]. split.
  - pose proof (legacy_skeleton_file_takes_skeleton_branch
                  import_legacy_skeleton_windows gap_skeleton
                  (fun i => 5 - i) 9 0 ∅ (or_introl eq_refl)
                  (or_introl Hname) gap_skeleton_ranked ltac:(simpl; lia))
      as Hnode.
    change (is_a gap_skeleton 0 NiNode) with true in Hnode.
    destruct Hnode as (t & d & Ht & Hd & Hreg & Honly & Hdom & _).
    exists t, d. split_and!; [exact Ht|exact Hd| | | |by apply Hdom].
    + apply Hreg; [|discriminate|by repeat split].
      vm_compute in Ht. injection Ht as <-.
      apply (bool_decide_unpack _). vm_compute. reflexivity.
    + apply Hreg; [|discriminate|by repeat split].
      vm_compute in Ht. injection Ht as <-.
      apply (bool_decide_unpack _). vm_compute. reflexivity.
    + intros H1. destruct (Honly 0 1 H1) as [(l & Hl & _)|(_ & _ & _ & He)].
      * rewrite lookup_empty in Hl. discriminate Hl.
      * destruct He as (_ & _ & Hgroup). vm_compute in Hgroup.
        discriminate Hgroup.
  - pose proof (legacy_skeleton_file_takes_skeleton_branch
                  import_legacy_skeleton_windows gap_skeleton
                  (fun i => 5 - i) 9 4 ∅ (or_introl eq_refl)
                  (or_introl Hname) gap_skeleton_ranked ltac:(simpl; lia))
      as Hshape.
    change (is_a gap_skeleton 4 NiNode) with false in Hshape.
    apply Hshape. by intros i.
Defined.

(** ** The pass over the edit bones *)

Section FixBoneLengthsFacts.
Context {Vector : Type} `{Mathutils Vector}.
Implicit Types σ : BoneId -> EditBone Vector.

Lemma same_geometry_refl σ : same_geometry σ σ.
Proof. by intros j. Qed.

Lemma same_geometry_trans σ1 σ2 σ3 :
  same_geometry σ1 σ2 -> same_geometry σ2 σ3 -> same_geometry σ1 σ3.
Proof.
  intros H12 H23 j. destruct (H12 j) as (? & ? & ? & ?).
  destruct (H23 j) as (? & ? & ? & ?). split_and!; congruence.
Qed.

Lemma fix_bone_length_geometry σ i : same_geometry σ (fix_bone_length σ i).
Proof.
  intros j. unfold fix_bone_length.
  destruct (eb_parent (σ i)); [|done].
  destruct (decide (i = j)) as [->|Hne].
  - by rewrite fn_lookup_insert.
  - by rewrite fn_lookup_insert_ne.
Qed.

Lemma fix_bone_length_other σ i j :
  i ≠ j -> fix_bone_length σ i j = σ j.
Proof.
  intros Hne. unfold fix_bone_length.
  destruct (eb_parent (σ i)); [|done]. by rewrite fn_lookup_insert_ne.
Qed.

Lemma fix_bone_length_root σ i j :
  eb_parent (σ j) = None -> fix_bone_length σ i j = σ j.
Proof.
  intros Hroot. destruct (decide (i = j)) as [->|Hne].
  - unfold fix_bone_length. by rewrite Hroot.
  - by rewrite fix_bone_length_other.
Qed.

Lemma fix_bone_length_leaf σ i p :
  eb_parent (σ i) = Some p -> eb_children (σ i) = [] ->
  fix_bone_length σ i i = set_length (σ i) (eb_length (σ p)).
Proof.
  intros Hp Hc. unfold fix_bone_length. rewrite Hp, Hc.
  by rewrite fn_lookup_insert.
Qed.

Lemma fix_bone_length_internal σ i p c cs :
  eb_parent (σ i) = Some p -> eb_children (σ i) = c :: cs ->
  fix_bone_length σ i i
  = set_length (σ i) (with_fallback (distance_to_mean_child_head σ i)).
Proof.
  intros Hp Hc. unfold fix_bone_length. rewrite Hp, fn_lookup_insert.
  unfold distance_to_mean_child_head, mean_child_head, with_fallback.
  by rewrite Hc.
Qed.

Lemma mean_child_head_geometry σ σ' i :
  same_geometry σ σ' -> mean_child_head σ' i = mean_child_head σ i.
Proof.
  intros Hg. unfold mean_child_head.
  destruct (Hg i) as (_ & _ & _ & ->). f_equal.
  generalize (Vector_new : Vector).
  induction (eb_children (σ i)) as [|c cs IH]; intros acc; simpl; [done|].
  destruct (Hg c) as (-> & _). apply IH.
Qed.

Lemma distance_geometry σ σ' i :
  same_geometry σ σ' ->
  distance_to_mean_child_head σ' i = distance_to_mean_child_head σ i.
Proof.
  intros Hg. unfold distance_to_mean_child_head.
  destruct (Hg i) as (-> & _). by rewrite (mean_child_head_geometry _ _ _ Hg).
Qed.

Lemma fix_bone_lengths_geometry edit_bones σ :
  same_geometry σ (fix_bone_lengths edit_bones σ).
Proof.
  revert σ. induction edit_bones as [|i l IH]; intros σ; simpl.
  - apply same_geometry_refl.
  - eapply same_geometry_trans; [apply fix_bone_length_geometry|apply IH].
Qed.

Lemma fix_bone_lengths_other edit_bones σ j :
  j ∉ edit_bones -> fix_bone_lengths edit_bones σ j = σ j.
Proof.
  revert σ. induction edit_bones as [|i l IH]; intros σ Hj; simpl; [done|].
  apply not_elem_of_cons in Hj as [Hne Hj].
  rewrite IH by done. by apply fix_bone_length_other.
Qed.

Lemma fix_bone_lengths_root edit_bones σ j :
  eb_parent (σ j) = None -> fix_bone_lengths edit_bones σ j = σ j.
Proof.
  revert σ. induction edit_bones as [|i l IH]; intros σ Hroot; simpl;
    [done|].
  rewrite IH; rewrite fix_bone_length_root; done.
Qed.

Lemma fix_bone_lengths_app l1 l2 σ :
  fix_bone_lengths (l1 ++ l2) σ
    = fix_bone_lengths l2 (fix_bone_lengths l1 σ).
Proof. apply foldl_app. Qed.

(** A bone that is once in the list is written once. *)
Lemma fix_bone_lengths_once l1 l2 σ i :
  i ∉ l2 ->
  fix_bone_lengths (l1 ++ i :: l2) σ i
  = fix_bone_length (fix_bone_lengths l1 σ) i i.
Proof.
  intros Hi. rewrite fix_bone_lengths_app. simpl.
  by rewrite fix_bone_lengths_other.
Qed.
End FixBoneLengthsFacts.

(** ** Internal bones (C4) *)

(** C4, as stated, fails: the bone 1 of [fork_armature] has a parent and
    two children at distance 1 from its head, so the mean distance to the
    heads of its children is 1; the pass measures the distance to the mean
    of the heads, which is 0, and sets the fallback length 0.25. *)
Lemma internal_length_is_not_mean_distance :
  eb_length (fix_bone_lengths [0; 1; 2; 3] fork_armature 1) = 0.25%float
  ∧ mean_child_distance fork_armature 1 = 1%float
  ∧ with_fallback (mean_child_distance fork_armature 1) = 1%float
  ∧ eb_length (fix_bone_lengths [0; 1; 2; 3] fork_armature 1)
      ≠ with_fallback (mean_child_distance fork_armature 1).
Proof.
  assert (H1 : eb_length (fix_bone_lengths [0; 1; 2; 3] fork_armature 1)
               = 0.25%float) by (by vm_compute).
  assert (H2 : mean_child_distance fork_armature 1 = 1%float)
    by (by vm_compute).
  assert (H3 : with_fallback (mean_child_distance fork_armature 1)
               = 1%float) by (by vm_compute).
  split_and!; [done..|]. rewrite H1, H3. intros Heq.
  assert (Hlt : PrimFloat.ltb 0.25 1 = true) by reflexivity.
  rewrite Heq in Hlt. discriminate Hlt.
Qed.

(** C4, amended: the pass sets the length of an edit bone that has a
    parent and at least one child to the distance from its head to the
    mean of the heads of its children, or to 0.25 when that distance is
    below 0.01; the host sets a length along the bone's own orientation,
    by moving the tail to [head + (tail - head).normalized() * length], and
    the head, the roll and the links of the bone stay.  The bone is once
    among the edit bones. *)
Theorem internal_bone_length
    {Vector : Type} `{Mathutils Vector}
    (l1 l2 : list BoneId) (σ : BoneId -> EditBone Vector)
    (i p c : BoneId) (cs : list BoneId) :
  i ∉ l1 -> i ∉ l2 ->
  eb_parent (σ i) = Some p ->
  eb_children (σ i) = c :: cs ->
  fix_bone_lengths (l1 ++ i :: l2) σ i
  = set_length (σ i)
      (if PrimFloat.ltb (distance_to_mean_child_head σ i) 0.01
       then 0.25%float else distance_to_mean_child_head σ i)
  ∧ eb_tail (fix_bone_lengths (l1 ++ i :: l2) σ i)
    = vec_add (eb_head (σ i))
        (vec_mul (vec_normalized (vec_sub (eb_tail (σ i)) (eb_head (σ i))))
           (if PrimFloat.ltb (distance_to_mean_child_head σ i) 0.01
            then 0.25%float else distance_to_mean_child_head σ i)).
Proof.
  intros Hi1 Hi2 Hp Hc.
  assert (Heq : fix_bone_lengths (l1 ++ i :: l2) σ i
                = set_length (σ i)
                    (with_fallback (distance_to_mean_child_head σ i))).
  { rewrite fix_bone_lengths_once by done.
    pose proof (fix_bone_lengths_geometry l1 σ) as Hg.
    pose proof (fix_bone_lengths_other l1 σ i Hi1) as Hsame.
    rewrite (fix_bone_length_internal _ i p c cs) by (by rewrite Hsame).
    by rewrite (distance_geometry _ _ _ Hg), Hsame. }
  split; [exact Heq|]. by rewrite Heq.
Qed.

(** The bone 1 of [spread_armature]: the mean of the heads of its two
    children is at the distance 2.5 from its head, the mean of their
    distances is 3.5; its length gets 2.5, and its tail moves from
    (0, 1, 0) to (0, 2.5, 0). *)
Lemma internal_bone_length_witness :
  eb_length (fix_bone_lengths ([0] ++ 1 :: [2; 3]) spread_armature 1)
  = 2.5%float
  ∧ eb_tail (fix_bone_lengths ([0] ++ 1 :: [2; 3]) spread_armature 1)
    = {| vx := 0; vy := 2.5; vz := 0 |}
  ∧ distance_to_mean_child_head spread_armature 1 = 2.5%float
  ∧ mean_child_distance spread_armature 1 = 3.5%float.
Proof.
  destruct (internal_bone_length [0] [2; 3] spread_armature 1 0 2 [3])
    as [Heq Htail].
  - apply (bool_decide_unpack _). vm_compute. reflexivity.
  - apply (bool_decide_unpack _). vm_compute. reflexivity.
  - reflexivity.
  - reflexivity.
  - rewrite Heq. split_and!; vm_compute; reflexivity.
Defined.

(** ** Leaf bones (C6) *)

(** C6, as stated, fails: the bone 1 of [flat_leaf_armature] has a parent
    of length 2 and no children, and its tail is at its head.  The pass
    assigns it the length 2, which the host applies along the direction of
    the bone; a bone without direction stays where it is, and its length
    after the pass is 0. *)
Lemma leaf_length_is_not_parent_length :
  eb_parent (flat_leaf_armature 1) = Some 0
  ∧ eb_children (flat_leaf_armature 1) = []
  ∧ eb_length (flat_leaf_armature 0) = 2%float
  ∧ eb_length (fix_bone_lengths [0; 1] flat_leaf_armature 0) = 2%float
  ∧ eb_length (fix_bone_lengths [0; 1] flat_leaf_armature 1) = 0%float
  ∧ eb_length (fix_bone_lengths [0; 1] flat_leaf_armature 1)
    ≠ eb_length (fix_bone_lengths [0; 1] flat_leaf_armature 0).
Proof.
  assert (H0 : eb_length (fix_bone_lengths [0; 1] flat_leaf_armature 0)
               = 2%float) by (by vm_compute).
  assert (H1 : eb_length (fix_bone_lengths [0; 1] flat_leaf_armature 1)
               = 0%float) by (by vm_compute).
  split_and!; [done|done|by vm_compute|done|done|].
  rewrite H0, H1. intros Heq.
  assert (Hlt : PrimFloat.ltb 0 2 = true) by reflexivity.
  rewrite Heq in Hlt. discriminate Hlt.
Qed.

(** C6, amended: the pass sets the length of a bone with a parent and no
    children, once among the edit bones, to the length its parent has
    when the loop reaches the bone; that is the length the parent came
    with when the parent has no parent itself, and the length of the
    parent after the pass when the parent does not come later in the list
    (the importer creates parents first).  The host sets the length along
    the bone's own orientation, by moving the tail to
    [head + (tail - head).normalized() * length]. *)
Theorem leaf_bone_inherits_parent_length
    {Vector : Type} `{Mathutils Vector}
    (l1 l2 : list BoneId) (σ : BoneId -> EditBone Vector) (i p : BoneId) :
  eb_parent (σ i) = Some p ->
  eb_children (σ i) = [] ->
  i ∉ l1 -> i ∉ l2 ->
  fix_bone_lengths (l1 ++ i :: l2) σ i
  = set_length (σ i) (eb_length (fix_bone_lengths l1 σ p))
  ∧ eb_tail (fix_bone_lengths (l1 ++ i :: l2) σ i)
    = vec_add (eb_head (σ i))
        (vec_mul (vec_normalized (vec_sub (eb_tail (σ i)) (eb_head (σ i))))
           (eb_length (fix_bone_lengths l1 σ p)))
  ∧ (eb_parent (σ p) = None ->
     eb_length (fix_bone_lengths l1 σ p) = eb_length (σ p)
     ∧ fix_bone_lengths (l1 ++ i :: l2) σ p = σ p)
  ∧ (p ≠ i -> p ∉ l2 ->
     eb_length (fix_bone_lengths l1 σ p)
     = eb_length (fix_bone_lengths (l1 ++ i :: l2) σ p)).
Proof.
  intros Hp Hc Hi1 Hi2.
  assert (Heq : fix_bone_lengths (l1 ++ i :: l2) σ i
                = set_length (σ i) (eb_length (fix_bone_lengths l1 σ p))).
  { rewrite fix_bone_lengths_once by done.
    pose proof (fix_bone_lengths_other l1 σ i Hi1) as Hsame.
    rewrite (fix_bone_length_leaf _ i p) by (by rewrite Hsame).
    by rewrite Hsame. }
  split_and!.
  - exact Heq.
  - by rewrite Heq.
  - intros Hroot. by rewrite !fix_bone_lengths_root.
  - intros Hne Hp2. rewrite (fix_bone_lengths_app l1).
    simpl. rewrite (fix_bone_lengths_other l2) by done.
    by rewrite fix_bone_length_other.
Qed.

(** The last bone of [chain_armature]: its parent, the bone 1, gets the
    length 2 before the loop reaches it, and it gets that length: its tail
    moves from (0, 4, 0) to (0, 5, 0). *)
Lemma leaf_bone_inherits_parent_length_witness :
  eb_length (fix_bone_lengths [0; 1] chain_armature 1) = 2%float
  ∧ eb_length (fix_bone_lengths ([0; 1] ++ 2 :: []) chain_armature 1)
    = 2%float
  ∧ eb_length (fix_bone_lengths ([0; 1] ++ 2 :: []) chain_armature 2)
    = 2%float
  ∧ eb_tail (fix_bone_lengths ([0; 1] ++ 2 :: []) chain_armature 2)
    = {| vx := 0; vy := 5; vz := 0 |}.
Proof.
  destruct (leaf_bone_inherits_parent_length [0; 1] [] chain_armature 2 1)
    as (Heq & Htail & _ & Hafter).
  - reflexivity.
  - reflexivity.
  - apply (bool_decide_unpack _). vm_compute. reflexivity.
  - apply (bool_decide_unpack _). vm_compute. reflexivity.
  - rewrite <- Hafter, Heq.
    + split_and!; vm_compute; reflexivity.
    + discriminate.
    + apply (bool_decide_unpack _). vm_compute. reflexivity.
Defined.

(** ** What the pass leaves alone (C8) *)

(** C8, as stated, fails: the bone 1 of [chain_armature] has a parent, and
    the pass, which sets its length to 2, moves its tail from (0, 2, 0) to
    (0, 3, 0): the host has no length to write but the place of the
    tail. *)
Lemma fix_bone_lengths_moves_tails :
  eb_parent (chain_armature 1) = Some 0
  ∧ eb_tail (chain_armature 1) = {| vx := 0; vy := 2; vz := 0 |}
  ∧ eb_tail (fix_bone_lengths [0; 1; 2] chain_armature 1)
    = {| vx := 0; vy := 3; vz := 0 |}
  ∧ eb_tail (fix_bone_lengths [0; 1; 2] chain_armature 1)
    ≠ eb_tail (chain_armature 1).
Proof.
  assert (H0 : eb_tail (chain_armature 1) = {| vx := 0; vy := 2; vz := 0 |})
    by (by vm_compute).
  assert (H1 : eb_tail (fix_bone_lengths [0; 1; 2] chain_armature 1)
               = {| vx := 0; vy := 3; vz := 0 |}) by (by vm_compute).
  split_and!; [done..|]. rewrite H0, H1. intros Heq.
  apply (f_equal vy) in Heq. simpl in Heq.
  assert (Hlt : PrimFloat.ltb 2 3 = true) by reflexivity.
  rewrite Heq in Hlt. discriminate Hlt.
Qed.

(** C8, amended: the pass leaves a bone without parent as it is, head,
    tail, roll and so its length, and likewise a bone that is not among
    the edit bones; of every bone it leaves the head, the roll and the
    links to parent and children; what it writes is the tail of the bones
    with a parent. *)
Theorem fix_bone_lengths_frame
    {Vector : Type} `{Mathutils Vector}
    (edit_bones : list BoneId) (σ : BoneId -> EditBone Vector) (i : BoneId) :
  (eb_parent (σ i) = None ->
   fix_bone_lengths edit_bones σ i = σ i
   ∧ eb_length (fix_bone_lengths edit_bones σ i) = eb_length (σ i))
  ∧ (i ∉ edit_bones -> fix_bone_lengths edit_bones σ i = σ i)
  ∧ eb_head (fix_bone_lengths edit_bones σ i) = eb_head (σ i)
  ∧ eb_roll (fix_bone_lengths edit_bones σ i) = eb_roll (σ i)
  ∧ eb_parent (fix_bone_lengths edit_bones σ i) = eb_parent (σ i)
  ∧ eb_children (fix_bone_lengths edit_bones σ i) = eb_children (σ i)
  ∧ (eb_tail (fix_bone_lengths edit_bones σ i) ≠ eb_tail (σ i) ->
     i ∈ edit_bones ∧ is_Some (eb_parent (σ i))).
Proof.
  destruct (fix_bone_lengths_geometry edit_bones σ i)
    as (Hh & Hr & Hp & Hc).
  split_and!; try done.
  - intros Hroot. by rewrite fix_bone_lengths_root.
  - apply fix_bone_lengths_other.
  - intros Hne. split.
    + destruct (decide (i ∈ edit_bones)) as [|Hout]; [done|].
      by rewrite fix_bone_lengths_other in Hne.
    + destruct (eb_parent (σ i)) as [p|] eqn:Hpar; [eauto|].
      by rewrite fix_bone_lengths_root in Hne.
Qed.

(** The root bone of [chain_armature], and a bone that is not among its
    edit bones. *)
Lemma fix_bone_lengths_frame_witness :
  fix_bone_lengths [0; 1; 2] chain_armature 0 = chain_armature 0
  ∧ eb_length (fix_bone_lengths [0; 1; 2] chain_armature 0)
    = eb_length (chain_armature 0)
  ∧ fix_bone_lengths [0; 1; 2] chain_armature 7 = chain_armature 7.
Proof.
  pose proof (fix_bone_lengths_frame [0; 1; 2] chain_armature 0)
    as (Hroot & _).
  pose proof (fix_bone_lengths_frame [0; 1; 2] chain_armature 7)
    as (_ & Hout & _).
  destruct (Hroot eq_refl) as [Hsame Hlen].
  split_and!; [exact Hsame|exact Hlen|].
  apply Hout. apply (bool_decide_unpack _). vm_compute. reflexivity.
Defined.

(** * Further properties of the classifier *)

(** ** What a pass keeps *)

Lemma is_bone_registered (d : Dict) b :
  is_bone d (Some b) = PyBool true ↔ ∃ r, registered d r b.
Proof.
  unfold is_bone, registered. rewrite is_bone_loop_true. split.
  - intros (l & Hl & Hb).
    apply list_elem_of_fmap in Hl as ([r l'] & -> & Hrl).
    apply elem_of_map_to_list in Hrl. by exists r, l'.
  - intros (r & l & Hl & Hb). exists l. split; [|done].
    apply list_elem_of_fmap. exists (r, l). split; [done|].
    by apply elem_of_map_to_list.
Qed.

Lemma is_armature_root_true g (d : Dict) b :
  is_armature_root g d b = PyBool true
  ↔ is_a g b NiNode = true ∧ is_Some (d !! b).
Proof.
  unfold is_armature_root. destruct (is_a g b NiNode).
  - split.
    + intros [= H]. by apply bool_decide_eq_true_1 in H.
    + intros [_ H]. by rewrite bool_decide_eq_true_2.
  - split; [discriminate|by intros [? _]].
Qed.

Lemma appended_refl (d : Dict) : appended d d.
Proof. intros r l Hl. exists []. by rewrite app_nil_r. Qed.

Lemma appended_trans (d1 d2 d3 : Dict) :
  appended d1 d2 -> appended d2 d3 -> appended d1 d3.
Proof.
  intros H12 H23 r l Hl. destruct (H12 _ _ Hl) as (e1 & He1).
  destruct (H23 _ _ He1) as (e2 & He2). exists (e1 ++ e2).
  by rewrite app_assoc.
Qed.

Lemma grown_appended r Q (d d' : Dict) : grown r Q d d' -> appended d d'.
Proof.
  intros (l & e & Hl & -> & _) r' l' Hl'.
  destruct (decide (r' = r)) as [->|Hne].
  - rewrite Hl in Hl'. inversion Hl'; subst. exists e.
    by rewrite lookup_insert_eq.
  - exists []. by rewrite lookup_insert_ne, app_nil_r.
Qed.

Lemma appended_extends (d d' : Dict) : appended d d' -> extends d d'.
Proof.
  intros H r l Hl. destruct (H _ _ Hl) as (e & He). exists (l ++ e).
  split; [done|]. intros x Hx. apply elem_of_app. by left.
Qed.

Lemma mark_appended ctx g k n (d d' : Dict) :
  mark_armatures_bones ctx g k n d = Ok d' -> appended d d'.
Proof.
  intros H.
  apply (mark_armatures_bones_preserves ctx g (appended d)) in H;
    [done| | | |apply appended_refl].
  - intros d1 r Hd1 Hnone. eapply appended_trans; [exact Hd1|].
    intros r' l Hl. exists []. rewrite app_nil_r.
    rewrite lookup_insert_ne; [done|]. intros ->. congruence.
  - intros k' d1 d2 d3 r b Hd1 [Hatt _]%dict_add_grown Hc.
    apply complete_bone_tree_spec in Hc as (Hg & _).
    eauto using appended_trans, grown_appended.
  - intros k' d1 d2 r Hd1 Hs Hpop.
    destruct (populate_bone_tree_spec _ _ _ _ _ _ Hpop Hs) as (t & _ & Hg & _).
    eauto using appended_trans, grown_appended.
Qed.

(** X1: a pass never removes or reorders anything: every list of the
    dictionary it returns is the list it found with bones appended, and a
    block that [is_bone] or [is_armature_root] accepted before the pass is
    accepted after it. *)
Theorem mark_armatures_bones_only_appends
    (ctx : NifImport) (g : NifGraph) (k : nat) (n : BlockId) (d d' : Dict) :
  mark_armatures_bones ctx g k n d = Ok d' ->
  (∀ r l, d !! r = Some l -> ∃ ext, d' !! r = Some (l ++ ext))
  ∧ (∀ b, is_bone d (Some b) = PyBool true ->
          is_bone d' (Some b) = PyBool true)
  ∧ (∀ b, is_armature_root g d b = PyBool true ->
          is_armature_root g d' b = PyBool true).
Proof.
  intros H. pose proof (mark_appended _ _ _ _ _ _ H) as Happ.
  pose proof (appended_extends _ _ Happ) as Hext.
  split_and!; [exact Happ| |].
  - intros b. rewrite !is_bone_registered. intros [r Hr]. exists r.
    eapply extends_registered; eauto.
  - intros b. rewrite !is_armature_root_true. intros [Hn Hs].
    split; [done|]. eapply extends_is_Some; eauto.
Qed.

(** The inner armature of [nested_armatures] is marked first, then the
    whole file. *)
Lemma mark_armatures_bones_only_appends_witness :
  (∃ ext, ({[0 := [1; 2]; 1 := [2]]} : Dict) !! 1 = Some ([2] ++ ext))
  ∧ is_bone ({[0 := [1; 2]; 1 := [2]]} : Dict) (Some 2) = PyBool true.
Proof.
  destruct (mark_armatures_bones_only_appends import_everything
              nested_armatures 10 0 ({[1 := [2]]} : Dict)
              ({[0 := [1; 2]; 1 := [2]]} : Dict))
    as (Happ & Hbone & _).
  - vm_compute. reflexivity.
  - split.
    + apply Happ. vm_compute. reflexivity.
    + apply Hbone. vm_compute. reflexivity.
Defined.

(** X2: running the pass again, in any mode, on the dictionary it
    returned or on any dictionary that holds at least those roots and
    bones, returns that dictionary unchanged. *)
Theorem mark_armatures_bones_second_run
    (ctx : NifImport) (g : NifGraph) (k : nat) (n : BlockId) (d d' : Dict) :
  mark_armatures_bones ctx g k n d = Ok d' ->
  mark_armatures_bones ctx g k n d' = Ok d'
  ∧ ∀ d'', extends d' d'' -> mark_armatures_bones ctx g k n d'' = Ok d''.
Proof.
  intros H. destruct (absorbed_mark_armatures_bones _ _ _ _ _ _ H) as [_ Ha].
  split; [|exact Ha]. apply Ha, extends_refl.
Qed.

(** The second run on [gap_skeleton]. *)
Lemma mark_armatures_bones_second_run_witness :
  mark_armatures_bones import_everything gap_skeleton 10 0
    ({[0 := [1; 3; 2]]} : Dict) = Ok {[0 := [1; 3; 2]]}.
Proof.
  refine (proj1 (mark_armatures_bones_second_run import_everything
                   gap_skeleton 10 0 ∅ ({[0 := [1; 3; 2]]} : Dict) _)).
  vm_compute. reflexivity.
Defined.

(** X3: outside the mode [GEOMETRY_ONLY] every append is guarded: a pass
    that starts from lists without duplicates returns lists without
    duplicates. *)
Theorem no_bone_listed_twice
    (ctx : NifImport) (g : NifGraph) (k : nat) (n : BlockId) (d d' : Dict) :
  props_skeleton ctx ≠ GEOMETRY_ONLY ->
  (∀ r l, d !! r = Some l -> NoDup l) ->
  mark_armatures_bones ctx g k n d = Ok d' ->
  ∀ r l, d' !! r = Some l -> NoDup l.
Proof. intros _. apply mark_keeps_no_duplicates. Qed.

(** The two lists of [nested_armatures]. *)
Lemma no_bone_listed_twice_witness : NoDup [1; 2].
Proof.
  refine (no_bone_listed_twice import_everything nested_armatures 10 0 ∅
            ({[0 := [1; 2]; 1 := [2]]} : Dict) _ _ _ 0 [1; 2] _).
  - discriminate.
  - intros r l Hl. rewrite lookup_empty in Hl. discriminate.
  - vm_compute. reflexivity.
  - vm_compute. reflexivity.
Defined.

(** ** [complete_bone_tree] and [populate_bone_tree] on their own *)

Lemma grown_dom r Q (d d' : Dict) : grown r Q d d' -> dom d' = dom d.
Proof.
  intros (l & e & Hl & -> & _). rewrite dom_insert_L.
  apply subseteq_union_1_L, singleton_subseteq_l, elem_of_dom. eauto.
Qed.

(** X4: [complete_bone_tree] returns only if [skelroot] is an ancestor of
    the bone; it then has registered under [skelroot] every block between
    the bone and [skelroot], whatever its class, and nothing else: the
    other lists and the set of roots are as before. *)
Theorem complete_bone_tree_marks_chain
    (g : NifGraph) (k : nat) (b r : BlockId) (d d' : Dict) :
  complete_bone_tree g k b r d = Ok d' ->
  ancestor g r b
  ∧ registered d r b
  ∧ (∀ r' x, registered d' r' x
             ↔ registered d r' x ∨ (r' = r ∧ between g r b x))
  ∧ dom d' = dom d.
Proof.
  intros H. destruct (complete_bone_tree_spec _ _ _ _ _ _ H)
    as (Hg & Hreg & Hanc & Hall).
  split_and!; [done|done| |by eapply grown_dom].
  intros r' x. split.
  - intros Hx. destruct (proj1 (grown_registered _ _ _ _ r' x Hg) Hx)
      as [?|(-> & ? & _)]; [by left|by right].
  - intros [Hx|[-> Hx]]; [by eapply grown_keeps|by apply Hall].
Qed.

(** The completion above the bone 3 of [gap_skeleton]. *)
Lemma complete_bone_tree_marks_chain_witness :
  ancestor gap_skeleton 0 3
  ∧ registered ({[0 := [1; 3; 2]]} : Dict) 0 2.
Proof.
  destruct (complete_bone_tree_marks_chain gap_skeleton 10 3 0
              ({[0 := [1; 3]]} : Dict) ({[0 := [1; 3; 2]]} : Dict))
    as (Hanc & _ & Hiff & _).
  - vm_compute. reflexivity.
  - split; [exact Hanc|]. apply Hiff. right. split; [reflexivity|].
    apply between_parent; [reflexivity|lia].
Defined.

(** X5: [complete_bone_tree] returns whenever the bone is registered and
    [skelroot] is met going up from it within the recursion limit. *)
Theorem complete_bone_tree_returns
    (g : NifGraph) (k : nat) (b r : BlockId) (n : nat) (d : Dict) :
  registered d r b -> climbs g r b n -> n < k ->
  ∃ d', complete_bone_tree g k b r d = Ok d'.
Proof.
  intros Hreg Hc. revert k d Hreg.
  induction Hc as [b Hp|b p n Hp Hne Hc IH]; intros k d (l & Hl & Hb) Hlt;
    (destruct k as [|k]; [lia|]); simpl; rewrite Hl, decide_True, Hp by done.
  - rewrite decide_True by done. eauto.
  - rewrite decide_False by done.
    destruct (dict_add r p d) as [d1|e] eqn:Hadd.
    + simpl. apply IH; [|lia]. by apply dict_add_grown in Hadd as [_ ?].
    + unfold dict_add in Hadd. rewrite Hl in Hadd. by case_decide.
Qed.

(** From the bone 3 of [gap_skeleton] the root 0 is two links up. *)
Lemma complete_bone_tree_returns_witness :
  ∃ d', complete_bone_tree gap_skeleton 10 3 0 ({[0 := [1; 3]]} : Dict)
        = Ok d'.
Proof.
  apply (complete_bone_tree_returns gap_skeleton 10 3 0 1).
  - apply (bool_decide_unpack _). vm_compute. reflexivity.
  - eapply climbs_step; [reflexivity|lia|]. apply climbs_parent. reflexivity.
  - lia.
Defined.

(** X6: when the parent links above a registered bone end without
    meeting [skelroot], [complete_bone_tree] raises [AttributeError]: a
    skin bone that is not below its skeleton root stops the import. *)
Theorem complete_bone_tree_orphan
    (g : NifGraph) (k : nat) (b r : BlockId) (n : nat) (d : Dict) :
  registered d r b -> orphan g r b n -> n < k ->
  complete_bone_tree g k b r d = Raise AttributeError.
Proof.
  intros Hreg Ho. revert k d Hreg.
  induction Ho as [b Hp|b p n Hp Hne Ho IH]; intros k d (l & Hl & Hb) Hlt;
    (destruct k as [|k]; [lia|]); simpl; rewrite Hl, decide_True, Hp by done.
  - done.
  - rewrite decide_False by done.
    destruct (dict_add r p d) as [d1|e] eqn:Hadd.
    + simpl. apply IH; [|lia]. by apply dict_add_grown in Hadd as [_ ?].
    + unfold dict_add in Hadd. rewrite Hl in Hadd. by case_decide.
Qed.

(** The block 0 of [nested_armatures] has no parent: the root 1 is not
    above it. *)
Lemma complete_bone_tree_orphan_witness :
  complete_bone_tree nested_armatures 10 0 1 ({[1 := [0]]} : Dict)
    = Raise AttributeError.
Proof.
  apply (complete_bone_tree_orphan nested_armatures 10 0 1 0).
  - apply (bool_decide_unpack _). vm_compute. reflexivity.
  - apply orphan_top. reflexivity.
  - lia.
Defined.

(** X7: on a root of the dictionary, [populate_bone_tree] registers under
    it exactly the blocks of its tree that are [NiNode]s, are neither LOD
    nodes nor grouping nodes and are not the root itself; what was
    registered stays, and the other lists are untouched. *)
Theorem populate_bone_tree_registers_eligible
    (ctx : NifImport) (g : NifGraph) (k : nat) (r : BlockId) (d d' : Dict) :
  populate_bone_tree ctx g k r d = Ok d' -> is_Some (d !! r) ->
  ∃ t, tree g k r = Ok t
       ∧ (∀ x, registered d' r x
               ↔ registered d r x ∨ (x ∈ t ∧ x ≠ r ∧ eligible ctx g x))
       ∧ (∀ r' x, r' ≠ r -> registered d' r' x ↔ registered d r' x)
       ∧ dom d' = dom d.
Proof.
  intros H Hs. destruct (populate_bone_tree_spec _ _ _ _ _ _ H Hs)
    as (t & Ht & Hg & Hall).
  exists t. split_and!; [done| | |by eapply grown_dom].
  - intros x. split.
    + intros Hx. destruct (proj1 (grown_registered _ _ _ _ r x Hg) Hx)
        as [?|(_ & ? & _)]; [by left|by right].
    + intros [Hx|(? & ? & ?)]; [by eapply grown_keeps|by apply Hall].
  - intros r' x Hne. split.
    + intros Hx. by destruct (proj1 (grown_registered _ _ _ _ r' x Hg) Hx)
        as [?|(? & _)].
    + by eapply grown_keeps.
Qed.

(** Populating the root of [lod_skeleton] registers the bone below the
    LOD node and not the LOD node. *)
Lemma populate_bone_tree_registers_eligible_witness :
  ∃ t, tree lod_skeleton 9 0 = Ok t
       ∧ (∀ x, registered ({[0 := [2]]} : Dict) 0 x
               ↔ registered ({[0 := []]} : Dict) 0 x
                 ∨ (x ∈ t ∧ x ≠ 0 ∧ eligible import_skeleton_only
                                        lod_skeleton x))
       ∧ (∀ r' x, r' ≠ 0 -> registered ({[0 := [2]]} : Dict) r' x
                            ↔ registered ({[0 := []]} : Dict) r' x)
       ∧ dom ({[0 := [2]]} : Dict) = dom ({[0 := []]} : Dict).
Proof.
  apply (populate_bone_tree_registers_eligible import_skeleton_only
           lod_skeleton 9 0).
  - vm_compute. reflexivity.
  - vm_compute. eauto.
Defined.

(** ** What a pass registers *)

Lemma for_each_at {S A} (R : S -> S -> Prop) (body : S -> A -> Result S)
    (xs : list A) :
  (∀ s, R s s) -> (∀ a b c, R a b -> R b c -> R a c) ->
  (∀ s x s', body s x = Ok s' -> R s s') ->
  ∀ s s' x, for_each body xs s = Ok s' -> x ∈ xs ->
            ∃ s1 s2, body s1 x = Ok s2 ∧ R s2 s'.
Proof.
  intros Hrefl Htrans Hbody.
  induction xs as [|y xs IH]; intros s s' x Hrun Hx; simpl in Hrun.
  - by apply elem_of_nil in Hx.
  - inv_bind Hrun as s1 Hstep.
    apply elem_of_cons in Hx as [->|Hx].
    + exists s, s1. split; [done|].
      apply (for_each_preserves (R s1) body xs) with (s := s1); eauto.
    + eapply IH; eauto.
Qed.

Lemma skin_marked_extends ctx g (d d' : Dict) s :
  extends d d' -> skin_marked ctx g d s -> skin_marked ctx g d' s.
Proof.
  intros He (r & Hr & Hs & Hbones & depth & t & Ht & Htree).
  exists r. split_and!; [done|by eapply extends_is_Some| |].
  - intros b Hb. destruct (Hbones b Hb) as (Hreg & Hanc & Hall).
    split_and!; [by eapply extends_registered|done|].
    intros a Ha. eapply extends_registered; eauto.
  - exists depth, t. split; [done|]. intros y Hy Hne Hel.
    eapply extends_registered; eauto.
Qed.

Lemma check_skelroot_root ctx obj skelroot (d d1 : Dict) :
  props_skeleton ctx ≠ SKELETON_ONLY ->
  check_skelroot ctx obj skelroot d = Ok d1 ->
  ∃ r, skelroot = Some r ∧ is_Some (d1 !! r).
Proof.
  unfold check_skelroot. intros Hmode H.
  destruct (props_skeleton ctx); [|done|].
  - destruct skelroot as [r|]; [|discriminate]. exists r. split; [done|].
    destruct (decide (is_Some (d !! r))); inversion H; subst; [done|].
    rewrite lookup_insert_eq. eauto.
  - destruct skelroot as [r|]; [|by destruct obj]. exists r. split; [done|].
    destruct (decide (is_Some (d !! r))); [|by destruct obj].
    by inversion H; subst.
Qed.

Lemma mark_skin_marks ctx g k x obj s (d d' : Dict) :
  props_skeleton ctx ≠ SKELETON_ONLY ->
  is_a g x NiTriBasedGeom = true -> skin_instance (g x) = Some s ->
  mark_skin ctx g k x obj d = Ok d' ->
  skin_marked ctx g d' s.
Proof.
  intros Hmode Hgeom Hskin H. unfold mark_skin in H.
  rewrite Hgeom, Hskin in H. inv_bind H as d1 Hcheck.
  destruct (check_skelroot_root _ _ _ _ _ Hmode Hcheck) as (r & Hr & Hs1).
  rewrite Hr in H. inv_bind H as d2 Hbones.
  assert (Hs2 : is_Some (d2 !! r)).
  { destruct (absorbed_for_each _ (bones s)
                (fun b _ => absorbed_mark_skin_bone g k r b) _ _ Hbones)
      as [He _]. eapply extends_is_Some; eauto. }
  destruct (populate_bone_tree_spec _ _ _ _ _ _ H Hs2)
    as (t & Ht & Hg & Htree).
  pose proof (grown_extends _ _ _ _ Hg) as Hext.
  exists r. split_and!; [done|by eapply extends_is_Some| |by exists k, t].
  intros b Hb.
  destruct (for_each_at extends (mark_skin_bone g k r) (bones s)
              extends_refl extends_trans) with (s := d1) (s' := d2)
              (x := Some b) as (s1 & s2 & Hstep & He2); [|done..|].
  { intros s0 bb s0' Hbb.
    by destruct (absorbed_mark_skin_bone g k r bb _ _ Hbb). }
  simpl in Hstep. inv_bind Hstep as s1' Hadd.
  destruct (complete_bone_tree_spec _ _ _ _ _ _ Hstep)
    as (Hg2 & Hreg & Hanc & Hall).
  pose proof (extends_trans _ _ _ He2 Hext) as He.
  split_and!; [|done|].
  - eapply extends_registered; [exact He|]. by eapply grown_keeps.
  - intros a Ha. eapply extends_registered; eauto.
Qed.

Lemma marks_skins ctx g k n (d d' : Dict) :
  skeleton_branch ctx = false ->
  mark_armatures_bones ctx g k n d = Ok d' ->
  ∀ x s, visited g n x -> is_a g x NiTriBasedGeom = true ->
         skin_instance (g x) = Some s ->
         skin_marked ctx g d' s.
Proof.
  intros Hbr. pose proof (skeleton_branch_false ctx Hbr) as Hmode.
  revert n d d'. induction k as [|k IH]; intros n d d' H x s Hvis Hgeom Hskin;
    [discriminate|].
  simpl in H. rewrite Hbr in H.
  inv_bind H as st Hst. inv_bind H as d1 Hmark.
  assert (Hloop : ∀ s0 c s0',
    (if negb (is_a g c NiAVObject) then Ok s0
     else mark_armatures_bones ctx g k c s0) = Ok s0' -> extends s0 s0').
  { intros s0 c s0' Hc. destruct (negb (is_a g c NiAVObject)).
    - inversion Hc; subst. apply extends_refl.
    - by destruct (absorbed_mark_armatures_bones _ _ _ _ _ _ Hc). }
  set (body := fun (d : Dict) child =>
                 if negb (is_a g child NiAVObject) then Ok d
                 else mark_armatures_bones ctx g k child d) in *.
  inversion Hvis as [|n' c x' Hc Hav Hcx]; subst.
  - eapply skin_marked_extends; [|eapply mark_skin_marks; eauto].
    apply (for_each_preserves (extends d1) body (get_refs (g x)))
      with (s := d1) (s' := d'); [|apply extends_refl|exact H].
    intros s0 c s0' _ He Hc. eapply extends_trans; [exact He|].
    by eapply Hloop.
  - destruct (for_each_at extends body (get_refs (g n)) extends_refl
                extends_trans Hloop _ _ c H Hc) as (s1 & s2 & Hstep & He).
    unfold body in Hstep. rewrite Hav in Hstep. simpl in Hstep.
    eapply skin_marked_extends; [exact He|]. eapply IH; eauto.
Qed.

(** X8: outside the skeleton branch, a pass that returns has marked every
    skinned shape it came by: the skeleton root of the skin is a root of
    the result, and every bone the skin lists is registered under it, below
    it, together with every block between the bone and the root. *)
Theorem mark_armatures_bones_marks_skins
    (ctx : NifImport) (g : NifGraph) (k : nat) (n : BlockId) (d d' : Dict) :
  skeleton_branch ctx = false ->
  mark_armatures_bones ctx g k n d = Ok d' ->
  ∀ x s, visited g n x -> is_a g x NiTriBasedGeom = true ->
         skin_instance (g x) = Some s ->
         skin_marked ctx g d' s.
Proof. apply marks_skins. Qed.

(** The skin of [gap_skeleton]. *)
Lemma mark_armatures_bones_marks_skins_witness :
  skin_marked import_everything gap_skeleton ({[0 := [1; 3; 2]]} : Dict)
    {| skeleton_root := Some 0; bones := [Some 1; Some 3] |}.
Proof.
  apply (mark_armatures_bones_marks_skins import_everything gap_skeleton
           10 0 ∅ ({[0 := [1; 3; 2]]} : Dict)) with (x := 4).
  - reflexivity.
  - vm_compute. reflexivity.
  - eapply visited_ref with (c := 4).
    + apply (bool_decide_unpack _). vm_compute. reflexivity.
    + reflexivity.
    + apply visited_here.
  - reflexivity.
  - reflexivity.
Defined.

(** ** One armature *)

Lemma mark_skin_bones_dom g k r bs (d d' : Dict) :
  for_each (mark_skin_bone g k r) bs d = Ok d' -> dom d' = dom d.
Proof.
  apply (for_each_preserves (fun s : Dict => dom s = dom d)); [|done].
  intros s [b|] s' _ Hs Hbody; simpl in Hbody.
  - inv_bind Hbody as s1 Hadd. apply dict_add_grown in Hadd as [Hg1 _].
    apply complete_bone_tree_spec in Hbody as (Hg2 & _).
    by rewrite (grown_dom _ _ _ _ Hg2), (grown_dom _ _ _ _ Hg1).
  - by inversion Hbody; subst.
Qed.

Lemma geometry_only_mark_skin_dom ctx g k n obj (d d' : Dict) :
  props_skeleton ctx = GEOMETRY_ONLY ->
  mark_skin ctx g k n obj d = Ok d' -> dom d' = dom d.
Proof.
  intros Hmode H. unfold mark_skin in H.
  destruct (is_a g n NiTriBasedGeom); [|by inversion H; subst].
  destruct (skin_instance (g n)) as [s|]; [|by inversion H; subst].
  inv_bind H as d1 Hcheck. unfold check_skelroot in Hcheck.
  rewrite Hmode in Hcheck.
  destruct (skeleton_root s) as [r|]; [|by destruct obj].
  destruct (decide (is_Some (d !! r))) as [Hs|]; [|by destruct obj].
  inversion Hcheck; subst d1. inv_bind H as d2 Hbones.
  pose proof (mark_skin_bones_dom _ _ _ _ _ _ Hbones) as Hd2.
  assert (Hs2 : is_Some (d2 !! r)).
  { apply elem_of_dom. rewrite Hd2. by apply elem_of_dom. }
  destruct (populate_bone_tree_spec _ _ _ _ _ _ H Hs2) as (t & _ & Hg & _).
  by rewrite (grown_dom _ _ _ _ Hg).
Qed.

Lemma geometry_only_keeps_roots ctx g k n (d d' : Dict) :
  skeleton_branch ctx = false -> props_skeleton ctx = GEOMETRY_ONLY ->
  d ≠ ∅ -> mark_armatures_bones ctx g k n d = Ok d' -> dom d' = dom d.
Proof.
  intros Hbr Hmode. revert n d d'.
  induction k as [|k IH]; intros n d d' Hne H; [discriminate|].
  simpl in H. rewrite Hbr in H.
  rewrite (bool_decide_eq_false_2 (d = ∅)), andb_false_r in H by done.
  simpl in H. inv_bind H as d1 Hmark.
  pose proof (geometry_only_mark_skin_dom _ _ _ _ _ _ _ Hmode Hmark) as Hd1.
  revert H. apply (for_each_preserves (fun s : Dict => dom s = dom d));
    [|done].
  intros s c s' _ Hs Hc.
  destruct (negb (is_a g c NiAVObject)); [by inversion Hc; subst|].
  rewrite <- Hs. apply (IH c); [|done].
  intros ->. rewrite dom_empty_L in Hs. symmetry in Hs.
  by apply dom_empty_iff_L in Hs.
Qed.

(** X9: attaching to the selected armature never makes an armature: a
    pass in the mode [GEOMETRY_ONLY] outside the skeleton branch that
    returns has started from a dictionary that is not empty, and leaves
    the set of roots as it found it.  On the empty dictionary it never
    returns: the lookup of the armature finds nothing. *)
Theorem geometry_only_makes_no_root
    (ctx : NifImport) (g : NifGraph) (k : nat) (n : BlockId) (d d' : Dict) :
  skeleton_branch ctx = false ->
  props_skeleton ctx = GEOMETRY_ONLY ->
  mark_armatures_bones ctx g k n d = Ok d' ->
  d ≠ ∅ ∧ dom d' = dom d.
Proof.
  intros Hbr Hmode H.
  assert (Hne : d ≠ ∅).
  { intros ->. destruct k as [|k]; [discriminate|]. simpl in H.
    rewrite Hbr in H. rewrite !bool_decide_eq_true_2 in H by done.
    simpl in H. inv_bind H as st Hst. inv_bind Hst as r0 Hid.
    by apply identify_armature_raises in Hid. }
  split; [done|]. by apply (geometry_only_keeps_roots ctx g k n).
Qed.

(** The shape of [lod_skinned] attached to the armature 0 that the
    dictionary holds. *)
Lemma geometry_only_makes_no_root_witness :
  ({[0 := []]} : Dict) ≠ ∅
  ∧ dom ({[0 := [2; 1]]} : Dict) = dom ({[0 := []]} : Dict).
Proof.
  refine (geometry_only_makes_no_root (import_geometry []) lod_skinned
            10 0 ({[0 := []]} : Dict) ({[0 := [2; 1]]} : Dict) _ _ _).
  - vm_compute. reflexivity.
  - reflexivity.
  - vm_compute. reflexivity.
Defined.

(** X25: the test on the skeleton root of a skin in the mode
    [GEOMETRY_ONLY] cannot raise its [NifError]: the test is read only on
    a dictionary that is not empty, where the local [b_armature_obj] that
    the message names is not bound.  A pass outside the skeleton branch
    that starts from such a dictionary on a shape skinned to a block that
    is not a root raises [UnboundLocalError]. *)
Theorem foreign_skin_reads_unbound_local
    (ctx : NifImport) (g : NifGraph) (k : nat) (n : BlockId) (d : Dict)
    (s : NiSkinInstance) (r : BlockId) :
  skeleton_branch ctx = false ->
  props_skeleton ctx = GEOMETRY_ONLY ->
  d ≠ ∅ ->
  is_a g n NiTriBasedGeom = true ->
  skin_instance (g n) = Some s ->
  skeleton_root s = Some r ->
  d !! r = None ->
  mark_armatures_bones ctx g (S k) n d = Raise UnboundLocalError.
Proof.
  intros Hbr Hmode Hne Hgeom Hskin Hroot Hnone. simpl. rewrite Hbr.
  rewrite (bool_decide_eq_false_2 (d = ∅)), andb_false_r by done. simpl.
  by rewrite (geometry_only_foreign_skin ctx g k n None s r d).
Qed.

(** The shape of [foreign_skin_root], skinned to the block 1, on a
    dictionary whose only root is the block 5. *)
Lemma foreign_skin_reads_unbound_local_witness :
  mark_armatures_bones (import_geometry []) foreign_skin_root 10 0
    {[5 := []]} = Raise UnboundLocalError.
Proof.
  apply (foreign_skin_reads_unbound_local (import_geometry [])
           foreign_skin_root 9 0 ({[5 := []]} : Dict)
           {| skeleton_root := Some 1; bones := [] |} 1).
  - vm_compute. reflexivity.
  - reflexivity.
  - intros Heq. apply (f_equal (fun m : Dict => m !! 5)) in Heq.
    vm_compute in Heq. discriminate Heq.
  - reflexivity.
  - reflexivity.
  - reflexivity.
  - vm_compute. reflexivity.
Defined.

(** ** The skeleton branch on its own *)

(** X10: in the skeleton branch a pass that starts on the empty
    dictionary and returns has made one armature: the block it was called
    on is a [NiNode] and is the only root, also in a Morrowind file with a
    node named Bip01, which the lookup under a [str] does not find;
    [is_armature_root] answers yes for it; and the blocks [is_bone]
    answers yes for are the eligible nodes of its tree other than
    itself. *)
Theorem skeleton_branch_single_root
    (ctx : NifImport) (g : NifGraph) (k : nat) (n : BlockId) (d' : Dict) :
  skeleton_branch ctx = true ->
  mark_armatures_bones ctx g (S k) n ∅ = Ok d' ->
  is_a g n NiNode = true
  ∧ dom d' = {[n]}
  ∧ is_armature_root g d' n = PyBool true
  ∧ ∃ t, tree g k n = Ok t
         ∧ ∀ x, is_bone d' (Some x) = PyBool true ↔
                (x ∈ t ∧ x ≠ n ∧ eligible ctx g x).
Proof.
  intros Hbr H. simpl in H. rewrite Hbr in H. unfold mark_skeleton in H.
  destruct (is_a g n NiNode) eqn:Hn; cbn [negb] in H; [|discriminate].
  split; [done|]. inv_bind H as r Hr.
  rewrite lookup_empty in H.
  destruct (decide (is_Some (@None (list nat)))) as [[? ?]|_]; [done|].
  assert (r = n) as ->.
  { destruct (bool_decide (data_version ctx = 0x04000002%Z)).
    - inv_bind Hr as found Hfound. inversion Hr; subst r.
      destruct found as [r|]; [|done].
      apply find_str_not_found in Hfound; [done|by right].
    - by inversion Hr. }
  assert (Hs : is_Some ((<[n := []]> ∅ : Dict) !! n)).
  { rewrite lookup_insert_eq. by eexists. }
  destruct (populate_bone_tree_spec _ _ _ _ _ _ H Hs)
    as (t & Ht & (l & ext & Hl & -> & Hext) & Hreg).
  rewrite lookup_insert_eq in Hl. inversion Hl; subst l.
  change ([] ++ ext) with ext in *. rewrite insert_insert_eq in *.
  split_and!.
  - rewrite dom_insert_L, dom_empty_L. apply (right_id_L _ _).
  - apply is_armature_root_true. split; [done|].
    rewrite lookup_insert_eq. by eexists.
  - exists t. split; [done|].
    intros x. rewrite is_bone_registered. split.
    + intros (r' & l & Hl' & Hx).
      destruct (decide (r' = n)) as [->|Hne].
      * rewrite lookup_insert_eq in Hl'. inversion Hl'; subst l.
        by apply (proj1 (Forall_forall _ _) Hext).
      * by rewrite lookup_insert_ne, lookup_empty in Hl'.
    + intros (Hx & Hne & He). exists n. by apply Hreg.
Qed.

(** The Morrowind skeleton [morrowind_skeleton]: the root is the block 0
    the pass starts from, and the node 1, named Bip01, is one of its
    bones. *)
Lemma skeleton_branch_single_root_witness :
  data_version import_morrowind = 0x04000002%Z
  ∧ name (morrowind_skeleton 1) = "Bip01"
  ∧ is_a morrowind_skeleton 0 NiNode = true
  ∧ dom ({[0 := [1; 2]]} : Dict) = {[0]}
  ∧ is_armature_root morrowind_skeleton {[0 := [1; 2]]} 0 = PyBool true
  ∧ ∃ t, tree morrowind_skeleton 9 0 = Ok t
         ∧ ∀ x, is_bone {[0 := [1; 2]]} (Some x) = PyBool true ↔
                (x ∈ t ∧ x ≠ 0
                 ∧ eligible import_morrowind morrowind_skeleton x).
Proof.
  split; [reflexivity|]. split; [reflexivity|].
  refine (skeleton_branch_single_root import_morrowind morrowind_skeleton 9 0
            ({[0 := [1; 2]]} : Dict) _ _).
  - vm_compute. reflexivity.
  - vm_compute. reflexivity.
Defined.

(** * The edit bones of an armature *)

Lemma is_bone_truthy (d : Dict) n :
  truthy (is_bone d n) = true ↔ ∃ b, n = Some b ∧ is_bone d (Some b) = PyBool true.
Proof.
  destruct n as [b|]; simpl.
  - destruct (is_bone_loop_cases ((map_to_list d).*2) b) as [Hb|Hb];
      rewrite Hb; simpl.
    + split; [|done]. intros _. exists b. by rewrite Hb.
    + split; [done|]. intros (? & [= <-] & Hx). by rewrite Hb in Hx.
  - split; [done|]. by intros (? & ? & _).
Qed.

Section ImportBone.
Variable g : NifGraph.
Variable children : BlockId -> list (option BlockId).
Variable d : Dict.

Local Abbreviation well_placed := (well_placed g children d).
Local Abbreviation children_made := (children_made children d).

Lemma well_placed_mono top top' bones bones' i e :
  (∀ e, top e -> top' e) -> bones `prefix_of` bones' ->
  well_placed top bones i e -> well_placed top' bones' i e.
Proof.
  intros Htop Hpre (Hb & Hn & Hor). split_and!; [done..|].
  destruct Hor as [?|(j & e' & ? & ? & Hj & ?)]; [left; by auto|right].
  exists j, e'. split_and!; [done..| |done].
  by eapply prefix_lookup_Some.
Qed.

Lemma children_made_mono bones bones' e :
  bones `prefix_of` bones' -> children_made bones e ->
  children_made bones' e.
Proof.
  intros [more ->] Hm y Hy Hb. rewrite fmap_app. apply elem_of_app. left.
  by apply Hm.
Qed.

Lemma import_bone_spec k n p bones bones' :
  import_bone g children d k n p bones = Ok bones' ->
  bones `prefix_of` bones'
  ∧ (∀ i e, bones' !! i = Some e -> length bones ≤ i ->
            well_placed (fun e => Some (nb_block e) = n ∧ nb_parent e = p)
              bones' i e
            ∧ children_made bones' e)
  ∧ (∀ x, n = Some x -> is_bone d (Some x) = PyBool true ->
          x ∈ nb_block <$> bones').
Proof.
  revert n p bones bones'.
  induction k as [|k IH]; intros n p bones bones' Hrun; [discriminate|].
  simpl in Hrun. destruct (truthy (is_bone d n)) eqn:Hbone; cbn [negb] in Hrun.
  2:{ inversion Hrun; subst. split_and!; [done| |].
      - intros i e Hi Hle. apply lookup_lt_Some in Hi. lia.
      - intros x -> Hx. rewrite Hx in Hbone. discriminate. }
  apply is_bone_truthy in Hbone as (b & -> & Hb).
  inv_bind Hrun as cs Hcs. unfold n_children in Hcs.
  destruct (is_a g b NiNode) eqn:Hnode; [|discriminate].
  inversion Hcs; subst cs. clear Hcs.
  set (e0 := {| nb_block := b; nb_parent := p |}) in *.
  set (body := fun bones0 n_child =>
         import_bone g children d k n_child (Some (length bones)) bones0)
    in *.
  assert (Hstep : ∀ s c s', body s c = Ok s' -> s `prefix_of` s').
  { intros s c s' Hc. by apply IH in Hc as [? _]. }
  (* what the loop keeps *)
  assert (Hinv : (bones ++ [e0]) `prefix_of` bones'
    ∧ ∀ i e, bones' !! i = Some e -> length (bones ++ [e0]) ≤ i ->
             well_placed (fun _ => False) bones' i e
             ∧ children_made bones' e).
  { revert Hrun.
    apply (for_each_preserves (fun s =>
      (bones ++ [e0]) `prefix_of` s
      ∧ ∀ i e, s !! i = Some e -> length (bones ++ [e0]) ≤ i ->
               well_placed (fun _ => False) s i e ∧ children_made s e)
      body (children b)).
    - intros s c s' Hc [Hpre Hall] Hcall.
      destruct (IH _ _ _ _ Hcall) as (Hpre' & Hnew & _).
      split; [by etrans|]. intros i e Hi Hle.
      destruct (decide (i < length s)) as [Hlt|Hge].
      + assert (Hs : s !! i = Some e).
        { destruct Hpre' as [more ->].
          by rewrite lookup_app_l in Hi. }
        destruct (Hall _ _ Hs Hle) as [Hw Hm]. split.
        * eapply well_placed_mono; [|exact Hpre'|exact Hw]. done.
        * eapply children_made_mono; [exact Hpre'|exact Hm].
      + destruct (Hnew i e Hi ltac:(lia)) as [(Hb' & Hn' & Hor) Hm].
        split; [|done]. split_and!; [done..|]. right.
        destruct Hor as [[Htop Hpar]|Hdeep]; [|done].
        exists (length bones), e0. split_and!; [done| | |].
        * rewrite length_app in Hle. simpl in Hle. lia.
        * apply (prefix_lookup_Some (bones ++ [e0])); [|by etrans].
          by rewrite lookup_app_r, Nat.sub_diag.
        * by rewrite Htop.
    - split; [done|]. intros i e Hi Hle. apply lookup_lt_Some in Hi. lia. }
  destruct Hinv as [Hpre Hall].
  assert (He0 : bones' !! length bones = Some e0).
  { apply (prefix_lookup_Some (bones ++ [e0])); [|exact Hpre].
    by rewrite lookup_app_r, Nat.sub_diag. }
  assert (Hmade : children_made bones' e0).
  { intros y Hy Hyb. simpl in Hy.
    destruct (for_each_at (fun s s' => s `prefix_of` s') body (children b)
                ltac:(done) ltac:(intros ???; by etrans) Hstep
                _ _ _ Hrun Hy) as (s1 & s2 & Hcall & Hpre2).
    destruct (IH _ _ _ _ Hcall) as (_ & _ & Hin).
    destruct Hpre2 as [more ->]. rewrite fmap_app. apply elem_of_app. left.
    by apply Hin. }
  split_and!.
  - etrans; [|exact Hpre]. by apply prefix_app_r.
  - intros i e Hi Hle. destruct (decide (i = length bones)) as [->|Hne].
    + rewrite He0 in Hi. inversion Hi; subst e. split; [|done].
      split_and!; [done..|]. by left.
    + destruct (Hall i e Hi) as [Hw Hm].
      { rewrite length_app. simpl. lia. }
      split; [|done].
      eapply (well_placed_mono _ _ bones' bones'); [|done|exact Hw]. done.
  - intros x [= <-] _. apply list_elem_of_fmap. exists e0.
    split; [done|]. by eapply list_elem_of_lookup_2.
Qed.

Lemma import_armature_bones_spec k a bones :
  import_armature_bones g children d k a = Ok bones ->
  is_a g a NiNode = true
  ∧ (∀ i e, bones !! i = Some e ->
            well_placed (fun e => Some (nb_block e) ∈ children a
                                  ∧ nb_parent e = None) bones i e
            ∧ children_made bones e)
  ∧ (∀ x, Some x ∈ children a -> is_bone d (Some x) = PyBool true ->
          x ∈ nb_block <$> bones).
Proof.
  unfold import_armature_bones, n_children. intros Hrun.
  destruct (is_a g a NiNode) eqn:Hnode; [|discriminate]. simpl in Hrun.
  split; [done|].
  set (body := fun bones0 n_child =>
         import_bone g children d k n_child None bones0) in *.
  assert (Hstep : ∀ s c s', body s c = Ok s' -> s `prefix_of` s').
  { intros s c s' Hc. by apply import_bone_spec in Hc as [? _]. }
  split.
  - revert Hrun.
    apply (for_each_preserves (fun s =>
      ∀ i e, s !! i = Some e ->
             well_placed (fun e => Some (nb_block e) ∈ children a
                                   ∧ nb_parent e = None) s i e
             ∧ children_made s e) body (children a)); [|done].
    intros s c s' Hc Hall Hcall.
    destruct (import_bone_spec _ _ _ _ _ Hcall) as (Hpre & Hnew & _).
    intros i e Hi. destruct (decide (i < length s)) as [Hlt|Hge].
    + assert (Hs : s !! i = Some e).
      { destruct Hpre as [more ->]. by rewrite lookup_app_l in Hi. }
      destruct (Hall _ _ Hs) as [Hw Hm]. split.
      * eapply well_placed_mono; [|exact Hpre|exact Hw]. done.
      * eapply children_made_mono; [exact Hpre|exact Hm].
    + destruct (Hnew i e Hi ltac:(lia)) as [Hw Hm]. split; [|done].
      eapply (well_placed_mono _ _ s' s'); [|done|exact Hw].
      intros e1 [Htop ?]. split; [|done]. by rewrite Htop.
  - intros x Hx Hb.
    destruct (for_each_at (fun s s' => s `prefix_of` s') body (children a)
                ltac:(done) ltac:(intros ???; by etrans) Hstep
                _ _ _ Hrun Hx) as (s1 & s2 & Hcall & Hpre2).
    destruct (import_bone_spec _ _ _ _ _ Hcall) as (_ & _ & Hin).
    destruct Hpre2 as [more ->]. rewrite fmap_app. apply elem_of_app. left.
    by apply Hin.
Qed.
End ImportBone.

(** X13: the loop of [import_armature] makes edit bones only for blocks
    that [is_bone] accepts and that are [NiNode]s, and it makes parents
    first: an edit bone without parent stands for a child of the armature
    block, and every other one is parented to an edit bone made before it,
    which stands for a block that has its block as a child. *)
Theorem import_armature_bones_parents_first
    (g : NifGraph) (children : BlockId -> list (option BlockId)) (d : Dict)
    (k : nat) (n_armature : BlockId) (bones : list NewBone) :
  import_armature_bones g children d k n_armature = Ok bones ->
  ∀ i e, bones !! i = Some e ->
    is_bone d (Some (nb_block e)) = PyBool true
    ∧ is_a g (nb_block e) NiNode = true
    ∧ match nb_parent e with
      | None => Some (nb_block e) ∈ children n_armature
      | Some j => j < i ∧ ∃ e', bones !! j = Some e'
                                ∧ Some (nb_block e) ∈ children (nb_block e')
      end.
Proof.
  intros Hrun i e Hi.
  destruct (import_armature_bones_spec _ _ _ _ _ _ Hrun) as (_ & Hall & _).
  destruct (Hall i e Hi) as [(Hb & Hn & Hor) _]. split_and!; [done..|].
  destruct Hor as [[Hc ->]|(j & e' & -> & ? & ? & ?)]; [done|eauto].
Qed.

(** The two bones of [bone_chain]: the second is parented to the
    first. *)
Lemma import_armature_bones_parents_first_witness :
  is_bone ({[0 := [2; 1]]} : Dict) (Some 2) = PyBool true
  ∧ is_a bone_chain 2 NiNode = true
  ∧ 0 < 1
  ∧ ∃ e', [ {| nb_block := 1; nb_parent := None |};
            {| nb_block := 2; nb_parent := Some 0 |} ] !! 0 = Some e'
          ∧ Some 2 ∈ refs_as_children bone_chain (nb_block e').
Proof.
  refine (import_armature_bones_parents_first bone_chain
            (refs_as_children bone_chain) ({[0 := [2; 1]]} : Dict) 9 0
            [ {| nb_block := 1; nb_parent := None |};
              {| nb_block := 2; nb_parent := Some 0 |} ] _
            1 {| nb_block := 2; nb_parent := Some 0 |} _).
  - vm_compute. reflexivity.
  - reflexivity.
Defined.

(** X14: the blocks the loop of [import_armature] makes edit bones for are
    exactly the blocks reached from the armature block through children
    arrays by bones only: a registered bone below a block that is no bone
    gets no edit bone. *)
Theorem import_armature_bones_exact
    (g : NifGraph) (children : BlockId -> list (option BlockId)) (d : Dict)
    (k : nat) (n_armature : BlockId) (bones : list NewBone) :
  import_armature_bones g children d k n_armature = Ok bones ->
  ∀ x, x ∈ nb_block <$> bones ↔ bone_path children d n_armature x.
Proof.
  intros Hrun x.
  destruct (import_armature_bones_spec _ _ _ _ _ _ Hrun) as (_ & Hall & Htop).
  split.
  - intros Hx. apply list_elem_of_fmap in Hx as (e & -> & He).
    apply list_elem_of_lookup in He as [i Hi]. revert e Hi.
    induction i as [i IH] using lt_wf_ind. intros e Hi.
    destruct (Hall i e Hi) as [(Hb & _ & Hor) _].
    destruct Hor as [[Hc _]|(j & e' & _ & Hlt & Hj & Hc)].
    + by apply bone_path_child.
    + eapply bone_path_step; [exact (IH j Hlt e' Hj)|done..].
  - induction 1 as [x Hx Hb|y x _ IH Hx Hb].
    + by apply Htop.
    + apply list_elem_of_fmap in IH as (e & -> & He).
      apply list_elem_of_lookup in He as [i Hi].
      destruct (Hall i e Hi) as [_ Hm]. by apply Hm.
Qed.

(** In [lod_skeleton] the bone 2 is registered, and it is below the LOD
    node 1, which is no bone: no edit bone is made. *)
Lemma import_armature_bones_exact_witness :
  2 ∈ nb_block <$> [] ↔
  bone_path (refs_as_children lod_skeleton) ({[0 := [2]]} : Dict) 0 2.
Proof.
  refine (import_armature_bones_exact lod_skeleton
            (refs_as_children lod_skeleton) ({[0 := [2]]} : Dict) 9 0 [] _ 2).
  vm_compute. reflexivity.
Defined.

(** * Properties of the game identifiers *)

Lemma translate_upper_ascii (c : ascii) :
  let table :=
    maketrans symbols (string_repeat "_" (String.length symbols)) in
  let c' := default (upper_ascii c) (table_get table (upper_ascii c)) in
  is_underscore c' = is_separator c
  ∧ is_symbol c' = false
  ∧ upper_ascii c' = c'
  ∧ (c' = "_"%char ∨ c' = upper_ascii c).
Proof.
  destruct c as [[] [] [] [] [] [] [] []];
    (split_and!; [reflexivity..|]); vm_compute; auto.
Qed.

Lemma replace_double_underscore_chars s c :
  c ∈ chars (replace_double_underscore s) -> c ∈ chars s.
Proof.
  assert (Hgen : ∀ s,
    (∀ c, c ∈ chars (replace_double_underscore s) -> c ∈ chars s)
    ∧ ∀ a c, c ∈ chars (replace_double_underscore (String a s)) ->
             c ∈ chars (String a s)).
  { clear. induction s as [|b s [IH1 IH2]].
    - split; [done|]. intros a c. simpl. done.
    - split; [exact (IH2 b)|]. intros a c.
      change (replace_double_underscore (String a (String b s)))
        with (if is_underscore a && is_underscore b
              then String "_" (replace_double_underscore s)
              else String a (replace_double_underscore (String b s))).
      destruct (is_underscore a && is_underscore b) eqn:Hu.
      + apply andb_true_iff in Hu as [Ha _].
        apply bool_decide_eq_true_1 in Ha. subst a.
        cbn [chars]. intros [->|Hc]%elem_of_cons; [left|].
        right. right. by apply IH1.
      + cbn [chars]. intros [->|Hc]%elem_of_cons; [left|].
        right. by apply IH2. }
  apply Hgen.
Qed.

Lemma replace_double_underscore_length s :
  String.length (replace_double_underscore s) ≤ String.length s.
Proof.
  assert (Hgen : ∀ s,
    String.length (replace_double_underscore s) ≤ String.length s
    ∧ ∀ a, String.length (replace_double_underscore (String a s))
           ≤ String.length (String a s)).
  { clear. induction s as [|b s [IH1 IH2]].
    - split; [done|]. intros a. simpl. lia.
    - split; [exact (IH2 b)|]. intros a.
      change (replace_double_underscore (String a (String b s)))
        with (if is_underscore a && is_underscore b
              then String "_" (replace_double_underscore s)
              else String a (replace_double_underscore (String b s))).
      destruct (is_underscore a && is_underscore b).
      + cbn [String.length]. lia.
      + specialize (IH2 b). cbn [String.length] in *. lia. }
  apply Hgen.
Qed.

Lemma replace_double_underscore_runs s a :
  let r := longest_run is_underscore (replace_double_underscore s) a in
  let n := longest_run is_underscore s (2 * a) in
  n ≤ 2 * r ≤ n + 1.
Proof.
  assert (Hgen : ∀ s,
    (∀ a, longest_run is_underscore s (2 * a)
          ≤ 2 * longest_run is_underscore (replace_double_underscore s) a
          ≤ longest_run is_underscore s (2 * a) + 1)
    ∧ ∀ c a, longest_run is_underscore (String c s) (2 * a)
             ≤ 2 * longest_run is_underscore
                     (replace_double_underscore (String c s)) a
             ≤ longest_run is_underscore (String c s) (2 * a) + 1).
  { clear. induction s as [|b s [IH1 IH2]].
    - split; [intros a; simpl; lia|]. intros c a. simpl.
      destruct (is_underscore c); lia.
    - split; [exact (IH2 b)|]. intros c a.
      change (replace_double_underscore (String c (String b s)))
        with (if is_underscore c && is_underscore b
              then String "_" (replace_double_underscore s)
              else String c (replace_double_underscore (String b s))).
      destruct (is_underscore c) eqn:Hc; destruct (is_underscore b) eqn:Hb;
        cbn [andb].
      + cbn [longest_run]. rewrite Hc, Hb.
        change (is_underscore "_") with true. cbn iota.
        specialize (IH1 (S a)).
        replace (2 * S a) with (S (S (2 * a))) in IH1 by lia. exact IH1.
      + cbn [longest_run]. rewrite Hc.
        specialize (IH2 b (S a)). cbn [longest_run] in IH2 |- *.
        rewrite Hb in IH2 |- *.
        replace (2 * S a) with (S (S (2 * a))) in IH2 by lia. lia.
      + cbn [longest_run]. rewrite Hc.
        specialize (IH2 b 0). cbn [longest_run] in IH2 |- *.
        rewrite Hb in IH2 |- *. change (2 * 0) with 0 in IH2. lia.
      + cbn [longest_run]. rewrite Hc.
        specialize (IH2 b 0). cbn [longest_run] in IH2 |- *.
        rewrite Hb in IH2 |- *. change (2 * 0) with 0 in IH2. lia. }
  apply Hgen.
Qed.

Lemma longest_run_translate_upper game a :
  longest_run is_underscore
    (translate (maketrans symbols (string_repeat "_" (String.length symbols)))
       (upper game)) a
  = longest_run is_separator game a.
Proof.
  revert a. induction game as [|c game IH]; intros a; [done|].
  cbn [upper translate longest_run].
  destruct (translate_upper_ascii c) as (-> & _). by rewrite !IH.
Qed.

Lemma chars_translate_upper game c :
  c ∈ chars (translate
               (maketrans symbols (string_repeat "_" (String.length symbols)))
               (upper game)) ->
  is_symbol c = false ∧ upper_ascii c = c
  ∧ (c = "_"%char ∨ ∃ c', c' ∈ chars game ∧ c = upper_ascii c').
Proof.
  induction game as [|x game IH]; cbn [upper translate chars].
  - by intros ?%elem_of_nil.
  - intros [->|Hc]%elem_of_cons.
    + destruct (translate_upper_ascii x) as (_ & Hs & Hu & Hor).
      split_and!; [done..|]. destruct Hor as [?|?]; [by left|right].
      exists x. split; [left|done].
    + destruct (IH Hc) as (? & ? & Hor). split_and!; [done..|].
      destruct Hor as [?|(c' & ? & ?)]; [by left|right].
      exists c'. split; [by right|done].
Qed.

(** X15: an identifier made by [_game_to_enum] holds none of the symbol
    characters and no lower-case letter: each of its characters is an
    underscore or the upper-case form of a character of the name; and it
    is not longer than the name. *)
Theorem game_to_enum_characters (game : string) :
  (∀ c, c ∈ chars (_game_to_enum game) ->
        is_symbol c = false ∧ upper_ascii c = c
        ∧ (c = "_"%char ∨ ∃ c', c' ∈ chars game ∧ c = upper_ascii c'))
  ∧ String.length (_game_to_enum game) ≤ String.length game.
Proof.
  unfold _game_to_enum. split.
  - intros c Hc. apply replace_double_underscore_chars in Hc.
    by apply chars_translate_upper.
  - etrans; [apply replace_double_underscore_length|].
    induction game as [|x game IH]; cbn [upper translate String.length]; lia.
Qed.

(** X16: the replacement of double underscores is one pass, so a run of
    [n] symbols and underscores of the name becomes a run of [n / 2]
    underscores, rounded up: with [n] the longest such run of the name and
    [r] the longest run of underscores of the identifier, [2 * r] is [n]
    or [n + 1].  The identifier is free of double underscores exactly when
    the name has no run of three. *)
Theorem game_to_enum_underscore_runs (game : string) :
  let n := longest_run is_separator game 0 in
  let r := longest_run is_underscore (_game_to_enum game) 0 in
  n ≤ 2 * r ≤ n + 1 ∧ (r ≤ 1 ↔ n ≤ 2).
Proof.
  intros n r.
  pose proof (replace_double_underscore_runs
                (translate
                   (maketrans symbols
                      (string_repeat "_" (String.length symbols)))
                   (upper game)) 0) as Hr.
  cbv zeta in Hr. rewrite longest_run_translate_upper in Hr.
  fold (_game_to_enum game) in Hr. fold r in Hr.
  change (longest_run is_separator game (2 * 0)) with n in Hr. lia.
Qed.

(** The identifiers of three games, and of a name with a run of three
    separators, which keeps a double underscore. *)
Example game_to_enum_samples :
  _game_to_enum "Oblivion" = "OBLIVION"
  ∧ _game_to_enum "Fallout 3" = "FALLOUT_3"
  ∧ _game_to_enum "Star Trek: Bridge Commander"
    = "STAR_TREK_BRIDGE_COMMANDER"
  ∧ _game_to_enum "Worlds - Online" = "WORLDS__ONLINE".
Proof. split_and!; vm_compute; reflexivity. Qed.

(** * Properties of the collision importer *)

Lemma obind_return {A B} (m : Outcome A) (k : A -> Outcome B) (b : B) :
  (x ← m; k x) = Return b -> ∃ a, m = Return a ∧ k a = Return b.
Proof. destruct m as [a|e]; simpl; [eauto | discriminate]. Qed.

Tactic Notation "inv_obind" hyp(H) "as" ident(a) ident(Ha) :=
  apply obind_return in H; destruct H as (a & Ha & H).

Lemma for_each_outcome_preserves {S A} (P : S -> Prop)
    (body : S -> A -> Outcome S) (xs : list A) :
  (∀ s x s', x ∈ xs -> P s -> body s x = Return s' -> P s') ->
  ∀ s s', P s -> for_each_outcome body xs s = Return s' -> P s'.
Proof.
  induction xs as [|x xs IH]; intros Hbody s s' HP Hrun; simpl in Hrun.
  - by (inversion Hrun; subst).
  - inv_obind Hrun as s1 Hs1. eapply IH; [| |exact Hrun].
    + intros ? y ? Hy. apply Hbody. by right.
    + eapply Hbody; [left | exact HP | exact Hs1].
Qed.

Lemma for_each_outcome_raises {S A} (body : S -> A -> Outcome S) xs s r :
  (∀ s x, ∃ e, body s x = Throw e) ->
  for_each_outcome body xs s = Return r -> xs = [].
Proof.
  intros Hbody H. destruct xs as [|x xs]; [done|]. simpl in H.
  destruct (Hbody s x) as [e He]. rewrite He in H. discriminate.
Qed.

(** ** Objects made and objects returned *)

Lemma created_nil self : created [] self self.
Proof. exists []. by rewrite app_nil_r. Qed.

Lemma created_trans objs1 objs2 self self1 self2 :
  created objs1 self self1 -> created objs2 self1 self2 ->
  created (objs1 ++ objs2) self self2.
Proof.
  intros (new1 & H1 & ->) (new2 & H2 & ->). exists (new1 ++ new2).
  rewrite H2, H1, <- app_assoc. split; [done|].
  by rewrite !length_app, seq_app.
Qed.

Lemma created_scene objs self self1 self' :
  scene_objects self1 = scene_objects self ->
  created objs self1 self' -> created objs self self'.
Proof. intros Hs (new & H1 & ->). exists new. by rewrite H1, Hs. Qed.

Lemma created_update f b_obj objs self self' :
  created objs self self' -> length (scene_objects self) ≤ b_obj ->
  created objs self (update_ob f b_obj self').
Proof.
  intros (new & H1 & ->) Hle.
  exists (alter f (b_obj - length (scene_objects self)) new). simpl.
  rewrite H1, length_alter. split; [|done]. by apply alter_app_r_alt.
Qed.

Lemma mesh_from_data_created name verts faces wireframe self b_obj self' :
  mesh_from_data name verts faces wireframe self = (b_obj, self') ->
  b_obj = length (scene_objects self)
  ∧ created [b_obj] self self'
  ∧ HAVOK_SCALE self' = HAVOK_SCALE self
  ∧ havok_mat self' = havok_mat self
  ∧ dict_havok_objects self' = dict_havok_objects self.
Proof.
  unfold mesh_from_data, create_ob. intros [= <- <-].
  split; [done|].
  set (ob := {| ob_name := name |}).
  assert (Hc : created [length (scene_objects self)] self
    {| HAVOK_SCALE := HAVOK_SCALE self; havok_mat := havok_mat self;
       scene_objects := scene_objects self ++ [ob];
       dict_havok_objects := dict_havok_objects self |}).
  { by exists [ob]. }
  destruct wireframe; [|done]. split_and!; [|done..].
  by apply created_update.
Qed.

Lemma box_from_extents_created name minx maxx miny maxy minz maxz self
    b_obj self' :
  box_from_extents name minx maxx miny maxy minz maxz self = (b_obj, self') ->
  b_obj = length (scene_objects self)
  ∧ created [b_obj] self self'
  ∧ HAVOK_SCALE self' = HAVOK_SCALE self
  ∧ havok_mat self' = havok_mat self
  ∧ dict_havok_objects self' = dict_havok_objects self.
Proof. apply mesh_from_data_created. Qed.

Ltac created_leaf H :=
  match type of H with
  | (let (_, _) := ?m in _) = _ =>
      let b := fresh "b_obj" in
      let s := fresh "self1" in
      let E := fresh "Hmesh" in
      destruct m as [b s] eqn:E;
      first [apply box_from_extents_created in E
            |apply mesh_from_data_created in E];
      destruct E as (-> & E & _)
  end.

Lemma import_bhkbox_shape_created dimensions radius material self objs self' :
  import_bhkbox_shape dimensions radius material self = (objs, self') ->
  created objs self self'.
Proof.
  unfold import_bhkbox_shape. intros H. created_leaf H.
  inversion H; subst. by repeat apply created_update.
Qed.

Lemma import_bhksphere_shape_created radius material self objs self' :
  import_bhksphere_shape radius material self = (objs, self') ->
  created objs self self'.
Proof.
  unfold import_bhksphere_shape. intros H. created_leaf H.
  inversion H; subst. by repeat apply created_update.
Qed.

Lemma import_bhkcapsule_shape_created ctx p1 p2 radius material self objs
    self' :
  import_bhkcapsule_shape ctx p1 p2 radius material self = (objs, self') ->
  created objs self self'.
Proof.
  unfold import_bhkcapsule_shape. intros H. created_leaf H.
  inversion H; subst. by repeat apply created_update.
Qed.

Lemma import_bhkconvex_vertices_shape_created ctx vertices radius material
    self objs self' :
  import_bhkconvex_vertices_shape ctx vertices radius material self
    = (objs, self') ->
  created objs self self'.
Proof.
  unfold import_bhkconvex_vertices_shape. intros H.
  destruct (qhull3d ctx _) as [verts faces]. created_leaf H.
  inversion H; subst. by repeat apply created_update.
Qed.

Lemma import_nitristrips_created vertices triangles radius self objs self' :
  import_nitristrips vertices triangles radius self = Return (objs, self') ->
  created objs self self'.
Proof.
  unfold import_nitristrips. intros H. created_leaf H.
  simpl in H. destruct (havok_mat self1); [|discriminate].
  inversion H; subst. by repeat apply created_update.
Qed.

(** The body of the loop over the sub-shapes never returns. *)
Lemma import_sub_shape_raises data st item :
  ∃ e, import_sub_shape data st item = Throw e.
Proof.
  destruct st as [[vertex_offset hk_objects] self].
  destruct item as [subshape_num subshape]. unfold import_sub_shape.
  destruct (collect_outcome _ _) as [verts|e]; simpl; [|eauto].
  destruct data as [data|]; simpl; [|eauto].
  eauto.
Qed.

Lemma import_bhkpackednitristrips_shape_returns sub_shapes data self r :
  import_bhkpackednitristrips_shape sub_shapes data self = Return r ->
  r = ([], self) ∧ sub_shapes = []
  ∧ ∃ d, data = Some d ∧ data_sub_shapes d = [].
Proof.
  unfold import_bhkpackednitristrips_shape. intros H.
  inv_obind H as subshapes Hsub. inv_obind H as st Hst.
  destruct subshapes as [|s rest].
  - simpl in Hst. inversion Hst; subst st. inversion H; subst r.
    split; [done|]. destruct sub_shapes; [|discriminate].
    split; [done|]. destruct data as [d|]; [|discriminate].
    exists d. split; [done|]. by inversion Hsub.
  - apply for_each_outcome_raises in Hst; [discriminate|].
    apply import_sub_shape_raises.
Qed.

Lemma set_rigid_body_created mass collision_objs objs self self' hs :
  created objs self self' ->
  (∀ h, h ∈ hs -> length (scene_objects self) ≤ h) ->
  created objs self (foldl (set_rigid_body mass collision_objs) self' hs).
Proof.
  revert self'. induction hs as [|h hs IH]; intros self' Hc Hle; [done|].
  simpl. apply IH; [|intros ? ?; apply Hle; by right].
  unfold set_rigid_body.
  destruct (PrimFloat.ltb _ _); repeat apply created_update; try done;
    apply Hle; left.
Qed.

Lemma created_handles objs self self' h :
  created objs self self' -> h ∈ objs ->
  length (scene_objects self) ≤ h < length (scene_objects self').
Proof.
  intros (new & H1 & ->) Hh. apply elem_of_seq in Hh.
  rewrite H1, length_app. lia.
Qed.

Lemma reduce_add_created
    (f : BhkShape -> BhkImport -> Outcome (list nat * BhkImport)) xs self
    objs self' :
  (∀ x s o s', f x s = Return (o, s') -> created o s s') ->
  reduce_add f xs self = Return (objs, self') -> created objs self self'.
Proof.
  intros Hf H. destruct xs as [|x rest]; [discriminate|]. simpl in H.
  inv_obind H as first Hfirst. destruct first as [o1 s1].
  apply Hf in Hfirst. revert H.
  apply (for_each_outcome_preserves
           (fun acc : list nat * BhkImport => created acc.1 self acc.2));
    [|done].
  intros [acc s] y [acc' s'] _ Hacc Hbody. simpl in *.
  inv_obind Hbody as r Hr. destruct r as [o2 s2]. inversion Hbody; subst.
  apply Hf in Hr. by eapply created_trans.
Qed.

Lemma import_bhk_shape_created ctx k bhkshape self objs self' :
  import_bhk_shape ctx k bhkshape self = Return (objs, self') ->
  created objs self self'.
Proof.
  revert bhkshape self objs self'.
  induction k as [|k IH]; intros bhkshape self objs self' H; [discriminate|].
  simpl in H.
  set (self0 := if bool_decide (user_version ctx = 12%Z) then _ else self)
    in *.
  assert (Hs0 : scene_objects self0 = scene_objects self).
  { unfold self0. by repeat case_bool_decide. }
  apply (created_scene _ _ _ _ Hs0). clearbody self0.
  destruct bhkshape.
  - by apply (IH bhkshape).
  - unfold import_bhkridgidbody in H. inv_obind H as r Hr.
    destruct r as [o s]. simpl in H. injection H as Ho Hs'.
    subst objs self'. apply IH in Hr.
    assert (Hfold : created o self0
              (foldl (set_rigid_body mass o) s o)).
    { apply set_rigid_body_created; [done|].
      intros h Hh. by destruct (created_handles _ _ _ _ Hr Hh). }
    destruct Hfold as (new & Hnew & ->). by exists new.
  - inversion H. by eapply import_bhkbox_shape_created.
  - inversion H. by eapply import_bhksphere_shape_created.
  - inversion H. by eapply import_bhkcapsule_shape_created.
  - inversion H. by eapply import_bhkconvex_vertices_shape_created.
  - apply import_bhkpackednitristrips_shape_returns in H as ([= -> ->] & _).
    apply created_nil.
  - apply (created_scene _ (set_havok_mat material self0) _ _ eq_refl).
    by apply (reduce_add_created _ _ _ _ _ (IH)) in H.
  - by apply import_nitristrips_created in H.
  - by apply (IH bhkshape).
  - by apply (reduce_add_created _ _ _ _ _ (IH)) in H.
  - inversion H; subst. apply created_nil.
Qed.

(** X17: the objects [import_bhk_shape] returns are the objects it has
    made: the scene is the scene it found, unchanged, with the new objects
    at its end, and the list returned names each new object once, in the
    order of creation. *)
Theorem import_bhk_shape_returns_what_it_makes
    (ctx : NifData) (k : nat) (bhkshape : BhkShape) (self self' : BhkImport)
    (objs : list nat) :
  import_bhk_shape ctx k bhkshape self = Return (objs, self') ->
  ∃ new, scene_objects self' = scene_objects self ++ new
         ∧ objs = seq (length (scene_objects self)) (length new)
         ∧ NoDup objs.
Proof.
  intros H. destruct (import_bhk_shape_created _ _ _ _ _ _ H)
    as (new & Hnew & ->).
  exists new. split_and!; [done..|]. apply NoDup_seq.
Qed.

(** The box and the sphere of [sample_body] are the two objects of the
    new scene. *)
Lemma import_bhk_shape_returns_what_it_makes_witness :
  ∃ new, scene_objects sample_scene
         = scene_objects (bhkshape_import_init sample_nif) ++ new
         ∧ [0; 1] = seq (length (scene_objects
                                   (bhkshape_import_init sample_nif)))
                      (length new)
         ∧ NoDup [0; 1].
Proof.
  refine (import_bhk_shape_returns_what_it_makes sample_nif 5 sample_body
            (bhkshape_import_init sample_nif) sample_scene [0; 1] _).
  vm_compute. reflexivity.
Defined.

(** ** Packed shapes *)

Lemma collect_outcome_returns {A B} (f : A -> Outcome B) xs :
  (∀ x, x ∈ xs -> ∃ y, f x = Return y) ->
  ∃ ys, collect_outcome f xs = Return ys.
Proof.
  induction xs as [|x xs IH]; intros Hf; simpl; [eauto|].
  destruct (Hf x) as [y ->]; [left|]. simpl.
  destruct IH as [ys ->]; [intros ? ?; apply Hf; by right|]. simpl. eauto.
Qed.

Arguments import_sub_shape : simpl never.

Lemma import_sub_shape_name_error d self s :
  num_vertices s ≤ length (data_vertices d) ->
  import_sub_shape (Some d) (0, [], self) (0, s) = Throw (NameError "b_mesh").
Proof.
  intros Hle. unfold import_sub_shape.
  match goal with
  | |- context [collect_outcome ?f ?xs] =>
      destruct (collect_outcome_returns f xs) as [verts ->]
  end; [|done].
  intros i Hi. apply elem_of_seq in Hi.
  destruct (lookup_lt_is_Some_2 (data_vertices d) i) as [v ->]; [lia|].
  eauto.
Qed.

(** X18: [import_bhk_shape] never returns an object for a packed strips
    shape.  It returns, with the empty list, only when the shape and its
    data have no sub-shape; with a sub-shape whose vertices are there it
    raises [NameError], for the name [b_mesh] that the loop reads and
    nothing binds. *)
Theorem packed_strips_shape_is_not_imported
    (ctx : NifData) (k : nat) (sub_shapes : list SubShape)
    (data : option hkPackedNiTriStripsData) (self : BhkImport) :
  (∀ objs self',
     import_bhk_shape ctx k (bhkPackedNiTriStripsShape sub_shapes data) self
     = Return (objs, self') ->
     objs = [] ∧ scene_objects self' = scene_objects self
     ∧ sub_shapes = [] ∧ ∃ d, data = Some d ∧ data_sub_shapes d = [])
  ∧ (∀ d s rest,
       data = Some d ->
       sub_shapes = s :: rest
       ∨ (sub_shapes = [] ∧ data_sub_shapes d = s :: rest) ->
       num_vertices s ≤ length (data_vertices d) ->
       import_bhk_shape ctx (S k) (bhkPackedNiTriStripsShape sub_shapes data)
         self
       = Throw (NameError "b_mesh")).
Proof.
  split.
  - intros objs self' H. destruct k as [|k]; [discriminate|]. simpl in H.
    apply import_bhkpackednitristrips_shape_returns in H
      as ([= -> ->] & -> & Hd).
    split_and!; [done| |done..]. by repeat case_bool_decide.
  - intros d s rest -> Hsub Hle. simpl.
    unfold import_bhkpackednitristrips_shape.
    destruct Hsub as [->|[-> ->]]; simpl;
      by rewrite import_sub_shape_name_error.
Qed.

(** The import of [sample_packed]. *)
Lemma packed_strips_shape_is_not_imported_witness :
  import_bhk_shape sample_nif 5 sample_packed
    (bhkshape_import_init sample_nif)
  = Throw (NameError "b_mesh").
Proof.
  refine (proj2 (packed_strips_shape_is_not_imported sample_nif 4
                   [sample_sub_shape] (Some sample_packed_data)
                   (bhkshape_import_init sample_nif))
            sample_packed_data sample_sub_shape [] eq_refl
            (or_introl eq_refl) _).
  simpl. lia.
Defined.

(** ** Rigid bodies *)

Lemma set_rigid_body_scene mass collision_objs self b_col_obj :
  scene_objects (set_rigid_body mass collision_objs self b_col_obj)
  = alter (set_mass (mass / float_of_nat (length collision_objs)))
      b_col_obj (scene_objects self).
Proof.
  unfold set_rigid_body. destruct (PrimFloat.ltb _ _); simpl; [|done].
  rewrite list_alter_alter_eq. by apply list_alter_ext.
Qed.

Lemma foldl_set_rigid_body_mass mass collision_objs hs self h :
  h ∈ hs -> h < length (scene_objects self) ->
  ∃ ob, scene_objects (foldl (set_rigid_body mass collision_objs) self hs)
          !! h = Some ob
        ∧ ob_mass ob
          = Some (mass / float_of_nat (length collision_objs))%float.
Proof.
  revert self. induction hs as [|x hs IH] using rev_ind; intros self Hh Hlt.
  - by apply elem_of_nil in Hh.
  - rewrite foldl_app. cbn [foldl]. rewrite set_rigid_body_scene.
    destruct (decide (x = h)) as [->|Hne].
    + rewrite list_lookup_alter_eq.
      assert (Hlen : ∀ l self0,
        length (scene_objects
                  (foldl (set_rigid_body mass collision_objs) self0 l))
        = length (scene_objects self0)).
      { clear. induction l as [|y l IHl]; intros self0; cbn [foldl];
          [done|].
        by rewrite IHl, set_rigid_body_scene, length_alter. }
      destruct (lookup_lt_is_Some_2
                  (scene_objects
                     (foldl (set_rigid_body mass collision_objs) self hs)) h)
        as [ob Hob]; [by rewrite Hlen|].
      rewrite Hob. simpl. eauto.
    + rewrite list_lookup_alter_ne by done. apply IH; [|done].
      apply elem_of_app in Hh as [?|Hh]; [done|].
      apply list_elem_of_singleton in Hh. by subst.
Qed.

(** X19: a rigid body splits its mass evenly: every object
    [import_bhk_shape] returns for it has the mass of the body divided by
    the number of these objects, whatever the mass (the test against
    0.0001 has no effect), and [dict_havok_objects] maps the body to these
    objects. *)
Theorem rigid_body_mass_is_split
    (ctx : NifData) (k : nat) (block : BlockId) (shape : BhkShape)
    (mass : float) (self self' : BhkImport) (objs : list nat) :
  import_bhk_shape ctx k (bhkRigidBody block shape mass) self
  = Return (objs, self') ->
  dict_havok_objects self' !! block = Some objs
  ∧ ∀ h, h ∈ objs ->
         ∃ ob, scene_objects self' !! h = Some ob
               ∧ ob_mass ob = Some (mass / float_of_nat (length objs))%float.
Proof.
  intros H. destruct k as [|k]; [discriminate|]. simpl in H.
  unfold import_bhkridgidbody in H. inv_obind H as r Hr.
  destruct r as [o s]. simpl in H. injection H as Ho Hs'. subst objs self'.
  simpl. split; [by rewrite lookup_insert_eq|].
  intros h Hh. apply foldl_set_rigid_body_mass; [done|].
  apply import_bhk_shape_created in Hr.
  by destruct (created_handles _ _ _ _ Hr Hh).
Qed.

(** The two objects of [sample_body] have the mass 5. *)
Lemma rigid_body_mass_is_split_witness :
  dict_havok_objects sample_scene !! 5 = Some [0; 1]
  ∧ ∀ h, h ∈ [0; 1] ->
         ∃ ob, scene_objects sample_scene !! h = Some ob
               ∧ ob_mass ob
                 = Some (10 / float_of_nat (length [0; 1]))%float.
Proof.
  refine (rigid_body_mass_is_split sample_nif 5 5 sample_shapes 10
            (bhkshape_import_init sample_nif) sample_scene [0; 1] _).
  vm_compute. reflexivity.
Defined.

(** ** Boxes *)

(** X20: the mesh of [box_from_extents] is the box: it has the eight
    corners, and its six faces are the six sides, each once: the four
    corners of a face differ and lie on the side of the box at [minx],
    [maxx], [minz], [maxz], [miny] or [maxy], in this order of the
    faces. *)
Theorem box_from_extents_faces_are_sides
    (b_name : string) (minx maxx miny maxy minz maxz : float)
    (self : BhkImport) :
  let (b_obj, self') :=
    box_from_extents b_name minx maxx miny maxy minz maxz self in
  ∃ ob, scene_objects self' !! b_obj = Some ob
    ∧ length (me_verts (ob_data ob)) = 8
    ∧ Forall2
        (fun face side =>
           length face = 4 ∧ NoDup face
           ∧ ∀ i, i ∈ face ->
                  ∃ v, me_verts (ob_data ob) !! Z.to_nat i = Some v
                       ∧ coordinate side.1 v = side.2)
        (me_faces (ob_data ob))
        [(0, minx); (0, maxx); (2, minz); (2, maxz); (1, miny); (1, maxy)].
Proof.
  unfold box_from_extents, mesh_from_data, create_ob. simpl.
  rewrite list_lookup_alter_eq, lookup_app_r, Nat.sub_diag by done. simpl.
  eexists. split; [done|]. simpl. split; [done|].
  repeat constructor; simpl;
    try (intros i Hi;
         repeat (apply elem_of_cons in Hi as [->|Hi]; [by eexists|]);
         by apply elem_of_nil in Hi);
    try (apply (bool_decide_unpack _); vm_compute; reflexivity).
Qed.

(** ** Trees that can be imported *)

Lemma height_elem x xs :
  x ∈ xs -> height x ≤ foldr (fun x n => Nat.max (height x) n) 0 xs.
Proof.
  induction xs as [|y xs IH]; [by intros ?%elem_of_nil|].
  intros [->|Hx]%elem_of_cons; simpl; [lia|]. specialize (IH Hx). lia.
Qed.

Lemma mesh_from_data_havok_mat name verts faces wireframe self :
  havok_mat (mesh_from_data name verts faces wireframe self).2
  = havok_mat self.
Proof. unfold mesh_from_data. simpl. by destruct wireframe. Qed.

Lemma foldl_set_rigid_body_havok_mat mass collision_objs hs self :
  havok_mat (foldl (set_rigid_body mass collision_objs) self hs)
  = havok_mat self.
Proof.
  revert self. induction hs as [|h hs IH]; intros self; cbn [foldl]; [done|].
  rewrite IH. unfold set_rigid_body. by destruct (PrimFloat.ltb _ _).
Qed.

Lemma for_each_outcome_agrees
    (f : BhkShape -> BhkImport -> Outcome (list nat * BhkImport)) xs acc self :
  (∀ x, x ∈ xs -> agrees f x) ->
  match importable_all importable xs (has_havok_mat self) with
  | Some mat' =>
      ∃ objs self',
        for_each_outcome
          (fun (acc : list nat * BhkImport) y =>
             r ← f y acc.2; Return (acc.1 ++ r.1, r.2))
          xs (acc, self) = Return (objs, self')
        ∧ has_havok_mat self' = mat'
  | None =>
      ∃ e, for_each_outcome
             (fun (acc : list nat * BhkImport) y =>
                r ← f y acc.2; Return (acc.1 ++ r.1, r.2))
             xs (acc, self) = Throw e
  end.
Proof.
  revert acc self. induction xs as [|x xs IH]; intros acc self Hf.
  - simpl. eauto.
  - cbn [importable_all for_each_outcome].
    pose proof (Hf x ltac:(left) self) as Hx.
    destruct (importable x (has_havok_mat self)) as [mat1|].
    + destruct Hx as (o1 & s1 & Hr & <-). cbn [snd]. rewrite Hr.
      apply (IH (acc ++ o1) s1). intros y Hy. apply Hf. by right.
    + destruct Hx as [e He]. cbn [snd]. rewrite He. simpl. eauto.
Qed.

Lemma reduce_add_agrees
    (f : BhkShape -> BhkImport -> Outcome (list nat * BhkImport)) xs self :
  (∀ x, x ∈ xs -> agrees f x) ->
  match match xs with
        | [] => None
        | _ => importable_all importable xs (has_havok_mat self)
        end with
  | Some mat' =>
      ∃ objs self', reduce_add f xs self = Return (objs, self')
                    ∧ has_havok_mat self' = mat'
  | None => ∃ e, reduce_add f xs self = Throw e
  end.
Proof.
  intros Hf. destruct xs as [|x xs]; [simpl; eauto|].
  cbn [importable_all reduce_add].
  pose proof (Hf x ltac:(left) self) as Hx.
  destruct (importable x (has_havok_mat self)) as [mat1|].
  - destruct Hx as (o1 & s1 & Hr & <-). rewrite Hr.
    apply (for_each_outcome_agrees f xs o1 s1). intros y Hy. apply Hf.
    by right.
  - destruct Hx as [e He]. rewrite He. simpl. eauto.
Qed.

Lemma import_bhk_shape_agrees ctx k bhkshape :
  height bhkshape ≤ k -> agrees (import_bhk_shape ctx k) bhkshape.
Proof.
  revert bhkshape. induction k as [|k IH]; intros bhkshape Hk self.
  { destruct bhkshape; simpl in Hk; lia. }
  cbn [import_bhk_shape].
  set (self0 := if bool_decide (user_version ctx = 12%Z) then _ else self).
  assert (Hm : has_havok_mat self = has_havok_mat self0).
  { unfold self0, has_havok_mat. by repeat case_bool_decide. }
  rewrite Hm. clearbody self0. clear Hm self.
  destruct bhkshape; cbn [importable height] in *.
  - apply (IH bhkshape); lia.
  - unfold import_bhkridgidbody.
    pose proof (IH bhkshape ltac:(lia) self0) as Hx.
    destruct (importable bhkshape (has_havok_mat self0)) as [mat1|].
    + destruct Hx as (o & s & -> & <-). simpl. eexists _, _.
      split; [done|]. unfold has_havok_mat. simpl.
      by rewrite foldl_set_rigid_body_havok_mat.
    + destruct Hx as [e ->]. simpl. eauto.
  - eexists _, _. split; [apply f_equal, surjective_pairing|]. done.
  - eexists _, _. split; [apply f_equal, surjective_pairing|]. done.
  - eexists _, _. split; [apply f_equal, surjective_pairing|]. done.
  - eexists _, _. split; [apply f_equal, surjective_pairing|].
    unfold import_bhkconvex_vertices_shape.
    by destruct (qhull3d ctx _).
  - unfold import_bhkpackednitristrips_shape.
    destruct sub_shapes as [|s rest].
    + destruct data as [d|]; [|simpl; eauto]. simpl.
      destruct (data_sub_shapes d) as [|s rest]; [simpl; eauto|].
      destruct (import_sub_shape_raises (Some d) (0, [], self0) (0, s))
        as [e He].
      cbn [imap for_each_outcome]. rewrite He. simpl. eauto.
    + destruct (import_sub_shape_raises data (0, [], self0) (0, s))
        as [e He].
      simpl. rewrite He. simpl. eauto.
  - apply (reduce_add_agrees (import_bhk_shape ctx k) strips_data
             (set_havok_mat material self0)).
    intros x Hx. apply IH. pose proof (height_elem _ _ Hx). lia.
  - unfold import_nitristrips, has_havok_mat. simpl.
    destruct (havok_mat self0) as [m|] eqn:Hmat.
    + rewrite bool_decide_eq_true_2 by eauto. eexists _, _.
      split; [done|]. apply bool_decide_eq_true_2. simpl. eauto.
    + rewrite bool_decide_eq_false_2 by (by intros [? ?]). eauto.
  - apply (IH bhkshape); lia.
  - apply (reduce_add_agrees (import_bhk_shape ctx k) sub_shapes self0).
    intros x Hx. apply IH. pose proof (height_elem _ _ Hx). lia.
  - eauto.
Qed.

(** X21: which collision trees are imported.  With a recursion limit
    above the height of the tree, [import_bhk_shape] returns exactly when
    the tree is [importable]: no list shape and no strips shape without
    sub-shapes (there [reduce] raises [TypeError]), no packed shape with a
    sub-shape, and strips data only once a strips shape has set
    [havok_mat]. *)
Theorem import_bhk_shape_returns_iff_importable
    (ctx : NifData) (k : nat) (bhkshape : BhkShape) (self : BhkImport) :
  height bhkshape ≤ k ->
  (∃ objs self', import_bhk_shape ctx k bhkshape self = Return (objs, self'))
  ↔ is_Some (importable bhkshape (has_havok_mat self)).
Proof.
  intros Hk. pose proof (import_bhk_shape_agrees ctx k bhkshape Hk self) as H.
  destruct (importable bhkshape (has_havok_mat self)) as [mat'|].
  - destruct H as (objs & self' & -> & _). split; [eauto|]. intros _. eauto.
  - destruct H as [e ->]. split.
    + by intros (? & ? & ?).
    + by intros [? ?].
Qed.

(** The strips data of [sample_strips] are imported below their strips
    shape. *)
Lemma import_bhk_shape_returns_iff_importable_witness :
  (∃ objs self',
     import_bhk_shape sample_nif 5 sample_strips
       (bhkshape_import_init sample_nif) = Return (objs, self'))
  ↔ is_Some (importable sample_strips
               (has_havok_mat (bhkshape_import_init sample_nif))).
Proof.
  apply (import_bhk_shape_returns_iff_importable sample_nif 5 sample_strips).
  vm_compute. lia.
Defined.

(** Strips data on their own, a list without shapes and a packed shape
    with a sub-shape stop the import. *)
Example import_bhk_shape_failures :
  import_bhk_shape sample_nif 5 sample_strips_data
    (bhkshape_import_init sample_nif) = Throw (Builtin AttributeError)
  ∧ import_bhk_shape sample_nif 5 (bhkListShape [])
      (bhkshape_import_init sample_nif)
    = Throw (TypeError "reduce() of empty sequence with no initial value")
  ∧ importable sample_strips_data false = None
  ∧ importable (bhkListShape []) false = None
  ∧ importable sample_packed false = None.
Proof. split_and!; vm_compute; reflexivity. Qed.

(** * Files on which the pass returns *)

Lemma complete_bone_tree_total g k b r n (d : Dict) :
  registered d r b -> climbs g r b n -> n < k ->
  ∃ d', complete_bone_tree g k b r d = Ok d'.
Proof.
  intros Hreg Hc. revert k d Hreg.
  induction Hc as [b Hp|b p n Hp Hne Hc IH]; intros k d (l & Hl & Hb) Hlt;
    (destruct k as [|k]; [lia|]); simpl; rewrite Hl, decide_True, Hp by done.
  - rewrite decide_True by done. eauto.
  - rewrite decide_False by done.
    destruct (dict_add r p d) as [d1|e] eqn:Hadd.
    + simpl. apply IH; [|lia]. by apply dict_add_grown in Hadd as [_ ?].
    + unfold dict_add in Hadd. rewrite Hl in Hadd. by case_decide.
Qed.

Lemma ancestor_climbs g rank r b :
  parents_ranked g rank -> ancestor g r b ->
  ∃ n, climbs g r b n ∧ n + rank b < rank r.
Proof.
  intros Hpr. induction 1 as [b p Hp|b p a Hp Hanc (n & Hc & Hn)].
  - exists 0. split; [by apply climbs_parent|]. specialize (Hpr _ _ Hp). lia.
  - exists (S n). specialize (Hpr _ _ Hp). split; [|lia].
    apply (climbs_step _ _ _ p); [done| |done].
    intros ->. lia.
Qed.

(** X22: in the skeleton branch the pass returns on every file without
    cycle when the block it starts from is a [NiNode] and the recursion
    limit is above the rank of that block, whatever the dictionary holds;
    on another block it raises the [NifError] of the skeleton import. *)
Theorem skeleton_branch_returns
    (ctx : NifImport) (g : NifGraph) (rank : BlockId -> nat) (k : nat)
    (n : BlockId) (d : Dict) :
  skeleton_branch ctx = true -> ranked g rank -> rank n < k ->
  if is_a g n NiNode
  then ∃ d', mark_armatures_bones ctx g (S k) n d = Ok d'
  else mark_armatures_bones ctx g (S k) n d
       = Raise (NifError "cannot import skeleton: root is not a NiNode").
Proof.
  intros Hbr Hrk Hlt. simpl. rewrite Hbr. unfold mark_skeleton.
  destruct (is_a g n NiNode); cbn [negb]; [|done].
  assert (Hroot : ∃ r,
    (if bool_decide (data_version ctx = 0x04000002%Z)
     then found ← find g k n (PyStr "Bip01") (Some NiNode); Ok (default n found)
     else Ok n) = Ok r ∧ rank r ≤ rank n).
  { case_bool_decide; [|eauto].
    destruct (find_total g rank k n (PyStr "Bip01") (Some NiNode) Hrk Hlt)
      as (found & -> & Hle).
    simpl. eexists. split; [done|]. destruct found as [x|]; simpl; [|done].
    by apply Hle. }
  destruct Hroot as (r & -> & Hle). simpl.
  destruct (tree_total g rank k r Hrk ltac:(lia)) as [t Ht].
  apply (populate_bone_tree_total _ _ _ _ t); [done|].
  case_decide; [done|]. rewrite lookup_insert_eq. eauto.
Qed.

(** The skeleton with a LOD node, and the same import started on a
    shape. *)
Lemma skeleton_branch_returns_witness :
  (∃ d', mark_armatures_bones import_skeleton_only lod_skeleton 10 0 ∅
         = Ok d')
  ∧ mark_armatures_bones import_skeleton_only lod_skinned 10 3 ∅
    = Raise (NifError "cannot import skeleton: root is not a NiNode").
Proof.
  split.
  - refine (skeleton_branch_returns import_skeleton_only lod_skeleton
              (sample_rank lod_skeleton) 9 0 ∅ _ _ _).
    + reflexivity.
    + intros q x Hx. destruct q as [|[|[|q]]]; simpl in Hx;
        repeat (apply elem_of_cons in Hx as [->|Hx]; [vm_compute; lia|]);
        by apply elem_of_nil in Hx.
    + vm_compute. lia.
  - refine (skeleton_branch_returns import_skeleton_only lod_skinned
              (sample_rank lod_skinned) 9 3 ∅ _ _ _).
    + reflexivity.
    + intros q x Hx. destruct q as [|[|[|[|q]]]]; simpl in Hx;
        repeat (apply elem_of_cons in Hx as [->|Hx]; [vm_compute; lia|]);
        by apply elem_of_nil in Hx.
    + vm_compute. lia.
Defined.

Section EverythingReturns.
Variable ctx : NifImport.
Variable g : NifGraph.
Variable rank : BlockId -> nat.
Variable bound : nat.
Hypothesis Hmode : props_skeleton ctx = EVERYTHING.
Hypothesis Hbr : skeleton_branch ctx = false.
Hypothesis Hrk : ranked g rank.
Hypothesis Hpr : parents_ranked g rank.
Hypothesis Hbound : ∀ b, rank b < bound.
Hypothesis Hskins : skins_below_root g.

Lemma everything_mark_skin_total k n obj (d : Dict) :
  bound ≤ k -> ∃ d', mark_skin ctx g k n obj d = Ok d'.
Proof.
  intros Hk. unfold mark_skin.
  destruct (is_a g n NiTriBasedGeom) eqn:Hgeom; [|eauto].
  destruct (skin_instance (g n)) as [s|] eqn:Hskin; [|eauto].
  destruct (Hskins n s Hgeom Hskin) as (r & Hr & Hbones).
  rewrite Hr. unfold check_skelroot. rewrite Hmode.
  set (d1 := if decide (is_Some (d !! r)) then d else <[r := []]> d).
  assert (Hd1 : (if decide (is_Some (d !! r)) then Ok d
                 else Ok (<[r := []]> d)) = Ok d1)
    by (unfold d1; by case_decide).
  rewrite Hd1. simpl.
  assert (Hs1 : is_Some (d1 !! r)).
  { unfold d1. case_decide; [done|]. rewrite lookup_insert_eq. eauto. }
  destruct (for_each_total (fun s : Dict => is_Some (s !! r))
              (mark_skin_bone g k r) (bones s)) with (s := d1)
    as (d2 & -> & Hs2); [|done|].
  - intros s0 [b|] Hb Hs0; simpl; [|eauto].
    destruct Hs0 as [l Hl].
    destruct (dict_add r b s0) as [s1|e] eqn:Hadd.
    2:{ unfold dict_add in Hadd. rewrite Hl in Hadd. by case_decide. }
    simpl. pose proof (dict_add_grown _ _ _ _ Hadd) as [Hg Hreg].
    destruct (ancestor_climbs g rank r b Hpr (Hbones b Hb)) as (m & Hc & Hm).
    destruct (complete_bone_tree_total g k b r m s1 Hreg Hc) as [s2 Hs2].
    { specialize (Hbound r). lia. }
    exists s2. split; [done|].
    apply complete_bone_tree_spec in Hs2 as (Hg2 & _).
    destruct Hg2 as (l2 & ext & _ & -> & _). rewrite lookup_insert_eq. eauto.
  - simpl. destruct (tree_total g rank k r Hrk) as [t Ht].
    { specialize (Hbound r). lia. }
    by apply (populate_bone_tree_total _ _ _ _ t).
Qed.

Lemma everything_total k n (d : Dict) :
  bound + rank n < k -> ∃ d', mark_armatures_bones ctx g k n d = Ok d'.
Proof.
  revert n d. induction k as [|k IH]; intros n d Hk; [lia|].
  simpl. rewrite Hbr.
  rewrite (bool_decide_eq_false_2 (props_skeleton ctx = GEOMETRY_ONLY))
    by (by rewrite Hmode).
  simpl.
  destruct (everything_mark_skin_total k n None d) as [d1 ->]; [lia|].
  simpl.
  destruct (for_each_total (fun _ : Dict => True)
              (fun d child =>
                 if negb (is_a g child NiAVObject) then Ok d
                 else mark_armatures_bones ctx g k child d)
              (get_refs (g n))) with (s := d1) as (d' & Hd' & _);
    [|done|eauto].
  intros s c Hc _. destruct (negb (is_a g c NiAVObject)); [eauto|].
  destruct (IH c s) as [s' Hs']; [|eauto].
  specialize (Hrk _ _ Hc). lia.
Qed.
End EverythingReturns.

(** X23: in the mode [EVERYTHING] the pass returns on every well-formed
    file: one without cycle, whose parent links go up, and where the skin
    of every shape names a skeleton root that is above each of its bones;
    the recursion limit has to be above the rank of the start block by the
    bound of the ranks. *)
Theorem everything_returns
    (ctx : NifImport) (g : NifGraph) (rank : BlockId -> nat) (bound k : nat)
    (n : BlockId) (d : Dict) :
  props_skeleton ctx = EVERYTHING -> skeleton_branch ctx = false ->
  ranked g rank -> parents_ranked g rank -> (∀ b, rank b < bound) ->
  skins_below_root g -> bound + rank n < k ->
  ∃ d', mark_armatures_bones ctx g k n d = Ok d'.
Proof. intros. by eapply everything_total. Qed.

(** The file [gap_skeleton] is well formed. *)
Lemma everything_returns_witness :
  ∃ d', mark_armatures_bones import_everything gap_skeleton 10 0 ∅ = Ok d'.
Proof.
  refine (everything_returns import_everything gap_skeleton
            (sample_rank gap_skeleton) 3 10 0 ∅ _ _ _ _ _ _ _).
  - reflexivity.
  - reflexivity.
  - intros q x Hx. destruct q as [|[|[|[|[|q]]]]]; simpl in Hx;
      repeat (apply elem_of_cons in Hx as [->|Hx]; [vm_compute; lia|]);
      by apply elem_of_nil in Hx.
  - intros x p Hp. destruct x as [|[|[|[|[|x]]]]]; simpl in Hp;
      try discriminate Hp; injection Hp as <-; vm_compute; lia.
  - intros b. destruct b as [|[|[|[|[|b]]]]]; vm_compute; lia.
  - intros x s Hgeom Hskin.
    destruct x as [|[|[|[|[|x]]]]]; try discriminate Hgeom.
    injection Hskin as <-. exists 0. split; [reflexivity|].
    intros b Hb. simpl in Hb.
    apply elem_of_cons in Hb as [[= ->]|Hb].
    { by apply ancestor_parent. }
    apply elem_of_cons in Hb as [[= ->]|Hb].
    { apply (ancestor_step _ _ 2); [done|]. by apply ancestor_parent. }
    by apply elem_of_nil in Hb.
  - vm_compute. lia.
Defined.

(** * From the skins to the edit bones *)

Lemma marked_bone_path g children (d : Dict) r b :
  (∀ y p, _parent (g y) = Some p -> Some y ∈ children p) ->
  ancestor g r b -> registered d r b ->
  (∀ a, between g r b a -> registered d r a) ->
  bone_path children d r b.
Proof.
  intros Hch Hanc. induction Hanc as [b p Hp|b p a Hp Hanc IH];
    intros Hreg Hall.
  - apply bone_path_child; [by apply Hch|].
    apply is_bone_registered. eauto.
  - destruct (decide (p = a)) as [->|Hne].
    + apply bone_path_child; [by apply Hch|].
      apply is_bone_registered. eauto.
    + apply (bone_path_step _ _ _ p).
      * apply IH.
        -- apply Hall. by apply between_parent.
        -- intros a' Ha'. apply Hall. by eapply between_step.
      * by apply Hch.
      * apply is_bone_registered. eauto.
Qed.

(** X24: no gap between a skin and its armature.  After a pass outside
    the skeleton branch, when the children arrays hold the blocks whose
    parent link points to them, every bone that the skin of a shape the
    pass came by refers to gets an edit bone in the armature of the
    skeleton root of that skin. *)
Theorem skin_bones_get_edit_bones
    (ctx : NifImport) (g : NifGraph)
    (children : BlockId -> list (option BlockId)) (k k' : nat)
    (n x r b : BlockId) (s : NiSkinInstance) (d d' : Dict)
    (edit_bones : list NewBone) :
  skeleton_branch ctx = false ->
  mark_armatures_bones ctx g k n d = Ok d' ->
  (∀ y p, _parent (g y) = Some p -> Some y ∈ children p) ->
  visited g n x -> is_a g x NiTriBasedGeom = true ->
  skin_instance (g x) = Some s ->
  skeleton_root s = Some r -> Some b ∈ bones s ->
  import_armature_bones g children d' k' r = Ok edit_bones ->
  b ∈ nb_block <$> edit_bones.
Proof.
  intros Hbr Hmark Hch Hvis Hgeom Hskin Hroot Hb Himport.
  destruct (marks_skins _ _ _ _ _ _ Hbr Hmark x s Hvis Hgeom Hskin)
    as (r' & Hr' & _ & Hbones & _).
  rewrite Hroot in Hr'. injection Hr' as <-.
  destruct (Hbones b Hb) as (Hreg & Hanc & Hall).
  destruct (import_armature_bones_spec _ _ _ _ _ _ Himport)
    as (_ & Hplaced & Htop).
  assert (Hpath : bone_path children d' r b)
    by (by apply (marked_bone_path g)).
  clear -Hpath Hplaced Htop. induction Hpath as [y Hy Hyb|z y _ IH Hy Hyb].
  - by apply Htop.
  - apply list_elem_of_fmap in IH as (e & -> & He).
    apply list_elem_of_lookup in He as [i Hi].
    destruct (Hplaced i e Hi) as [_ Hm]. by apply Hm.
Qed.

(** The second bone of the skin of [gap_skeleton] gets the third edit
    bone, below the edit bone of its parent, which the skin does not
    name. *)
Lemma skin_bones_get_edit_bones_witness :
  3 ∈ nb_block <$> [ {| nb_block := 1; nb_parent := None |};
                     {| nb_block := 2; nb_parent := None |};
                     {| nb_block := 3; nb_parent := Some 1 |} ].
Proof.
  refine (skin_bones_get_edit_bones import_everything gap_skeleton
            (refs_as_children gap_skeleton) 10 9 0 4 0 3
            {| skeleton_root := Some 0; bones := [Some 1; Some 3] |}
            ∅ ({[0 := [1; 3; 2]]} : Dict) _ _ _ _ _ _ _ _ _ _).
  - reflexivity.
  - vm_compute. reflexivity.
  - intros y p Hp. destruct y as [|[|[|[|[|y]]]]]; simpl in Hp;
      try discriminate Hp; injection Hp as <-;
      apply (bool_decide_unpack _); vm_compute; reflexivity.
  - eapply visited_ref with (c := 4).
    + apply (bool_decide_unpack _). vm_compute. reflexivity.
    + reflexivity.
    + apply visited_here.
  - reflexivity.
  - reflexivity.
  - reflexivity.
  - apply (bool_decide_unpack _). vm_compute. reflexivity.
  - vm_compute. reflexivity.
Defined.

(** * Bones and their root *)

Lemma ancestor_rank g rank a b :
  parents_ranked g rank -> ancestor g a b -> rank b < rank a.
Proof.
  intros Hpr. induction 1 as [b p Hp|b p a Hp _ IH].
  - by apply Hpr.
  - specialize (Hpr _ _ Hp). lia.
Qed.

(** X26: every bone is below its root.  When the parent links of the
    file mirror its references and the bones of the dictionary the pass
    starts from are below their roots, every bone of the dictionary it
    returns has its root among its ancestors; in a file whose parent links
    go up a rank, no root is among its own bones. *)
Theorem bones_are_below_their_root
    (ctx : NifImport) (g : NifGraph) (k : nat) (n : BlockId) (d d' : Dict) :
  parents_set g -> below_root g d ->
  mark_armatures_bones ctx g k n d = Ok d' ->
  ∀ r b, registered d' r b ->
         ancestor g r b
         ∧ ∀ rank, parents_ranked g rank -> rank b < rank r ∧ b ≠ r.
Proof.
  intros Hwf Hbelow Hrun r b Hreg.
  assert (Hanc : ancestor g r b)
    by (by apply (mark_keeps_below_root ctx g Hwf k n d d')).
  split; [done|]. intros rank Hpr.
  pose proof (ancestor_rank _ _ _ _ Hpr Hanc). split; [done|].
  intros ->. lia.
Qed.

(** The bone 3 of [gap_skeleton] is below the root 0. *)
Lemma bones_are_below_their_root_witness :
  ancestor gap_skeleton 0 3
  ∧ ∀ rank, parents_ranked gap_skeleton rank -> rank 3 < rank 0 ∧ 3 ≠ 0.
Proof.
  refine (bones_are_below_their_root import_everything gap_skeleton 10 0 ∅
            ({[0 := [1; 3; 2]]} : Dict) gap_skeleton_parents
            (below_root_empty gap_skeleton) _ 0 3 _).
  - vm_compute. reflexivity.
  - exists [1; 3; 2]. split; [reflexivity|].
    apply (bool_decide_unpack _). vm_compute. reflexivity.
Defined.
